(** * Standalone eggroll: partitioned tables over a transactional key-value store

    A shallow embedding of [arch/api/standalone/eggroll.py]: the partition
    hasher, the table handle [_DTable] with its point operations, bulk
    ingest, the merge-sort collector, the operator kernels and the
    engine's table factory, with the properties of the specification
    stated and proved over them.

    The libraries the program calls are modelled by what they compute:
    [hashlib.sha1] and numpy's Mersenne Twister are implemented, Python
    floats are the standard library's IEEE 754 binary64 specification, an
    LMDB database is a key-sorted list of entries. *)

From Stdlib Require Import ZArith List Lia Bool Sorting.Sorted.
From Stdlib Require Import Strings.Byte Strings.String Strings.Ascii.
From Stdlib Require Import Floats.SpecFloat.
From Stdlib Require Import DecimalString DecimalZ DecimalPos.
From stdpp Require Import base option list gmap strings sorting.

Local Open Scope Z_scope.

(** ** Byte strings

    Python [bytes] are lists of bytes.  LMDB orders keys, and Python
    orders [bytes] objects, lexicographically on unsigned byte values,
    a proper prefix coming first. *)

Definition bytes := list byte.

Definition byte_to_Z (b : byte) : Z := Z.of_N (Byte.to_N b).

Definition byte_of_Z (z : Z) : byte :=
  match Byte.of_N (Z.to_N (z mod 256)) with
  | Some b => b
  | None => x00
  end.

Definition b_ (s : string) : bytes := String.list_byte_of_string s.

Fixpoint bytes_compare (a b : bytes) : comparison :=
  match a, b with
  | [], [] => Eq
  | [], _ :: _ => Lt
  | _ :: _, [] => Gt
  | x :: a', y :: b' =>
      match (byte_to_Z x ?= byte_to_Z y) with
      | Eq => bytes_compare a' b'
      | c => c
      end
  end.

Definition bytes_ltb (a b : bytes) : bool :=
  match bytes_compare a b with Lt => true | _ => false end.

Definition bytes_eqb (a b : bytes) : bool :=
  match bytes_compare a b with Eq => true | _ => false end.

(** ** SHA-1 ([hashlib.sha1], FIPS 180-4)

    The hasher seeds its recurrence with the SHA-1 digest of the key, so
    the digest is implemented here rather than assumed. *)

Module SHA1.

Definition mask32 : Z := 0xffffffff.

Definition add32 (a b : Z) : Z := Z.land (a + b) mask32.

Definition rotl (n x : Z) : Z :=
  Z.land (Z.lor (Z.shiftl x n) (Z.shiftr x (32 - n))) mask32.

Definition not32 (x : Z) : Z := Z.lxor x mask32.

(** Big-endian encoding of [z] on [n] bytes. *)
Fixpoint be_bytes (n : nat) (z : Z) : list Z :=
  match n with
  | O => []
  | S n' => be_bytes n' (Z.shiftr z 8) ++ [Z.land z 0xff]
  end.

Definition be_word (bs : list Z) : Z :=
  fold_left (fun acc b => Z.lor (Z.shiftl acc 8) b) bs 0.

(** The message followed by 0x80, zero bytes up to 56 modulo 64, and the
    bit length on 8 bytes. *)
Definition pad (msg : list Z) : list Z :=
  let len := Z.of_nat (length msg) in
  let zeros := Z.to_nat ((55 - len) mod 64) in
  msg ++ [0x80] ++ repeat 0 zeros ++ be_bytes 8 (8 * len).

Fixpoint chunks (fuel : nat) (n : nat) (l : list Z) : list (list Z) :=
  match fuel with
  | O => []
  | S fuel' =>
      match l with
      | [] => []
      | _ => firstn n l :: chunks fuel' n (skipn n l)
      end
  end.

Definition words_of_block (blk : list Z) : list Z :=
  map be_word (chunks 16 4 blk).

(** Message schedule, most recent word first. *)
Fixpoint schedule (n : nat) (w : list Z) : list Z :=
  match n with
  | O => w
  | S n' =>
      let x := Z.lxor (Z.lxor (nth 2 w 0) (nth 7 w 0))
                      (Z.lxor (nth 13 w 0) (nth 15 w 0)) in
      schedule n' (rotl 1 x :: w)
  end.

Definition round_fk (t : Z) (b c d : Z) : Z * Z :=
  if t <? 20 then (Z.lor (Z.land b c) (Z.land (not32 b) d), 0x5a827999)
  else if t <? 40 then (Z.lxor (Z.lxor b c) d, 0x6ed9eba1)
  else if t <? 60 then
    (Z.lor (Z.lor (Z.land b c) (Z.land b d)) (Z.land c d), 0x8f1bbcdc)
  else (Z.lxor (Z.lxor b c) d, 0xca62c1d6).

Record regs := Regs { ra : Z; rb : Z; rc : Z; rd : Z; re : Z }.

Fixpoint rounds (t : Z) (ws : list Z) (r : regs) : regs :=
  match ws with
  | [] => r
  | w :: ws' =>
      let '(f, k) := round_fk t (rb r) (rc r) (rd r) in
      let tmp := add32 (add32 (add32 (add32 (rotl 5 (ra r)) f) (re r)) k) w in
      rounds (t + 1) ws' (Regs tmp (ra r) (rotl 30 (rb r)) (rc r) (rd r))
  end.

Definition compress (h : regs) (blk : list Z) : regs :=
  let w := rev (schedule 64 (rev (words_of_block blk))) in
  let r := rounds 0 w h in
  Regs (add32 (ra h) (ra r)) (add32 (rb h) (rb r)) (add32 (rc h) (rc r))
       (add32 (rd h) (rd r)) (add32 (re h) (re r)).

Definition init : regs :=
  Regs 0x67452301 0xefcdab89 0x98badcfe 0x10325476 0xc3d2e1f0.

Definition digest (msg : bytes) : bytes :=
  let m := pad (map byte_to_Z msg) in
  let h := fold_left compress (chunks (length m) 64 m) init in
  map byte_of_Z
    (be_bytes 4 (ra h) ++ be_bytes 4 (rb h) ++ be_bytes 4 (rc h)
     ++ be_bytes 4 (rd h) ++ be_bytes 4 (re h)).

End SHA1.

(** ** Outcomes of Python code

    A call either returns a value or raises.  [LoopBound] is not a Python
    exception: it marks a loop of the model that used up its iteration
    budget (see [_hash_key_to_partition]). *)

Inductive exn :=
| ValueError | OverflowError | ZeroDivisionError | AttributeError
| TypeError | KeyError | UnboundLocalError | RecursionError
| UnpicklingError | BadValsizeError | LoopBound.

Inductive result (A : Type) :=
| Ok (a : A)
| Raise (e : exn).
Arguments Ok {A} a.
Arguments Raise {A} e.

#[export] Instance result_ret : MRet result := fun A a => Ok a.

#[export] Instance result_bind : MBind result := fun A B k r =>
  match r with
  | Ok a => k a
  | Raise e => Raise e
  end.

#[export] Instance result_fmap : FMap result := fun A B f r =>
  match r with
  | Ok a => Ok (f a)
  | Raise e => Raise e
  end.

(** ** Python floats (IEEE 754 binary64)

    The operations are those of the standard library's executable
    specification [SpecFloat] at precision 53 and maximal exponent 1024,
    wrapped with the exceptions CPython raises. *)

Module PyFloat.

Definition prec : Z := 53.
Definition emax : Z := 1024.

(** [float(n)] for an [int]: correctly rounded, [OverflowError] when the
    result is out of range. *)
Definition of_int (n : Z) : result spec_float :=
  match binary_normalize prec emax n 0 false with
  | S754_infinity _ => Raise OverflowError
  | f => Ok f
  end.

Definition is_zero (f : spec_float) : bool :=
  match f with S754_zero _ => true | _ => false end.

Definition div (x y : spec_float) : result spec_float :=
  if is_zero y then Raise ZeroDivisionError else Ok (SFdiv prec emax x y).

Definition mul (x y : spec_float) : spec_float := SFmul prec emax x y.

(** [f < n] for a float and an [int]: CPython compares the exact
    values. *)
Definition lt_int (f : spec_float) (n : Z) : bool :=
  match f with
  | S754_nan => false
  | S754_infinity s => s
  | S754_zero _ => 0 <? n
  | S754_finite s m e =>
      let m' := if s then Z.neg m else Z.pos m in
      if 0 <=? e then m' * 2 ^ e <? n else m' <? n * 2 ^ (- e)
  end.

(** [int(f)]: truncation towards zero. *)
Definition to_int (f : spec_float) : result Z :=
  match f with
  | S754_nan => Raise ValueError
  | S754_infinity _ => Raise OverflowError
  | S754_zero _ => Ok 0
  | S754_finite s m e =>
      let a := if 0 <=? e then Z.pos m * 2 ^ e else Z.pos m / 2 ^ (- e) in
      Ok (if s then - a else a)
  end.

End PyFloat.

(** ** The partition hasher *)

(** [int.from_bytes(bs, byteorder='little', signed=False)] *)
Fixpoint int_from_bytes_le (bs : bytes) : Z :=
  match bs with
  | [] => 0
  | b :: bs' => byte_to_Z b + 256 * int_from_bytes_le bs'
  end.

(** One turn of the [while] loop of [_hash_key_to_partition], entered with
    [j < partitions] established: the new [b], [_key] and [j]. *)
Definition jump_step (j : spec_float) (_key : Z) : result (Z * Z * spec_float) :=
  b ← PyFloat.to_int j;
  let _key := Z.land (_key * 2862933555777941757 + 1) 0xffffffffffffffff in
  fb ← PyFloat.of_int (b + 1);
  f31 ← PyFloat.of_int (Z.shiftl 1 31);
  fk ← PyFloat.of_int (Z.shiftr _key 33 + 1);
  q ← PyFloat.div f31 fk;
  Ok (b, _key, PyFloat.mul fb q).

Fixpoint jump_loop (fuel : nat) (partitions b : Z) (j : spec_float) (_key : Z)
  : result Z :=
  match fuel with
  | O => Raise LoopBound
  | S fuel' =>
      if PyFloat.lt_int j partitions then
        '(b', _key', j') ← jump_step j _key;
        jump_loop fuel' partitions b' j' _key'
      else Ok b
  end.

(** The loop is run for at most [partitions + 1] tests of its condition;
    [hash_total] shows that this is never exhausted for a partition count
    below 2^53. *)
Definition _hash_key_to_partition (key : bytes) (partitions : Z) : result Z :=
  let _key := int_from_bytes_le (SHA1.digest key) in
  if partitions <? 1 then Raise ValueError
  else jump_loop (S (Z.to_nat partitions)) partitions (-1) (S754_zero false) _key.


(** ** Python values

    The objects that travel through the tables of the model: [None],
    integers, text and byte strings.  A [str] is kept as its UTF-8
    encoding. *)

Inductive pyobj :=
| PyNone
| PyInt (n : Z)
| PyStr (s : string)
| PyBytes (b : bytes).

(** [str(n)] for an [int], and its inverse. *)
Definition str_of_int (n : Z) : string := NilZero.string_of_int (Z.to_int n).

Definition int_of_str (s : string) : option Z :=
  Z.of_int <$> NilZero.int_of_string s.

(** [sep.join(parts)] *)
Fixpoint str_join (sep : string) (parts : list string) : string :=
  match parts with
  | [] => ""
  | [s] => s
  | s :: rest => s +:+ sep +:+ str_join sep rest
  end.

(** *** Object serialization

    Modelled from the spec: the "canonical object-serialization scheme
    producing self-describing byte strings" ([pickle], a library outside
    the repository).  An object is written as a one-byte tag followed by
    its payload; [loads] raises on bytes that are not such an encoding. *)

Module Pickle.

Definition dumps (o : pyobj) : bytes :=
  match o with
  | PyNone => b_ "N"
  | PyInt n => b_ "I" ++ b_ (str_of_int n)
  | PyStr s => b_ "S" ++ b_ s
  | PyBytes b => b_ "B" ++ b
  end.

Definition loads (bs : bytes) : result pyobj :=
  match bs with
  | [] => Raise UnpicklingError
  | tag :: rest =>
      if Byte.eqb tag "N" then
        match rest with [] => Ok PyNone | _ => Raise UnpicklingError end
      else if Byte.eqb tag "I" then
        match int_of_str (string_of_list_byte rest) with
        | Some n => Ok (PyInt n)
        | None => Raise UnpicklingError
        end
      else if Byte.eqb tag "S" then Ok (PyStr (string_of_list_byte rest))
      else if Byte.eqb tag "B" then Ok (PyBytes rest)
      else Raise UnpicklingError
  end.

End Pickle.

(** Modelled from the spec: [string_to_bytes] and [bytes_to_string] of
    [arch.api.utils.core], which are not among the sources ("strings are
    UTF-8 encoded and raw bytes passed through").  An object without an
    [encode] method raises [AttributeError]. *)
Definition string_to_bytes (o : pyobj) : result bytes :=
  match o with
  | PyStr s => Ok (b_ s)
  | PyBytes b => Ok b
  | _ => Raise AttributeError
  end.

Definition bytes_to_string (b : bytes) : pyobj := PyStr (string_of_list_byte b).

(** Modelled from the spec: the values of the [StoreType] enumeration of
    [arch.api] ("tier ∈ {LMDB, IN_MEMORY}"). *)
Module StoreType.
Definition LMDB : string := "LMDB".
Definition IN_MEMORY : string := "IN_MEMORY".
End StoreType.

(** ** One partition store

    An LMDB database is a finite map from byte keys to byte values whose
    cursor walks the entries in key order: a list of entries kept sorted
    by key. *)

Definition db := list (bytes * bytes).

Fixpoint db_get (k : bytes) (d : db) : option bytes :=
  match d with
  | [] => None
  | (k', v') :: d' => if bytes_eqb k k' then Some v' else db_get k d'
  end.

Fixpoint db_put (k v : bytes) (d : db) : db :=
  match d with
  | [] => [(k, v)]
  | (k', v') :: d' =>
      match bytes_compare k k' with
      | Lt => (k, v) :: d
      | Eq => (k, v) :: d'
      | Gt => (k', v') :: db_put k v d'
      end
  end.

Fixpoint db_delete (k : bytes) (d : db) : db :=
  match d with
  | [] => []
  | (k', v') :: d' => if bytes_eqb k k' then d' else (k', v') :: db_delete k d'
  end.

Definition db_keys (d : db) : list bytes := d.*1.

(** Keys strictly increasing along the list. *)
Fixpoint db_sorted (d : db) : bool :=
  match d with
  | [] => true
  | (k, _) :: d' =>
      match d' with
      | [] => true
      | (k', _) :: _ => bytes_ltb k k' && db_sorted d'
      end
  end.

(** ** The world: storage environments, transactions and the system

    An environment is identified by the list of path components that
    [os.sep.join] glues together; an environment that was never written
    is empty.  [uuid_clock] numbers the calls of [uuid.uuid1], [entropy]
    is what the operating system hands to an unseeded random generator,
    and [trace] records the write transactions of the control process. *)

Definition path := list string.

Inductive event :=
| EvBegin (env : path)
| EvPut (env : path) (k v : bytes)
| EvDelete (env : path) (k : bytes)
| EvCommit (env : path)
| EvAbort (env : path).

Record world := World {
  store : gmap path db;
  uuid_clock : nat;
  entropy : nat -> list Z;
  entropy_reads : nat;
  trace : list event
}.

Definition set_store (f : gmap path db -> gmap path db) (w : world) : world :=
  World (f (store w)) (uuid_clock w) (entropy w) (entropy_reads w) (trace w).

Definition log (e : event) (w : world) : world :=
  World (store w) (uuid_clock w) (entropy w) (entropy_reads w) (trace w ++ [e]).

(** [str(uuid.uuid1())]: a fresh name at every call. *)
Definition uuid1 (w : world) : string * world :=
  ("uuid1-" +:+ str_of_int (Z.of_nat (uuid_clock w)),
   World (store w) (S (uuid_clock w)) (entropy w) (entropy_reads w) (trace w)).

(** One read of the system's entropy source. *)
Definition os_urandom (w : world) : list Z * world :=
  (entropy w (entropy_reads w),
   World (store w) (uuid_clock w) (entropy w) (S (entropy_reads w)) (trace w)).

(** *** LMDB environments and transactions *)

(** The committed content of an environment, as a read transaction or a
    cursor sees it. *)
Definition env_read (env : path) (w : world) : db :=
  default [] (store w !! env).

(** A write transaction: the environment it belongs to and its working
    copy of the database. *)
Record txn := Txn { txn_env : path; txn_db : db }.

Definition txn_begin (env : path) (w : world) : txn * world :=
  (Txn env (env_read env w), log (EvBegin env) w).

Definition txn_get (t : txn) (k : bytes) : option bytes := db_get k (txn_db t).

(** [env.max_key_size()]: LMDB holds no empty key and no key longer than
    511 bytes. *)
Definition max_key_size : Z := 511.

Definition key_ok (k : bytes) : bool :=
  (1 <=? Z.of_nat (length k)) && (Z.of_nat (length k) <=? max_key_size).

(** What a put that LMDB accepts does: the entry is stored and the
    result is [True]. *)
Definition txn_store (t : txn) (k v : bytes) (w : world) : bool * txn * world :=
  (true, Txn (txn_env t) (db_put k v (txn_db t)), log (EvPut (txn_env t) k v) w).

(** [txn.put(k, v)]: [lmdb.BadValsizeError] for an empty key and for a
    key longer than [max_key_size]; otherwise the entry is stored and the
    result is [True].  (The limits on the size of a value, 2^32 - 1
    bytes, and of the map, 10 GiB, are limits of the machine and are not
    part of the model.)  The kernels of the operators, except [do_map],
    put keys that a cursor has read from the store; these puts are
    written with [db_put]. *)
Definition txn_put (t : txn) (k v : bytes) (w : world) : result (bool * txn * world) :=
  if key_ok k then Ok (txn_store t k v w) else Raise BadValsizeError.

(** [txn.delete(k)] returns whether the key was there. *)
Definition txn_delete (t : txn) (k : bytes) (w : world) : bool * txn * world :=
  (bool_decide (is_Some (db_get k (txn_db t))),
   Txn (txn_env t) (db_delete k (txn_db t)), log (EvDelete (txn_env t) k) w).

Definition txn_commit (t : txn) (w : world) : world :=
  log (EvCommit (txn_env t)) (set_store <[txn_env t := txn_db t]> w).

Definition txn_abort (t : txn) (w : world) : world :=
  log (EvAbort (txn_env t)) w.

(** [with env.begin(write=True) as txn: body]: committed when the body
    returns, the exception passed on when it raises. *)
Definition with_write_txn {A} (env : path)
    (body : txn -> world -> result (A * txn * world)) (w : world)
  : result (A * world) :=
  let '(t, w) := txn_begin env w in
  '(a, t, w) ← body t w;
  Ok (a, txn_commit t w).

(** ** The engine context and table handles *)

Record _DTable := DTable {
  _type : string;
  _namespace : string;
  _name : string;
  _partitions : Z
}.

Record Standalone := Build_Standalone {
  data_dir : string;
  job_id : string;
  meta_table : _DTable
}.

(** [Standalone.__init__]: the data directory comes from the project's
    configuration, the job id is generated when none is given. *)
Definition Standalone_init (base_dir : string) (job_id : option string) (w : world)
  : Standalone * world :=
  let '(job_id, w) :=
    match job_id with
    | None => uuid1 w
    | Some j => (j, w)
    end in
  (Build_Standalone (base_dir +:+ "/data") job_id
     (DTable "__META__" "__META__" "fragments" 10), w).

Definition _get_db_path (eng : Standalone) (args : list string) : path :=
  data_dir eng :: args.

Definition _get_env (eng : Standalone) (args : list string) : path :=
  _get_db_path eng args.

Definition _get_env_for_partition (eng : Standalone) (self : _DTable) (p : Z) : path :=
  _get_env eng [_type self; _namespace self; _name self; str_of_int p].

(** [kv_to_bytes], for a key and a value, and for one object alone. *)
Definition kv_to_bytes1 (o : pyobj) (use_serialize : bool) : result bytes :=
  if use_serialize then Ok (Pickle.dumps o) else string_to_bytes o.

Definition kv_to_bytes (k v : pyobj) (use_serialize : bool) : result (bytes * bytes) :=
  if use_serialize then Ok (Pickle.dumps k, Pickle.dumps v)
  else
    k_bytes ← string_to_bytes k;
    v_bytes ← string_to_bytes v;
    Ok (k_bytes, v_bytes).

(** What [get], [delete] and [put_if_absent] hand back for stored bytes. *)
Definition from_bytes (v_bytes : bytes) (use_serialize : bool) : result pyobj :=
  if use_serialize then Pickle.loads v_bytes else Ok (PyBytes v_bytes).

Definition put (eng : Standalone) (self : _DTable) (k v : pyobj)
    (use_serialize : bool) (w : world) : result (bool * world) :=
  '(k_bytes, v_bytes) ← kv_to_bytes k v use_serialize;
  p ← _hash_key_to_partition k_bytes (_partitions self);
  let env := _get_env_for_partition eng self p in
  with_write_txn env (fun txn w => txn_put txn k_bytes v_bytes w) w.

Definition count (eng : Standalone) (self : _DTable) (w : world) : Z :=
  fold_left
    (fun cnt p => cnt + Z.of_nat (length (env_read (_get_env_for_partition eng self p) w)))
    (seqZ 0 (_partitions self)) 0.

Definition delete (eng : Standalone) (self : _DTable) (k : pyobj)
    (use_serialize : bool) (w : world) : result (pyobj * world) :=
  k_bytes ← kv_to_bytes1 k use_serialize;
  p ← _hash_key_to_partition k_bytes (_partitions self);
  let env := _get_env_for_partition eng self p in
  with_write_txn env (fun txn w =>
    let old_value_bytes := txn_get txn k_bytes in
    let '(deleted, txn, w) := txn_delete txn k_bytes w in
    if deleted then
      match old_value_bytes with
      | None => Ok (PyNone, txn, w)
      | Some old => o ← from_bytes old use_serialize; Ok (o, txn, w)
      end
    else Ok (PyNone, txn, w)) w.

(** The program calls [put_if_absent] on the registry alone, with the
    identity of a table as key.  An identity, like the path of an
    environment, is taken to be within the limits of the store: the
    entry is stored by [txn_store], without the check of the key size. *)
Definition put_if_absent (eng : Standalone) (self : _DTable) (k v : pyobj)
    (use_serialize : bool) (w : world) : result (pyobj * world) :=
  k_bytes ← kv_to_bytes1 k use_serialize;
  p ← _hash_key_to_partition k_bytes (_partitions self);
  let env := _get_env_for_partition eng self p in
  with_write_txn env (fun txn w =>
    match txn_get txn k_bytes with
    | None =>
        v_bytes ← kv_to_bytes1 v use_serialize;
        let '(_, txn, w) := txn_store txn k_bytes v_bytes w in
        Ok (PyNone, txn, w)
    | Some old_value_bytes =>
        o ← from_bytes old_value_bytes use_serialize; Ok (o, txn, w)
    end) w.

Definition get (eng : Standalone) (self : _DTable) (k : pyobj)
    (use_serialize : bool) (w : world) : result (pyobj * world) :=
  k_bytes ← kv_to_bytes1 k use_serialize;
  p ← _hash_key_to_partition k_bytes (_partitions self);
  let env := _get_env_for_partition eng self p in
  with_write_txn env (fun txn w =>
    match txn_get txn k_bytes with
    | None => Ok (PyNone, txn, w)
    | Some old_value_bytes =>
        o ← from_bytes old_value_bytes use_serialize; Ok (o, txn, w)
    end) w.

(** The value of an integer object; the registry holds nothing else. *)
Definition as_int (o : pyobj) : result Z :=
  match o with
  | PyInt n => Ok n
  | _ => Raise TypeError
  end.

(** [Standalone.table] *)
Definition table (eng : Standalone) (name namespace : string) (partition : Z)
    (persistent : bool) (w : world) : result (_DTable * world) :=
  let __type := if persistent then StoreType.LMDB else StoreType.IN_MEMORY in
  let _table_key := str_join "." [__type; namespace; name] in
  '(_, w) ← put_if_absent eng (meta_table eng) (PyStr _table_key) (PyInt partition) true w;
  '(partition, w) ← get eng (meta_table eng) (PyStr _table_key) true w;
  partition ← as_int partition;
  Ok (DTable __type namespace name partition, w).

(** *** Bulk ingest *)

(** [txn_map]: the write transaction of partition [p] at position [p]. *)
Definition txn_map_get (txn_map : list txn) (p : Z) : result txn :=
  match txn_map !! Z.to_nat p with
  | Some t => Ok t
  | None => Raise KeyError
  end.

(** The body of the [try] statement of [put_all], for one entry. *)
Definition put_all_entry (self : _DTable) (use_serialize : bool)
    (k v : pyobj) (_succ : bool) (txn_map : list txn) (w : world)
  : result (bool * list txn * world) :=
  '(k_bytes, v_bytes) ← kv_to_bytes k v use_serialize;
  p ← _hash_key_to_partition k_bytes (_partitions self);
  if _succ then
    t ← txn_map_get txn_map p;
    '(r, t, w) ← txn_put t k_bytes v_bytes w;
    Ok (r, <[Z.to_nat p := t]> txn_map, w)
  else Ok (false, txn_map, w).

(** The loop over the entries: an exception sets [_succ] to [False] and
    leaves the loop. *)
Fixpoint put_all_loop (self : _DTable) (use_serialize : bool)
    (kv_list : list (pyobj * pyobj)) (_succ : bool) (txn_map : list txn) (w : world)
  : result (bool * list txn * world) :=
  match kv_list with
  | [] => Ok (_succ, txn_map, w)
  | (k, v) :: kv_list' =>
      match put_all_entry self use_serialize k v _succ txn_map w with
      | Ok (_succ, txn_map, w) => put_all_loop self use_serialize kv_list' _succ txn_map w
      | Raise LoopBound => Raise LoopBound
      | Raise _ => Ok (false, txn_map, w)
      end
  end.

Definition put_all_begin (eng : Standalone) (self : _DTable) (w : world)
  : list txn * world :=
  fold_left
    (fun '(txn_map, w) p =>
       let env := _get_env_for_partition eng self p in
       let '(t, w) := txn_begin env w in
       (txn_map ++ [t], w))
    (seqZ 0 (_partitions self)) ([], w).

Definition put_all_end (_succ : bool) (txn_map : list txn) (w : world) : world :=
  fold_left (fun w t => if _succ then txn_commit t w else txn_abort t w) txn_map w.

Definition put_all (eng : Standalone) (self : _DTable)
    (kv_list : list (pyobj * pyobj)) (use_serialize : bool) (w : world)
  : result (unit * world) :=
  let '(txn_map, w) := put_all_begin eng self w in
  '(_succ, txn_map, w) ← put_all_loop self use_serialize kv_list true txn_map w;
  Ok ((), put_all_end _succ txn_map w).

(** *** The merge-sort collector *)

(** A heap entry [[key, value, _id, it]]; [e_it] is what the cursor has
    still to deliver. *)
Record heap_entry := Entry {
  e_key : bytes;
  e_value : bytes;
  e_id : Z;
  e_it : db
}.

(** The order of Python lists on the entries: by key, then value, then
    [_id].  The ids are distinct, so the cursor is never compared. *)
Definition entry_ltb (a b : heap_entry) : bool :=
  match bytes_compare (e_key a) (e_key b) with
  | Lt => true
  | Gt => false
  | Eq =>
      match bytes_compare (e_value a) (e_value b) with
      | Lt => true
      | Gt => false
      | Eq => e_id a <? e_id b
      end
  end.

(** [heapq] keeps the smallest entry at index 0 and the entries are
    totally ordered, so the heap is represented by its entries in
    increasing order: [heapify] sorts, [heappop] drops the head and
    [heapreplace] drops the head and inserts. *)
Fixpoint heap_insert (x : heap_entry) (h : list heap_entry) : list heap_entry :=
  match h with
  | [] => [x]
  | y :: h' => if entry_ltb x y then x :: h else y :: heap_insert x h'
  end.

Definition heapify (entries : list heap_entry) : list heap_entry :=
  fold_right heap_insert [] entries.

Definition heappop (h : list heap_entry) : list heap_entry := tail h.

Definition heapreplace (h : list heap_entry) (x : heap_entry) : list heap_entry :=
  heap_insert x (tail h).

(** The first loop of [_merge]: one entry per cursor that is not empty. *)
Fixpoint merge_entries (_id : Z) (cursors : list db) : list heap_entry :=
  match cursors with
  | [] => []
  | it :: cursors' =>
      match it with
      | (key, value) :: it' => Entry key value _id it' :: merge_entries (_id + 1) cursors'
      | [] => merge_entries (_id + 1) cursors'
      end
  end.

(** The [while entries] loop: the raw entries in the order of the yields.
    Each turn consumes one stored entry, which bounds the loop. *)
Fixpoint merge_loop (fuel : nat) (entries : list heap_entry) : db :=
  match fuel with
  | O => []
  | S fuel' =>
      match entries with
      | [] => []
      | entry :: _ =>
          (e_key entry, e_value entry) ::
          match e_it entry with
          | (key, value) :: it' =>
              merge_loop fuel' (heapreplace entries (Entry key value (e_id entry) it'))
          | [] => merge_loop fuel' (heappop entries)
          end
      end
  end.

Definition merge_raw (cursors : list db) : db :=
  merge_loop (length (concat cursors)) (heapify (merge_entries 0 cursors)).

(** What one [yield] of [_merge] produces, or raises. *)
Definition merge_yield (use_serialize : bool) (kv : bytes * bytes)
  : result (pyobj * pyobj) :=
  if use_serialize then
    k ← Pickle.loads kv.1; v ← Pickle.loads kv.2; Ok (k, v)
  else Ok (bytes_to_string kv.1, PyBytes kv.2).

(** The generator [_merge], as the list of what it yields entry after
    entry.  The generator ends at the first yield that raises: a
    consumer of the list ends there too ([iterate] and the loop of
    [take]), and what the list holds after a raising element is never
    produced. *)
Definition _merge (cursors : list db) (use_serialize : bool)
  : list (result (pyobj * pyobj)) :=
  merge_yield use_serialize <$> merge_raw cursors.

Definition collect_cursors (eng : Standalone) (self : _DTable) (w : world) : list db :=
  (fun p => env_read (_get_env_for_partition eng self p) w) <$> seqZ 0 (_partitions self).

Definition collect (eng : Standalone) (self : _DTable) (use_serialize : bool)
    (w : world) : list (result (pyobj * pyobj)) :=
  _merge (collect_cursors eng self w) use_serialize.

(** The raw entries behind [collect], in the order of its yields. *)
Definition collect_raw (eng : Standalone) (self : _DTable) (w : world) : db :=
  merge_raw (collect_cursors eng self w).

(** Running a generator to its end, as a [for] loop does. *)
Fixpoint iterate {A} (it : list (result A)) : result (list A) :=
  match it with
  | [] => Ok []
  | r :: it' => a ← r; l ← iterate it'; Ok (a :: l)
  end.

Definition save_as (eng : Standalone) (self : _DTable) (name namespace : string)
    (partition : option Z) (use_serialize : bool) (w : world)
  : result (_DTable * world) :=
  let partition := default (_partitions self) partition in
  '(dup, w) ← table eng name namespace partition true w;
  kv_list ← iterate (collect eng self use_serialize w);
  '(_, w) ← put_all eng dup kv_list use_serialize w;
  Ok (dup, w).





(** ** The operator runtime *)

Record _TaskInfo (F : Type) := TaskInfo {
  _task_id : string;
  _function_id : string;
  _function_bytes : F
}.
Arguments TaskInfo {F} _ _ _.
Arguments _task_id {F} _.
Arguments _function_id {F} _.
Arguments _function_bytes {F} _.

Module _Operand.
Record t := mk {
  _type : string;
  _namespace : string;
  _name : string;
  _partition : Z
}.

Definition as_env (eng : Standalone) (self : t) : path :=
  _get_env eng [_type self; _namespace self; _name self; str_of_int (_partition self)].
End _Operand.

Module _UnaryProcess.
Record t (F : Type) := mk { _info : _TaskInfo F; _operand : _Operand.t }.
Arguments mk {F} _ _.
Arguments _info {F} _.
Arguments _operand {F} _.
End _UnaryProcess.

Module _BinaryProcess.
Record t (F : Type) := mk {
  _info : _TaskInfo F;
  _left : _Operand.t;
  _right : _Operand.t
}.
Arguments mk {F} _ _ _.
Arguments _info {F} _.
Arguments _left {F} _.
Arguments _right {F} _.
End _BinaryProcess.

(** The closure shipped in a task is carried as it is: pickling it and
    unpickling it in the worker gives it back. *)
Definition __get_function {F} (info : _TaskInfo F) : F := _function_bytes info.

(** The operand a kernel returns for the partition it has written. *)
Definition rtn_operand {F} (info : _TaskInfo F) (partition : Z) : _Operand.t :=
  _Operand.mk StoreType.IN_MEMORY (_task_id info) (_function_id info) partition.

(** A kernel runs in a worker process: it reads its source partitions in
    read transactions and fills one write transaction on its destination,
    committed when the [with] block is left. *)
Definition commit_dst (dst_env : path) (dst_txn : db) (w : world) : world :=
  set_store <[dst_env := dst_txn]> w.

(** The loop of [do_subtract_by_key] over the left cursor. *)
Definition subtract_step (right_txn : db) (dst_txn : db) (kv : bytes * bytes) : db :=
  let '(k_bytes, left_v_bytes) := kv in
  match db_get k_bytes right_txn with
  | None => db_put k_bytes left_v_bytes dst_txn
  | Some _ => dst_txn
  end.

Definition do_subtract_by_key {F} (eng : Standalone) (p : _BinaryProcess.t F)
    (w : world) : result (_Operand.t * world) :=
  let left_op := _BinaryProcess._left p in
  let right_op := _BinaryProcess._right p in
  let rtn := rtn_operand (_BinaryProcess._info p) (_Operand._partition left_op) in
  let right_txn := env_read (_Operand.as_env eng right_op) w in
  let left_txn := env_read (_Operand.as_env eng left_op) w in
  let dst_env := _Operand.as_env eng rtn in
  let dst_txn := env_read dst_env w in
  let dst_txn := fold_left (subtract_step right_txn) left_txn dst_txn in
  Ok (rtn, commit_dst dst_env dst_txn w).

(** [foldM] over a cursor, leaving at the first exception. *)
Fixpoint cursor_foldM {S} (f : S -> bytes * bytes -> result S) (cursor : db) (s : S)
  : result S :=
  match cursor with
  | [] => Ok s
  | kv :: cursor' => s ← f s kv; cursor_foldM f cursor' s
  end.

(** The two loops of [do_union]: over the left cursor, then over the
    right cursor with the destination as the intermediate state. *)
Definition union_left_step (_func : pyobj -> pyobj -> result pyobj) (right_txn : db)
    (dst_txn : db) (kv : bytes * bytes) : result db :=
  let '(k_bytes, left_v_bytes) := kv in
  match db_get k_bytes right_txn with
  | None => Ok (db_put k_bytes left_v_bytes dst_txn)
  | Some right_v_bytes =>
      left_v ← Pickle.loads left_v_bytes;
      right_v ← Pickle.loads right_v_bytes;
      final_v ← _func left_v right_v;
      Ok (db_put k_bytes (Pickle.dumps final_v) dst_txn)
  end.

Definition union_right_step (dst_txn : db) (kv : bytes * bytes) : db :=
  let '(k_bytes, right_v_bytes) := kv in
  match db_get k_bytes dst_txn with
  | None => db_put k_bytes right_v_bytes dst_txn
  | Some _ => dst_txn
  end.

Definition union_db (_func : pyobj -> pyobj -> result pyobj)
    (left_txn right_txn dst_txn : db) : result db :=
  (* process left op *)
  dst_txn ← cursor_foldM (union_left_step _func right_txn) left_txn dst_txn;
  (* process right op *)
  Ok (fold_left union_right_step right_txn dst_txn).

Definition do_union (eng : Standalone)
    (p : _BinaryProcess.t (pyobj -> pyobj -> result pyobj)) (w : world)
  : result (_Operand.t * world) :=
  let _func := __get_function (_BinaryProcess._info p) in
  let left_op := _BinaryProcess._left p in
  let right_op := _BinaryProcess._right p in
  let rtn := rtn_operand (_BinaryProcess._info p) (_Operand._partition left_op) in
  let right_txn := env_read (_Operand.as_env eng right_op) w in
  let left_txn := env_read (_Operand.as_env eng left_op) w in
  let dst_env := _Operand.as_env eng rtn in
  let dst_txn := env_read dst_env w in
  dst_txn ← union_db _func left_txn right_txn dst_txn;
  Ok (rtn, commit_dst dst_env dst_txn w).

(** *** The random generator of [do_sample]

    [numpy.random.RandomState]: the Mersenne Twister MT19937 with numpy's
    legacy seeding.  An integer seed in [0, 2^32) initialises the state by
    the usual recurrence; without a seed the state is read from the
    system's entropy source. *)

Module MT19937.

Definition mask32 : Z := 0xffffffff.

Fixpoint seed_words (n : nat) (pos : Z) (seed : Z) : list Z :=
  match n with
  | O => []
  | S n' =>
      seed ::
      seed_words n' (pos + 1)
        (Z.land (1812433253 * Z.lxor seed (Z.shiftr seed 30) + pos + 1) mask32)
  end.

Record state := State { key : list Z; pos : nat }.

Definition init_genrand (seed : Z) : state :=
  State (seed_words 624 0 (Z.land seed mask32)) 624.

Definition init_urandom (words : list Z) : state :=
  let ws := firstn 624 (((fun x => Z.land x mask32) <$> words) ++ repeat 0 624%nat) in
  State (<[O := Z.lor (nth O ws 0) 0x80000000]> ws) 624.

(** The in-place regeneration of the 624 words, word [i] from words
    [i], [i + 1] and [i + 397] (indices modulo 624). *)
Fixpoint twist (n : nat) (i : nat) (mt : list Z) : list Z :=
  match n with
  | O => mt
  | S n' =>
      let y := Z.lor (Z.land (nth i mt 0) 0x80000000)
                     (Z.land (nth ((i + 1) `mod` 624)%nat mt 0) 0x7fffffff) in
      let mag := if Z.odd y then 0x9908b0df else 0 in
      let x := Z.lxor (Z.lxor (nth ((i + 397) `mod` 624)%nat mt 0) (Z.shiftr y 1)) mag in
      twist n' (S i) (<[i := x]> mt)
  end.

Definition temper (y : Z) : Z :=
  let y := Z.lxor y (Z.shiftr y 11) in
  let y := Z.lxor y (Z.land (Z.shiftl y 7) 0x9d2c5680) in
  let y := Z.lxor y (Z.land (Z.shiftl y 15) 0xefc60000) in
  Z.lxor y (Z.shiftr y 18).

(** One 32-bit output. *)
Definition genrand (s : state) : Z * state :=
  let s := if (624 <=? pos s)%nat then State (twist 624 0 (key s)) 0 else s in
  (temper (nth (pos s) (key s) 0), State (key s) (S (pos s))).

(** [rand()]: a double in [0, 1) built from 53 random bits. *)
Definition rand (s : state) : spec_float * state :=
  let '(a, s) := genrand s in
  let '(b, s) := genrand s in
  (binary_normalize PyFloat.prec PyFloat.emax
     (Z.shiftr a 5 * 67108864 + Z.shiftr b 6) (-53) false, s).

End MT19937.

(** [np.random.RandomState(seed)] *)
Definition RandomState (seed : option Z) (w : world) : result (MT19937.state * world) :=
  match seed with
  | None => let '(words, w) := os_urandom w in Ok (MT19937.init_urandom words, w)
  | Some s =>
      if (0 <=? s) && (s <? 2 ^ 32) then Ok (MT19937.init_genrand s, w)
      else Raise ValueError
  end.

Definition float_ltb (x y : spec_float) : bool := SFltb x y.

(** The loop of [do_sample] over the source cursor: one draw per entry. *)
Definition sample_step (fraction : spec_float) (acc : db * MT19937.state)
    (kv : bytes * bytes) : db * MT19937.state :=
  let '(dst_txn, random_state) := acc in
  let '(k, v) := kv in
  let '(u, random_state) := MT19937.rand random_state in
  if float_ltb u fraction then (db_put k v dst_txn, random_state)
  else (dst_txn, random_state).

Definition sample_db (fraction : spec_float) (random_state : MT19937.state)
    (source_txn dst_txn : db) : db :=
  (fold_left (sample_step fraction) source_txn (dst_txn, random_state)).1.

Definition do_sample (eng : Standalone)
    (p : _UnaryProcess.t (spec_float * option Z)) (w : world)
  : result (_Operand.t * world) :=
  let op := _UnaryProcess._operand p in
  let rtn := rtn_operand (_UnaryProcess._info p) (_Operand._partition op) in
  let source_txn := env_read (_Operand.as_env eng op) w in
  let dst_env := _Operand.as_env eng rtn in
  let dst_txn := env_read dst_env w in
  let '(fraction, seed) := _function_bytes (_UnaryProcess._info p) in
  '(random_state, w) ← RandomState seed w;
  let dst_txn := sample_db fraction random_state source_txn dst_txn in
  Ok (rtn, commit_dst dst_env dst_txn w).

(** *** Operators of a table *)

Definition _serialize_and_hash_func {F} (func : F) (w : world) : string * F * world :=
  let '(func_id, w) := uuid1 w in (func_id, func, w).

(** Running the submitted tasks.  The pool runs them in worker processes
    in no particular order; each task writes the partition of its own
    index only, and the model runs them in the order of submission. *)
Fixpoint run_tasks {T} (_do_func : T -> world -> result (_Operand.t * world))
    (tasks : list T) (w : world) : result (list _Operand.t * world) :=
  match tasks with
  | [] => Ok ([], w)
  | t :: tasks' =>
      '(r, w) ← _do_func t w;
      '(rs, w) ← run_tasks _do_func tasks' w;
      Ok (r :: rs, w)
  end.

Definition _submit_to_pool {F} (eng : Standalone) (self : _DTable) (func : F)
    (_do_func : _UnaryProcess.t F -> world -> result (_Operand.t * world))
    (w : world) : result (list _Operand.t * world) :=
  let '(func_id, pickled_function, w) := _serialize_and_hash_func func w in
  let _task_info := TaskInfo (job_id eng) func_id pickled_function in
  run_tasks _do_func
    ((fun p => _UnaryProcess.mk _task_info
                 (_Operand.mk (_type self) (_namespace self) (_name self) p))
       <$> seqZ 0 (_partitions self)) w.

(** [for r in results: result = r.result()] leaves the last result in
    [result]; with no partition the name is unbound. *)
Definition last_result (results : list _Operand.t) : result _Operand.t :=
  match last results with
  | Some r => Ok r
  | None => Raise UnboundLocalError
  end.

Definition result_table (eng : Standalone) (self : _DTable)
    (results : list _Operand.t) (w : world) : result (_DTable * world) :=
  r ← last_result results;
  table eng (_Operand._name r) (_Operand._namespace r) (_partitions self) false w.

Definition sample (eng : Standalone) (self : _DTable) (fraction : spec_float)
    (seed : option Z) (w : world) : result (_DTable * world) :=
  '(results, w) ← _submit_to_pool eng self (fraction, seed) (do_sample eng) w;
  result_table eng self results w.

Definition binary_tasks {F} (eng : Standalone) (self other : _DTable)
    (_task_info : _TaskInfo F) : list (_BinaryProcess.t F) :=
  (fun p => _BinaryProcess.mk _task_info
              (_Operand.mk (_type self) (_namespace self) (_name self) p)
              (_Operand.mk (_type other) (_namespace other) (_name other) p))
    <$> seqZ 0 (_partitions self).

(** The interpreter's bound on nested calls ([sys.getrecursionlimit()]). *)
Definition recursion_limit : nat := 1000.

(** The default merge function of [union]: [lambda v1, v2: v1]. *)
Definition union_default_func (v1 v2 : pyobj) : result pyobj := Ok v1.

Fixpoint union_rec (depth : nat) (eng : Standalone) (self other : _DTable)
    (func : pyobj -> pyobj -> result pyobj) (w : world) {struct depth}
  : result (_DTable * world) :=
  match depth with
  | O => Raise RecursionError
  | S depth =>
      let _job_id := job_id eng in
      if bool_decide (_partitions other ≠ _partitions self) then
        if count eng self w <? count eng other w then
          let '(name, w) := uuid1 w in
          '(t, w) ← save_as eng self name _job_id (Some (_partitions other)) true w;
          union_rec depth eng t other func w
        else
          let '(name, w) := uuid1 w in
          '(o, w) ← save_as eng other name _job_id (Some (_partitions self)) true w;
          union_rec depth eng self o func w
      else
        let '(func_id, pickled_function, w) := _serialize_and_hash_func func w in
        let _task_info := TaskInfo _job_id func_id pickled_function in
        '(results, w) ← run_tasks (do_union eng) (binary_tasks eng self other _task_info) w;
        result_table eng self results w
  end.

Definition union (eng : Standalone) (self other : _DTable)
    (func : pyobj -> pyobj -> result pyobj) (w : world) : result (_DTable * world) :=
  union_rec recursion_limit eng self other func w.

Fixpoint subtractByKey_rec (depth : nat) (eng : Standalone) (self other : _DTable)
    (w : world) {struct depth} : result (_DTable * world) :=
  match depth with
  | O => Raise RecursionError
  | S depth =>
      let _job_id := job_id eng in
      if bool_decide (_partitions other ≠ _partitions self) then
        if count eng self w <? count eng other w then
          let '(name, w) := uuid1 w in
          '(t, w) ← save_as eng self name _job_id (Some (_partitions other)) true w;
          subtractByKey_rec depth eng t other w
        else
          let '(name, w) := uuid1 w in
          '(o, w) ← save_as eng other name _job_id (Some (_partitions self)) true w;
          union_rec depth eng self o union_default_func w
      else
        let '(func_id, pickled_function, w) :=
          _serialize_and_hash_func
            (_namespace self +:+ "." +:+ _name self +:+ "-"
             +:+ _namespace other +:+ "." +:+ _name other) w in
        let _task_info := TaskInfo _job_id func_id pickled_function in
        '(results, w) ←
          run_tasks (do_subtract_by_key eng) (binary_tasks eng self other _task_info) w;
        result_table eng self results w
  end.

Definition subtractByKey (eng : Standalone) (self other : _DTable) (w : world)
  : result (_DTable * world) :=
  subtractByKey_rec recursion_limit eng self other w.

(** ** Auxiliary definitions of the proofs *)

(** [float(1 << 31)] *)
Definition f31 : spec_float := S754_finite false 4503599627370496 (-21).

(** Floats that are zero, positive or NaN: everything the hasher's loop
    computes. *)
Definition nonneg (f : spec_float) : bool :=
  match f with
  | S754_zero false | S754_infinity false | S754_finite false _ _ | S754_nan => true
  | _ => false
  end.

(** The invariant of the hasher's loop at the test of its condition. *)
Definition loop_inv (n b : Z) (j : spec_float) : Prop :=
  (b = -1 /\ j = S754_zero false) \/
  (0 <= b < n /\ exists m e a,
     j = S754_finite false m e /\ PyFloat.to_int j = Ok a /\ b + 1 <= a).

(** The bytes a table holds for an encoded key, looked up in the
    partition the hasher assigns to it. *)
Definition table_lookup (eng : Standalone) (T : _DTable) (k_bytes : bytes)
    (w : world) : option bytes :=
  match _hash_key_to_partition k_bytes (_partitions T) with
  | Ok p => db_get k_bytes (env_read (_get_env_for_partition eng T p) w)
  | Raise _ => None
  end.

(** The registry key of a table identity, and its encoding. *)
Definition table_key (tier namespace name : string) : string :=
  tier +:+ "." +:+ namespace +:+ "." +:+ name.

Definition tier_of (persistent : bool) : string :=
  if persistent then StoreType.LMDB else StoreType.IN_MEMORY.

Definition registry_lookup (eng : Standalone) (key : string) (w : world) : option bytes :=
  table_lookup eng (meta_table eng) (Pickle.dumps (PyStr key)) w.


(** A world in which nothing was stored yet, and an engine set up in it. *)
Definition w_init : world := World ∅ 0 (fun _ => []) 0 [].

Definition eng0 : Standalone := (Standalone_init "/fate" (Some "job") w_init).1.

(** The world an operation leaves, and the value it returns. *)
Definition world_after {A} (r : result (A * world)) : world :=
  match r with
  | Ok (_, w) => w
  | Raise _ => w_init
  end.

Definition value_of {A} (r : result (A * world)) : result A :=
  '(a, _) ← r; Ok a.





Definition bytes_leb (a b : bytes) : bool :=
  match bytes_compare a b with Gt => false | _ => true end.

(** What a heap entry has still to deliver: its current item and the
    rest of its cursor. *)
Definition stream (e : heap_entry) : db := (e_key e, e_value e) :: e_it e.

Definition heap_entries (h : list heap_entry) : db := concat (stream <$> h).

(** The heap of [_merge] between two yields: increasing current keys,
    every cursor in key order, and no key held twice. *)
Definition heap_inv (h : list heap_entry) : Prop :=
  StronglySorted (fun e e' => bytes_ltb (e_key e) (e_key e') = true) h /\
  Forall (fun e => db_sorted (stream e) = true) h /\
  NoDup (db_keys (heap_entries h)).

(** Every key of a partition store is one the hasher sends there. *)
Definition routed_to (T : _DTable) (p : Z) (d : db) : bool :=
  forallb
    (fun k => match _hash_key_to_partition k (_partitions T) with
              | Ok q => q =? p
              | Raise _ => false
              end)
    (db_keys d).

(** A table as its operations leave it: every partition in key order and
    holding only keys routed to it. *)
Definition wf_table (eng : Standalone) (T : _DTable) (w : world) : bool :=
  forallb
    (fun p => let d := env_read (_get_env_for_partition eng T p) w in
              db_sorted d && routed_to T p d)
    (seqZ 0 (_partitions T)).

(** *** Tasks of an operator

    What a kernel does, seen from the pool: it reads at most two source
    environments and its destination, and commits a new content of the
    destination. *)
Record kernel_view (T : Type) := KernelView {
  kv_src1 : T -> path;
  kv_src2 : T -> path;
  kv_dst : T -> path;
  kv_rtn : T -> _Operand.t;
  kv_body : T -> db -> db -> db -> result db
}.
Arguments KernelView {T} _ _ _ _ _.
Arguments kv_src1 {T} _ _.
Arguments kv_src2 {T} _ _.
Arguments kv_dst {T} _ _.
Arguments kv_rtn {T} _ _.
Arguments kv_body {T} _ _ _ _ _.

Definition kernel_run {T} (V : kernel_view T) (t : T) (w : world) : result db :=
  kv_body V t (env_read (kv_src1 V t) w) (env_read (kv_src2 V t) w)
    (env_read (kv_dst V t) w).

(** No task writes what a later task reads or writes. *)
Fixpoint independent {T} (V : kernel_view T) (tasks : list T) : Prop :=
  match tasks with
  | [] => True
  | t :: tasks' =>
      Forall (fun t' => kv_dst V t <> kv_src1 V t' /\ kv_dst V t <> kv_src2 V t'
                        /\ kv_dst V t <> kv_dst V t') tasks' /\
      independent V tasks'
  end.

(** The destinations of the tasks with what each kernel, run on the
    initial world, puts there. *)
Fixpoint expected {T} (V : kernel_view T) (tasks : list T) (w : world)
  : result (list (path * db)) :=
  match tasks with
  | [] => Ok []
  | t :: tasks' =>
      d ← kernel_run V t w;
      ds ← expected V tasks' w;
      Ok ((kv_dst V t, d) :: ds)
  end.

Definition commit_all (ds : list (path * db)) (w : world) : world :=
  fold_left (fun w '(env, d) => commit_dst env d w) ds w.

(** *** Preconditions of [union] *)

Definition decodable (b : bytes) : bool :=
  match Pickle.loads b with
  | Ok _ => true
  | Raise _ => false
  end.

(** The values of the keys that two partitions share can be decoded. *)
Definition overlap_decodable (left right : db) : bool :=
  forallb
    (fun '(k_bytes, left_v_bytes) =>
       match db_get k_bytes right with
       | Some right_v_bytes => decodable left_v_bytes && decodable right_v_bytes
       | None => true
       end)
    left.

Definition union_ready (eng : Standalone) (L R : _DTable) (w : world) : bool :=
  forallb
    (fun p => overlap_decodable (env_read (_get_env_for_partition eng L p) w)
                                (env_read (_get_env_for_partition eng R p) w))
    (seqZ 0 (_partitions L)).

(** The name the next [uuid1] call returns is not in use: no partition of
    a derived table of that name holds anything in the first [n]
    partitions and the registry does not know it. *)
Definition is_empty (d : db) : bool :=
  match d with [] => true | _ => false end.

Definition fresh_result (eng : Standalone) (n : Z) (w : world) : bool :=
  let fid := (uuid1 w).1 in
  forallb
    (fun p => is_empty (env_read (_get_env eng [StoreType.IN_MEMORY; job_id eng; fid;
                                                str_of_int p]) w))
    (seqZ 0 n)
  && match registry_lookup eng (table_key StoreType.IN_MEMORY (job_id eng) fid) w with
     | None => true
     | Some _ => false
     end.

(** The registry table every engine is set up with. *)
Definition META : _DTable := DTable "__META__" "__META__" "fragments" 10.

(** The kernel [do_union] as the pool sees it. *)
Definition V_union (eng : Standalone)
  : kernel_view (_BinaryProcess.t (pyobj -> pyobj -> result pyobj)) :=
  KernelView
    (fun t => _Operand.as_env eng (_BinaryProcess._left t))
    (fun t => _Operand.as_env eng (_BinaryProcess._right t))
    (fun t => _Operand.as_env eng
                (rtn_operand (_BinaryProcess._info t)
                   (_Operand._partition (_BinaryProcess._left t))))
    (fun t => rtn_operand (_BinaryProcess._info t)
                (_Operand._partition (_BinaryProcess._left t)))
    (fun t l r d => union_db (__get_function (_BinaryProcess._info t)) l r d).


(** What a run of [sample] leaves in the partitions of its result, in
    index order. *)
Definition sample_entries (eng : Standalone) (T : _DTable) (fraction : spec_float)
    (seed : option Z) (w : world) : result (list db) :=
  '(out, w') ← sample eng T fraction seed w;
  Ok ((fun p => env_read (_get_env_for_partition eng out p) w') <$> seqZ 0 (_partitions T)).

Definition valid_seed (s : Z) : bool := (0 <=? s) && (s <? 2 ^ 32).

(** The task of [do_sample] for partition [p] of a table. *)
Definition sample_task (eng : Standalone) (T : _DTable) (fid : string)
    (fraction : spec_float) (seed : option Z) (p : Z)
  : _UnaryProcess.t (spec_float * option Z) :=
  _UnaryProcess.mk (TaskInfo (job_id eng) fid (fraction, seed))
    (_Operand.mk (_type T) (_namespace T) (_name T) p).

(** The kernel [do_sample] with an integer seed, as the pool sees it. *)
Definition V_sample (eng : Standalone) (T : _DTable) (fid : string)
    (fraction : spec_float) (s : Z) : kernel_view Z :=
  KernelView
    (fun p => _get_env_for_partition eng T p)
    (fun p => _get_env_for_partition eng T p)
    (fun p => _get_env eng [StoreType.IN_MEMORY; job_id eng; fid; str_of_int p])
    (fun p => _Operand.mk StoreType.IN_MEMORY (job_id eng) fid p)
    (fun p src _ dst =>
       if valid_seed s then Ok (sample_db fraction (MT19937.init_genrand s) src dst)
       else Raise ValueError).

(** The fraction 1/2, and two worlds that differ in the entropy the
    system hands out. *)
Definition one_half : spec_float := S754_finite false 4503599627370496 (-53).

Definition w_entropy (words : list Z) : world := World ∅ 0 (fun _ => words) 0 [].

(** *** Concrete tables for the examples *)

Definition T_a : _DTable := DTable "LMDB" "ns" "a" 2.

Definition kvs_a : list (pyobj * pyobj) :=
  [(PyStr "k1", PyInt 1); (PyStr "k2", PyInt 2); (PyStr "k3", PyInt 3);
   (PyStr "k4", PyInt 4)].

(** A world whose entropy source changes after the second read, with the
    table [T_a] filled. *)
Definition w_sample : world :=
  world_after
    (put_all eng0 T_a kvs_a true
       (World ∅ 0 (fun n => if (n <? 2)%nat then [] else MT19937.seed_words 624 0 42) 0 [])).

(** Two tables of two partitions and one of one partition, with an
    overlap on the key ["b"]. *)
Definition T_L : _DTable := DTable "LMDB" "ns" "L" 2.
Definition T_R : _DTable := DTable "LMDB" "ns" "R" 1.
Definition T_R2 : _DTable := DTable "LMDB" "ns" "R2" 2.

Definition w_LR : world :=
  let w := world_after
             (put_all eng0 T_L [(PyStr "a", PyInt 1); (PyStr "b", PyInt 2)] true w_init) in
  let w := world_after
             (put_all eng0 T_R [(PyStr "b", PyInt 9); (PyStr "c", PyInt 3)] true w) in
  world_after (put_all eng0 T_R2 [(PyStr "b", PyInt 9); (PyStr "c", PyInt 3)] true w).

(** The decoded entries of the table an operator returns. *)
Definition collected (eng : Standalone) (r : result (_DTable * world))
  : result (list (pyobj * pyobj)) :=
  '(t, w) ← r; iterate (collect eng t true w).

(** A string of 600 characters: its encoding is longer than
    [max_key_size]. *)
Definition long_key : string := string_of_list_ascii (repeat "x"%char 600).

(** ** Further operations of the engine and of a table *)




(** [_DTable._repartition] *)
Definition _repartition (eng : Standalone) (dtable : _DTable) (partition_num : option Z)
    (w : world) : result (_DTable * world) :=
  let '(name, w) := uuid1 w in
  save_as eng dtable name (job_id eng) partition_num true w.

(** *** Kernels of the unary operators *)

(** The loop of [do_map_values] over the source cursor. *)
Definition map_values_step (_mapper : pyobj -> result pyobj) (dst_txn : db)
    (kv : bytes * bytes) : result db :=
  let '(k_bytes, v_bytes) := kv in
  v ← Pickle.loads v_bytes;
  v1 ← _mapper v;
  Ok (db_put k_bytes (Pickle.dumps v1) dst_txn).

Definition do_map_values (eng : Standalone)
    (p : _UnaryProcess.t (pyobj -> result pyobj)) (w : world)
  : result (_Operand.t * world) :=
  let _mapper := __get_function (_UnaryProcess._info p) in
  let op := _UnaryProcess._operand p in
  let rtn := rtn_operand (_UnaryProcess._info p) (_Operand._partition op) in
  let source_txn := env_read (_Operand.as_env eng op) w in
  let dst_env := _Operand.as_env eng rtn in
  let dst_txn := env_read dst_env w in
  dst_txn ← cursor_foldM (map_values_step _mapper) source_txn dst_txn;
  Ok (rtn, commit_dst dst_env dst_txn w).

(** The truth value of an object, as an [if] statement tests it. *)
Definition truthy (o : pyobj) : bool :=
  match o with
  | PyNone => false
  | PyInt n => negb (n =? 0)
  | PyStr s => negb (String.eqb s "")
  | PyBytes b => match b with [] => false | _ => true end
  end.

(** The loop of [do_filter]: the predicate is applied to the key. *)
Definition filter_step (_func : pyobj -> result pyobj) (dst_txn : db)
    (kv : bytes * bytes) : result db :=
  let '(k_bytes, v_bytes) := kv in
  k ← Pickle.loads k_bytes;
  r ← _func k;
  if truthy r then Ok (db_put k_bytes v_bytes dst_txn) else Ok dst_txn.

Definition do_filter (eng : Standalone)
    (p : _UnaryProcess.t (pyobj -> result pyobj)) (w : world)
  : result (_Operand.t * world) :=
  let _func := __get_function (_UnaryProcess._info p) in
  let op := _UnaryProcess._operand p in
  let rtn := rtn_operand (_UnaryProcess._info p) (_Operand._partition op) in
  let source_txn := env_read (_Operand.as_env eng op) w in
  let dst_env := _Operand.as_env eng rtn in
  let dst_txn := env_read dst_env w in
  dst_txn ← cursor_foldM (filter_step _func) source_txn dst_txn;
  Ok (rtn, commit_dst dst_env dst_txn w).

(** [_generator_from_cursor]: the successive yields; the generator ends
    with the first one that raises. *)
Fixpoint _generator_from_cursor (cursor : db) : list (result (pyobj * pyobj)) :=
  match cursor with
  | [] => []
  | (k, v) :: cursor' =>
      match (k ← Pickle.loads k; v ← Pickle.loads v; Ok (k, v)) with
      | Ok kv => Ok kv :: _generator_from_cursor cursor'
      | Raise e => [Raise e]
      end
  end.

(** [do_map_partitions]: the mapper is handed the generator and its
    result is stored under the last key of the partition. *)
Definition do_map_partitions (eng : Standalone)
    (p : _UnaryProcess.t (list (result (pyobj * pyobj)) -> result pyobj)) (w : world)
  : result (_Operand.t * world) :=
  let _mapper := __get_function (_UnaryProcess._info p) in
  let op := _UnaryProcess._operand p in
  let rtn := rtn_operand (_UnaryProcess._info p) (_Operand._partition op) in
  let source_txn := env_read (_Operand.as_env eng op) w in
  let dst_env := _Operand.as_env eng rtn in
  let dst_txn := env_read dst_env w in
  v ← _mapper (_generator_from_cursor source_txn);
  let dst_txn :=
    match last source_txn with
    | Some (k_bytes, _) => db_put k_bytes (Pickle.dumps v) dst_txn
    | None => dst_txn
    end in
  Ok (rtn, commit_dst dst_env dst_txn w).

(** The loop of [do_reduce]: [value] is [None] until the first entry. *)
Definition reduce_step (_reducer : pyobj -> pyobj -> result pyobj) (value : pyobj)
    (kv : bytes * bytes) : result pyobj :=
  let '(k_bytes, v_bytes) := kv in
  v ← Pickle.loads v_bytes;
  match value with
  | PyNone => Ok v
  | _ => _reducer value v
  end.

(** [do_reduce] writes nothing and returns the value. *)
Definition do_reduce (eng : Standalone)
    (p : _UnaryProcess.t (pyobj -> pyobj -> result pyobj)) (w : world) : result pyobj :=
  let _reducer := __get_function (_UnaryProcess._info p) in
  let op := _UnaryProcess._operand p in
  let source_txn := env_read (_Operand.as_env eng op) w in
  cursor_foldM (reduce_step _reducer) source_txn PyNone.

(** The loop of [do_map]: the image of an entry goes to the partition the
    hasher assigns to its new key. *)
Definition map_step (_mapper : pyobj -> pyobj -> result (pyobj * pyobj)) (partitions : Z)
    (txn_map : list txn) (kv : bytes * bytes) : result (list txn) :=
  let '(k_bytes, v_bytes) := kv in
  k ← Pickle.loads k_bytes;
  v ← Pickle.loads v_bytes;
  '(k1, v1) ← _mapper k v;
  let k1_bytes := Pickle.dumps k1 in
  let v1_bytes := Pickle.dumps v1 in
  p ← _hash_key_to_partition k1_bytes partitions;
  dest_txn ← txn_map_get txn_map p;
  if key_ok k1_bytes then
    Ok (<[Z.to_nat p := Txn (txn_env dest_txn) (db_put k1_bytes v1_bytes (txn_db dest_txn))]>
          txn_map)
  else Raise BadValsizeError.

(** [do_map]: the partition count is read from the registry under the
    identity of the operand, one write transaction is opened on every
    partition of the result, and all of them are committed at the end. *)
Definition do_map (eng : Standalone)
    (p : _UnaryProcess.t (pyobj -> pyobj -> result (pyobj * pyobj))) (w : world)
  : result (_Operand.t * world) :=
  let _mapper := __get_function (_UnaryProcess._info p) in
  let op := _UnaryProcess._operand p in
  let rtn := rtn_operand (_UnaryProcess._info p) (_Operand._partition op) in
  let source_env := _Operand.as_env eng op in
  let _table_key :=
    str_join "." [_Operand._type op; _Operand._namespace op; _Operand._name op] in
  '(partitions, w) ← get eng (meta_table eng) (PyStr _table_key) true w;
  partitions ← as_int partitions;
  let txn_map :=
    (fun p =>
       let env := _get_env eng [_Operand._type rtn; _Operand._namespace rtn;
                                _Operand._name rtn; str_of_int p] in
       Txn env (env_read env w))
      <$> seqZ 0 partitions in
  let source_txn := env_read source_env w in
  txn_map ← cursor_foldM (map_step _mapper partitions) source_txn txn_map;
  Ok (rtn, fold_left (fun w t => commit_dst (txn_env t) (txn_db t) w) txn_map w).

(** *** Kernel of [join] *)

Definition join_step (_joiner : pyobj -> pyobj -> result pyobj) (right_txn : db)
    (dest_txn : db) (kv : bytes * bytes) : result db :=
  let '(k_bytes, v1_bytes) := kv in
  match db_get k_bytes right_txn with
  | None => Ok dest_txn
  | Some v2_bytes =>
      v1 ← Pickle.loads v1_bytes;
      v2 ← Pickle.loads v2_bytes;
      v3 ← _joiner v1 v2;
      Ok (db_put k_bytes (Pickle.dumps v3) dest_txn)
  end.

Definition do_join (eng : Standalone)
    (p : _BinaryProcess.t (pyobj -> pyobj -> result pyobj)) (w : world)
  : result (_Operand.t * world) :=
  let _joiner := __get_function (_BinaryProcess._info p) in
  let left_op := _BinaryProcess._left p in
  let right_op := _BinaryProcess._right p in
  let rtn := rtn_operand (_BinaryProcess._info p) (_Operand._partition left_op) in
  let right_txn := env_read (_Operand.as_env eng right_op) w in
  let left_txn := env_read (_Operand.as_env eng left_op) w in
  let dst_env := _Operand.as_env eng rtn in
  let dest_txn := env_read dst_env w in
  dest_txn ← cursor_foldM (join_step _joiner right_txn) left_txn dest_txn;
  Ok (rtn, commit_dst dst_env dest_txn w).

(** *** Further operators of a table *)

Definition mapValues (eng : Standalone) (self : _DTable) (func : pyobj -> result pyobj)
    (w : world) : result (_DTable * world) :=
  '(results, w) ← _submit_to_pool eng self func (do_map_values eng) w;
  result_table eng self results w.

Definition mapPartitions (eng : Standalone) (self : _DTable)
    (func : list (result (pyobj * pyobj)) -> result pyobj) (w : world)
  : result (_DTable * world) :=
  '(results, w) ← _submit_to_pool eng self func (do_map_partitions eng) w;
  result_table eng self results w.

(** The futures of a kernel that returns a value: [r.result()] for each
    of them, in the order of submission. *)
Fixpoint run_value_tasks {T R} (_do_func : T -> world -> result R)
    (tasks : list T) (w : world) : result (list R) :=
  match tasks with
  | [] => Ok []
  | t :: tasks' =>
      r ← _do_func t w;
      rs ← run_value_tasks _do_func tasks' w;
      Ok (r :: rs)
  end.

(** [_submit_to_pool] followed by the collection of the values. *)
Definition _submit_to_pool_values {F R} (eng : Standalone) (self : _DTable) (func : F)
    (_do_func : _UnaryProcess.t F -> world -> result R) (w : world)
  : result (list R * world) :=
  let '(func_id, pickled_function, w) := _serialize_and_hash_func func w in
  let _task_info := TaskInfo (job_id eng) func_id pickled_function in
  rs ← run_value_tasks _do_func
         ((fun p => _UnaryProcess.mk _task_info
                      (_Operand.mk (_type self) (_namespace self) (_name self) p))
            <$> seqZ 0 (_partitions self)) w;
  Ok (rs, w).

Definition is_not_None (o : pyobj) : bool :=
  match o with
  | PyNone => false
  | _ => true
  end.

(** [for r in rs[1:]: rtn = func(rtn, r)] *)
Fixpoint reduce_loop (func : pyobj -> pyobj -> result pyobj) (rtn : pyobj)
    (rs : list pyobj) : result pyobj :=
  match rs with
  | [] => Ok rtn
  | r :: rs' => rtn ← func rtn r; reduce_loop func rtn rs'
  end.

Definition reduce (eng : Standalone) (self : _DTable)
    (func : pyobj -> pyobj -> result pyobj) (w : world) : result (pyobj * world) :=
  '(rs, w) ← _submit_to_pool_values eng self func (do_reduce eng) w;
  let rs := List.filter is_not_None rs in
  match rs with
  | [] => Ok (PyNone, w)
  | rtn :: rs' => rtn ← reduce_loop func rtn rs'; Ok (rtn, w)
  end.

Fixpoint join_rec (depth : nat) (eng : Standalone) (self other : _DTable)
    (func : pyobj -> pyobj -> result pyobj) (w : world) {struct depth}
  : result (_DTable * world) :=
  match depth with
  | O => Raise RecursionError
  | S depth =>
      let _job_id := job_id eng in
      if bool_decide (_partitions other ≠ _partitions self) then
        if count eng self w <? count eng other w then
          let '(name, w) := uuid1 w in
          '(t, w) ← save_as eng self name _job_id (Some (_partitions other)) true w;
          join_rec depth eng t other func w
        else
          let '(name, w) := uuid1 w in
          '(o, w) ← save_as eng other name _job_id (Some (_partitions self)) true w;
          join_rec depth eng self o func w
      else
        let '(func_id, pickled_function, w) := _serialize_and_hash_func func w in
        let _task_info := TaskInfo _job_id func_id pickled_function in
        '(results, w) ← run_tasks (do_join eng) (binary_tasks eng self other _task_info) w;
        result_table eng self results w
  end.

Definition join (eng : Standalone) (self other : _DTable)
    (func : pyobj -> pyobj -> result pyobj) (w : world) : result (_DTable * world) :=
  join_rec recursion_limit eng self other func w.

Definition filter (eng : Standalone) (self : _DTable) (func : pyobj -> result pyobj)
    (w : world) : result (_DTable * world) :=
  '(results, w) ← _submit_to_pool eng self func (do_filter eng) w;
  result_table eng self results w.

Definition map (eng : Standalone) (self : _DTable)
    (func : pyobj -> pyobj -> result (pyobj * pyobj)) (w : world)
  : result (_DTable * world) :=
  '(results, w) ← _submit_to_pool eng self func (do_map eng) w;
  result_table eng self results w.

(** ** Auxiliary definitions of the further proofs *)

(** The effect on a table of replacing the content of partition [p]. *)
Definition updated (eng : Standalone) (T : _DTable) (p : Z) (d' : db) (w w1 : world) : Prop :=
  forall env, env_read env w1 =
    if decide (_get_env_for_partition eng T p = env) then d' else env_read env w.






(** A table nothing was stored in and the registry does not know. *)
Definition fresh_table (eng : Standalone) (T : _DTable) (w : world) : bool :=
  forallb (fun p => is_empty (env_read (_get_env_for_partition eng T p) w))
    (seqZ 0 (_partitions T))
  && match registry_lookup eng (table_key (_type T) (_namespace T) (_name T)) w with
     | None => true
     | Some _ => false
     end.







(** *** Kernels as the pool sees them *)

(** A kernel of a unary operator: it reads the partition of its operand
    and fills the partition of the same index of the result. *)
Definition V_unary {F} (eng : Standalone) (body : F -> db -> db -> result db)
  : kernel_view (_UnaryProcess.t F) :=
  KernelView
    (fun t => _Operand.as_env eng (_UnaryProcess._operand t))
    (fun t => _Operand.as_env eng (_UnaryProcess._operand t))
    (fun t => _Operand.as_env eng
                (rtn_operand (_UnaryProcess._info t)
                   (_Operand._partition (_UnaryProcess._operand t))))
    (fun t => rtn_operand (_UnaryProcess._info t)
                (_Operand._partition (_UnaryProcess._operand t)))
    (fun t src _ dst => body (__get_function (_UnaryProcess._info t)) src dst).

(** A kernel of a binary operator. *)
Definition V_binary {F} (eng : Standalone) (body : F -> db -> db -> db -> result db)
  : kernel_view (_BinaryProcess.t F) :=
  KernelView
    (fun t => _Operand.as_env eng (_BinaryProcess._left t))
    (fun t => _Operand.as_env eng (_BinaryProcess._right t))
    (fun t => _Operand.as_env eng
                (rtn_operand (_BinaryProcess._info t)
                   (_Operand._partition (_BinaryProcess._left t))))
    (fun t => rtn_operand (_BinaryProcess._info t)
                (_Operand._partition (_BinaryProcess._left t)))
    (fun t l r d => body (__get_function (_BinaryProcess._info t)) l r d).

(** A step of a kernel loop that decides from the entry alone what is
    stored under its key, if anything. *)
Definition entry_step (h : bytes -> bytes -> result (option bytes)) (dst : db)
    (kv : bytes * bytes) : result db :=
  o ← h kv.1 kv.2;
  Ok (match o with
      | Some vb => db_put kv.1 vb dst
      | None => dst
      end).

(** The steps of the kernels in that form. *)
Definition map_values_entry (f : pyobj -> result pyobj) (kb vb : bytes)
  : result (option bytes) :=
  v ← Pickle.loads vb; v1 ← f v; Ok (Some (Pickle.dumps v1)).

Definition filter_entry (f : pyobj -> result pyobj) (kb vb : bytes)
  : result (option bytes) :=
  k ← Pickle.loads kb; r ← f k; Ok (if truthy r then Some vb else None).

Definition join_entry (f : pyobj -> pyobj -> result pyobj) (right : db) (kb vb : bytes)
  : result (option bytes) :=
  match db_get kb right with
  | None => Ok None
  | Some v2_bytes =>
      v1 ← Pickle.loads vb; v2 ← Pickle.loads v2_bytes; v3 ← f v1 v2;
      Ok (Some (Pickle.dumps v3))
  end.

Definition subtract_entry (right : db) (kb vb : bytes) : result (option bytes) :=
  Ok (match db_get kb right with
      | None => Some vb
      | Some _ => None
      end).

Definition union_entry (f : pyobj -> pyobj -> result pyobj) (right : db) (kb vb : bytes)
  : result (option bytes) :=
  match db_get kb right with
  | None => Ok (Some vb)
  | Some right_v_bytes =>
      left_v ← Pickle.loads vb; right_v ← Pickle.loads right_v_bytes;
      final_v ← f left_v right_v;
      Ok (Some (Pickle.dumps final_v))
  end.

(** No entry of the partitions of a table makes the step [h p] of the
    kernel of partition [p] raise. *)
Definition entries_ok (h : bytes -> bytes -> result (option bytes)) (d : db) : bool :=
  forallb (fun kv => match h kv.1 kv.2 with
                     | Ok _ => true
                     | Raise _ => false
                     end) d.

Definition kernels_ok (eng : Standalone) (T : _DTable)
    (h : Z -> bytes -> bytes -> result (option bytes)) (w : world) : bool :=
  forallb (fun p => entries_ok (h p) (env_read (_get_env_for_partition eng T p) w))
    (seqZ 0 (_partitions T)).

(** The entries of a partition for which the step [h] stores something. *)
Definition kept (h : bytes -> bytes -> result (option bytes)) (d : db) : db :=
  List.filter (fun kv => match h kv.1 kv.2 with
                         | Ok (Some _) => true
                         | _ => false
                         end) d.

(** *** Functions for the examples *)

(** [lambda v: v + 1] *)
Definition py_succ (v : pyobj) : result pyobj :=
  match v with
  | PyInt n => Ok (PyInt (n + 1))
  | _ => Raise TypeError
  end.

(** [lambda k: k == "a"] *)
Definition py_is_a (k : pyobj) : result pyobj :=
  match k with
  | PyStr s => Ok (PyInt (if String.eqb s "a" then 1 else 0))
  | _ => Ok (PyInt 0)
  end.

(** [lambda x, y: x + y] on integers *)
Definition py_add (x y : pyobj) : result pyobj :=
  match x, y with
  | PyInt a, PyInt b => Ok (PyInt (a + b))
  | _, _ => Raise TypeError
  end.

(** The fold of a binary operation over a sequence of values, [None] for
    the empty sequence. *)
Definition reduce_values (op : pyobj -> pyobj -> pyobj) (vs : list pyobj) : pyobj :=
  match vs with
  | [] => PyNone
  | v :: vs' => fold_left op vs' v
  end.

(** The decoded values of the entries of a partition, in key order. *)
Definition decode_values (d : db) : result (list pyobj) :=
  iterate ((fun kv => Pickle.loads kv.2) <$> d).

(** The decoded values of a table, partition after partition. *)
Definition table_values (eng : Standalone) (T : _DTable) (w : world) : result (list pyobj) :=
  decode_values (concat (collect_cursors eng T w)).

(** The integer an object stands for in a sum, and the sum as an
    operation on objects. *)
Definition py_val (o : pyobj) : Z :=
  match o with
  | PyInt n => n
  | _ => 0
  end.

Definition py_plus (x y : pyobj) : pyobj := PyInt (py_val x + py_val y).

(** The mapper of [mapPartitions] returns on the generator of every
    partition. *)
Definition mapper_ok (eng : Standalone) (T : _DTable)
    (f : list (result (pyobj * pyobj)) -> result pyobj) (w : world) : bool :=
  forallb
    (fun p => match f (_generator_from_cursor (env_read (_get_env_for_partition eng T p) w)) with
              | Ok _ => true
              | Raise _ => false
              end)
    (seqZ 0 (_partitions T)).

(** What [do_map_partitions] leaves in the partition of the result. *)
Definition map_partitions_db (f : list (result (pyobj * pyobj)) -> result pyobj)
    (src : db) : db :=
  match last src, f (_generator_from_cursor src) with
  | Some (k_bytes, _), Ok v => [(k_bytes, Pickle.dumps v)]
  | _, _ => []
  end.

(** The number of decoded pairs a generator yields. *)
Definition py_len (it : list (result (pyobj * pyobj))) : result pyobj :=
  l ← iterate it; Ok (PyInt (Z.of_nat (length l))).

(** A float that is at least 1.0: plus infinity, or a positive float in
    normal form whose exponent is at least -52. *)
Definition float_ge_one (f : spec_float) : bool :=
  match f with
  | S754_infinity false => true
  | S754_finite false m e => (2 ^ 52 <=? Z.pos m) && (-52 <=? e)
  | _ => false
  end.

(** The kernel [do_sample] for a seed that is given, as the pool sees
    it. *)
Definition sample_body (arg : spec_float * option Z) (src dst : db) : result db :=
  match arg.2 with
  | Some s =>
      if valid_seed s then Ok (sample_db arg.1 (MT19937.init_genrand s) src dst)
      else Raise ValueError
  | None => Raise ValueError
  end.

(** The words of a generator state are 32-bit words. *)
Definition word32 (x : Z) : Prop := 0 <= x /\ Z.log2 x < 32.

Definition state_ok (s : MT19937.state) : Prop := Forall word32 (MT19937.key s).

(** A float in [0, 1) as [rand] builds it. *)
Definition unit_float (u : spec_float) : Prop :=
  u = S754_zero false \/ exists m e, u = S754_finite false m e /\ e <= -53.

(** * Proofs *)

(** ** The partition hasher *)

Lemma digits2_pos_size p : digits2_pos p = Pos.size p.
Proof. induction p; simpl; congruence. Qed.

Lemma Zdigits2_log2 z : 0 < z -> Zdigits2 z = Z.log2 z + 1.
Proof.
  destruct z as [|p|p]; try lia. intros _. simpl.
  rewrite digits2_pos_size. destruct p; simpl; lia.
Qed.

Lemma Zdigits2_bounds z : 0 < z -> 2 ^ (Zdigits2 z - 1) <= z < 2 ^ Zdigits2 z.
Proof.
  intros H. rewrite Zdigits2_log2 by done.
  replace (Z.log2 z + 1 - 1) with (Z.log2 z) by lia.
  replace (Z.log2 z + 1) with (Z.succ (Z.log2 z)) by lia.
  apply Z.log2_spec. done.
Qed.

Lemma Zdigits2_unique z d : 0 < z -> 2 ^ (d - 1) <= z < 2 ^ d -> Zdigits2 z = d.
Proof.
  intros H [H1 H2]. rewrite Zdigits2_log2 by done.
  assert (0 < d). { destruct (Z.lt_ge_cases 0 d); [done|]. 
    assert (2 ^ d <= 2 ^ 0) by (apply Z.pow_le_mono_r; lia). simpl in *. lia. }
  assert (Z.log2 z = d - 1); [|lia].
  apply Z.log2_unique; [lia|]. replace (Z.succ (d - 1)) with d by lia. done.
Qed.

Lemma shr_1_m mrs : 0 <= shr_m mrs -> shr_m (shr_1 mrs) = shr_m mrs / 2.
Proof.
  destruct mrs as [m r s]. simpl. intros H.
  destruct m as [|p|p]; try lia; [done|].
  destruct p; simpl.
  - rewrite Pos2Z.inj_xI. apply Z.div_unique with 1; lia.
  - rewrite Pos2Z.inj_xO. apply Z.div_unique with 0; lia.
  - done.
Qed.

Lemma iter_pos_shr_1_m p mrs :
  0 <= shr_m mrs -> shr_m (SpecFloat.iter_pos shr_1 p mrs) = shr_m mrs / 2 ^ Z.pos p.
Proof.
  revert mrs. induction p; intros mrs H; simpl SpecFloat.iter_pos.
  - assert (H1 : 0 <= shr_m (shr_1 mrs)).
    { rewrite shr_1_m by done. apply Z.div_pos; lia. }
    assert (H2 : 0 <= shr_m (SpecFloat.iter_pos shr_1 p (shr_1 mrs))).
    { rewrite IHp by done. apply Z.div_pos; lia. }
    rewrite IHp by done. rewrite IHp by done. rewrite shr_1_m by done.
    rewrite !Z.div_div by lia. f_equal.
    replace (Z.pos p~1) with (1 + Z.pos p + Z.pos p) by lia.
    rewrite !Z.pow_add_r by lia. change (2 ^ 1) with 2. ring.
  - assert (H2 : 0 <= shr_m (SpecFloat.iter_pos shr_1 p mrs)).
    { rewrite IHp by done. apply Z.div_pos; lia. }
    rewrite IHp by done. rewrite IHp by done.
    rewrite !Z.div_div by lia. f_equal.
    replace (Z.pos p~0) with (Z.pos p + Z.pos p) by lia.
    rewrite !Z.pow_add_r by lia. ring.
  - rewrite shr_1_m by done. done.
Qed.

Lemma loc_of_record_of_loc m l : loc_of_shr_record (shr_record_of_loc m l) = l.
Proof. destruct l as [|[]]; done. Qed.

Lemma shr_m_record_of_loc m l : shr_m (shr_record_of_loc m l) = m.
Proof. destruct l as [|[]]; done. Qed.

Lemma round_nearest_even_bounds m l :
  m <= round_nearest_even m l <= m + 1.
Proof. destruct l as [|[]]; simpl; try lia. destruct (Z.even m); lia. Qed.

Lemma fexp_eq e : fexp 53 1024 e = Z.max (e - 53) (-1074).
Proof. reflexivity. Qed.

(** First half of [binary_round_aux]: the mantissa truncated to 53 digits. *)
Lemma shr_fexp_trunc m e l :
  0 < m -> -1021 <= Zdigits2 m + e ->
  let n := Z.max 0 (Zdigits2 m - 53) in
  exists mrs, shr_fexp 53 1024 m e l = (mrs, e + n) /\
    shr_m mrs = m / 2 ^ n /\
    (Zdigits2 m <= 53 -> loc_of_shr_record mrs = l).
Proof.
  intros Hm Hn n. unfold shr_fexp, shr. rewrite fexp_eq.
  destruct (Z.max (Zdigits2 m + e - 53) (-1074) - e) as [|p|p] eqn:E.
  - exists (shr_record_of_loc m l). assert (n = 0) as -> by lia.
    rewrite Z.add_0_r, Z.div_1_r, shr_m_record_of_loc, loc_of_record_of_loc. done.
  - exists (SpecFloat.iter_pos shr_1 p (shr_record_of_loc m l)).
    assert (n = Z.pos p) as -> by lia.
    rewrite iter_pos_shr_1_m by (rewrite shr_m_record_of_loc; lia).
    rewrite shr_m_record_of_loc. split; [done|]. split; [done|]. lia.
  - exists (shr_record_of_loc m l). assert (n = 0) as -> by lia.
    rewrite Z.add_0_r, Z.div_1_r, shr_m_record_of_loc, loc_of_record_of_loc. done.
Qed.

Lemma trunc_bounds m :
  0 < m ->
  let n := Z.max 0 (Zdigits2 m - 53) in
  0 < m / 2 ^ n < 2 ^ 53 /\ (53 <= Zdigits2 m -> 2 ^ 52 <= m / 2 ^ n).
Proof.
  intros Hm n. pose proof (Zdigits2_bounds m Hm) as [Hlo Hhi].
  set (d := Zdigits2 m) in *.
  destruct (Z.le_gt_cases d 53) as [Hd|Hd].
  - assert (n = 0) as -> by lia. rewrite Z.div_1_r.
    assert (2 ^ d <= 2 ^ 53) by (apply Z.pow_le_mono_r; lia).
    split; [lia|]. intros. assert (d = 53) as Hd' by lia. rewrite Hd' in Hlo. exact Hlo.
  - assert (n = d - 53) as -> by lia.
    assert (Hp : 0 < 2 ^ (d - 53)) by (apply Z.pow_pos_nonneg; lia).
    assert (H1 : 2 ^ (d - 1) = 2 ^ 52 * 2 ^ (d - 53)).
    { rewrite <- Z.pow_add_r by lia. f_equal. lia. }
    assert (H2 : 2 ^ d = 2 ^ 53 * 2 ^ (d - 53)).
    { rewrite <- Z.pow_add_r by lia. f_equal. lia. }
    assert (2 ^ 52 <= m / 2 ^ (d - 53)).
    { apply Z.div_le_lower_bound; lia. }
    assert (m / 2 ^ (d - 53) < 2 ^ 53).
    { apply Z.div_lt_upper_bound; lia. }
    lia.
Qed.

Lemma bra_lower mx ex lx :
  0 < mx -> -1021 <= Zdigits2 mx + ex ->
  ex + Z.max 0 (Zdigits2 mx - 53) <= 970 ->
  exists m e, binary_round_aux 53 1024 false mx ex lx = S754_finite false m e /\
    (e = ex + Z.max 0 (Zdigits2 mx - 53) \/ e = ex + Z.max 0 (Zdigits2 mx - 53) + 1) /\
    mx / 2 ^ Z.max 0 (Zdigits2 mx - 53)
      <= Z.pos m * 2 ^ (e - ex - Z.max 0 (Zdigits2 mx - 53)) /\
    (53 <= Zdigits2 mx -> 2 ^ 52 <= Z.pos m) /\ Z.pos m < 2 ^ 53.
Proof.
  intros Hm Hn Ho. unfold binary_round_aux.
  destruct (shr_fexp_trunc mx ex lx Hm Hn) as (mrs & -> & Hmrs & _).
  pose proof (trunc_bounds mx Hm) as [Hb1 Hb2].
  set (n := Z.max 0 (Zdigits2 mx - 53)) in *.
  pose proof (round_nearest_even_bounds (shr_m mrs) (loc_of_shr_record mrs)) as Hr.
  set (m1 := round_nearest_even (shr_m mrs) (loc_of_shr_record mrs)) in *.
  rewrite Hmrs in Hr.
  assert (Hm1 : 0 < m1) by lia.
  pose proof (Zdigits2_bounds m1 Hm1) as Hd1.
  assert (He' : -1074 <= ex + n) by lia.
  destruct (Z.lt_ge_cases m1 (2 ^ 53)) as [Hlt|Hge].
  - (* no carry out of the rounding *)
    assert (Hd : Zdigits2 m1 <= 53).
    { destruct (Z.le_gt_cases (Zdigits2 m1) 53); [done|].
      assert (2 ^ 53 <= 2 ^ (Zdigits2 m1 - 1)) by (apply Z.pow_le_mono_r; lia). lia. }
    unfold shr_fexp, shr. rewrite fexp_eq.
    destruct (Z.max (Zdigits2 m1 + (ex + n) - 53) (-1074) - (ex + n)) as [|p|p] eqn:E;
      try lia; rewrite shr_m_record_of_loc.
    + destruct m1 as [|q|q]; try lia.
      destruct (Z.leb_spec (ex + n) (1024 - 53)); [|lia].
      exists q, (ex + n). split; [done|]. split; [lia|].
      replace (ex + n - ex - n) with 0 by lia. rewrite Z.pow_0_r. lia.
    + destruct m1 as [|q|q]; try lia.
      destruct (Z.leb_spec (ex + n) (1024 - 53)); [|lia].
      exists q, (ex + n). split; [done|]. split; [lia|].
      replace (ex + n - ex - n) with 0 by lia. rewrite Z.pow_0_r. lia.
  - (* the rounding carried to 2^53 *)
    assert (Hm1' : m1 = 2 ^ 53) by lia.
    assert (Hd : Zdigits2 m1 = 54) by (rewrite Hm1'; reflexivity).
    unfold shr_fexp, shr. rewrite fexp_eq, Hd.
    replace (Z.max (54 + (ex + n) - 53) (-1074) - (ex + n)) with 1 by lia.
    rewrite Hm1'. simpl SpecFloat.iter_pos. simpl shr_m.
    destruct (Z.leb_spec (ex + n + 1) (1024 - 53)); [|lia].
    eexists _, (ex + n + 1). split; [reflexivity|]. split; [lia|].
    replace (ex + n + 1 - ex - n) with 1 by lia. split; [|split]; [|done|done].
    change (Z.pos 4503599627370496 * 2 ^ 1) with (2 ^ 53). lia.
Qed.

Lemma pos_iter_xO m d : Z.pos (Pos.iter xO m d) = Z.pos m * 2 ^ Z.pos d.
Proof.
  induction d using Pos.peano_ind.
  - simpl. lia.
  - rewrite Pos.iter_succ, Pos2Z.inj_succ, Z.pow_succ_r by lia.
    rewrite Pos2Z.inj_xO, IHd. ring.
Qed.

(** A 53-digit mantissa with an exact location is returned as it is. *)
Lemma bra_exact m e :
  Zdigits2 (Z.pos m) = 53 -> -1074 <= e <= 971 ->
  binary_round_aux 53 1024 false (Z.pos m) e loc_Exact = S754_finite false m e.
Proof.
  intros Hd He. unfold binary_round_aux, shr_fexp, shr. rewrite fexp_eq, Hd.
  replace (Z.max (53 + e - 53) (-1074) - e) with 0 by lia. simpl.
  rewrite fexp_eq. change (Z.pos (digits2_pos m)) with (Zdigits2 (Z.pos m)). rewrite Hd.
  replace (Z.max (53 + e - 53) (-1074) - e) with 0 by lia. simpl.
  destruct (Z.leb_spec e (1024 - 53)); [done|lia].
Qed.

(** [float(x)] is exact for a positive [int] below 2^53. *)
Lemma of_int_exact x :
  1 <= x < 2 ^ 53 ->
  exists m e, PyFloat.of_int x = Ok (S754_finite false m e) /\
    -52 <= e <= 0 /\ Z.pos m = x * 2 ^ (- e) /\ 2 ^ 52 <= Z.pos m < 2 ^ 53.
Proof.
  intros Hx. destruct x as [|p|p]; try lia.
  pose proof (Zdigits2_bounds (Z.pos p) ltac:(lia)) as Hd.
  set (d := Zdigits2 (Z.pos p)) in *.
  assert (Hd1 : 1 <= d <= 53).
  { split.
    - destruct (Z.le_gt_cases 1 d); [done|].
      assert (2 ^ d <= 2 ^ 0) by (apply Z.pow_le_mono_r; lia). simpl in *; lia.
    - destruct (Z.le_gt_cases d 53); [done|].
      assert (2 ^ 53 <= 2 ^ (d - 1)) by (apply Z.pow_le_mono_r; lia). lia. }
  unfold PyFloat.of_int, binary_normalize, binary_round, shl_align.
  rewrite fexp_eq. change (Z.pos (digits2_pos p)) with d.
  replace (Z.max (d + 0 - 53) (-1074) - 0) with (d - 53) by lia.
  destruct (d - 53) as [|q|q] eqn:E; try lia.
  - assert (d = 53) as Hd53 by lia.
    unfold PyFloat.prec, PyFloat.emax. rewrite bra_exact by (fold d; lia).
    exists p, 0. rewrite Hd53 in Hd. split; [done|]. simpl. lia.
  - replace (Z.max (d + 0 - 53) (-1074)) with (d - 53) by lia.
    assert (Hq : Z.pos q = 53 - d) by lia.
    assert (Hpow : 2 ^ 52 = 2 ^ (d - 1) * 2 ^ Z.pos q /\ 2 ^ 53 = 2 ^ d * 2 ^ Z.pos q).
    { rewrite <- !Z.pow_add_r by lia. split; f_equal; lia. }
    assert (Hpos : 0 < 2 ^ Z.pos q) by (apply Z.pow_pos_nonneg; lia).
    assert (Hm : 2 ^ 52 <= Z.pos (Pos.iter xO p q) < 2 ^ 53).
    { rewrite pos_iter_xO. nia. }
    unfold PyFloat.prec, PyFloat.emax. rewrite bra_exact.
    + exists (Pos.iter xO p q), (d - 53). split; [done|]. split; [lia|].
      split; [|done]. rewrite pos_iter_xO. do 2 f_equal. lia.
    + apply Zdigits2_unique; [lia|]. exact Hm.
    + lia.
Qed.

Lemma pow2_split a b : 0 <= a -> 0 <= b -> 2 ^ (a + b) = 2 ^ a * 2 ^ b.
Proof. intros. apply Z.pow_add_r; lia. Qed.

Lemma pow2_pos a : 0 <= a -> 0 < 2 ^ a.
Proof. intros. apply Z.pow_pos_nonneg; lia. Qed.

Lemma div_eucl_eq a b : Z.div_eucl a b = (a / b, a mod b).
Proof. unfold Z.div, Z.modulo. destruct (Z.div_eucl a b); done. Qed.


Lemma of_int_2_31 : PyFloat.of_int (Z.shiftl 1 31) = Ok f31.
Proof. reflexivity. Qed.

(** [float(1 << 31) / float(x)] is at least 1 for [1 <= x <= 2^31]. *)
Lemma div_ge_one x :
  1 <= x <= 2 ^ 31 ->
  exists fk m e, PyFloat.of_int x = Ok fk /\
    PyFloat.div f31 fk = Ok (S754_finite false m e) /\
    2 ^ 52 <= Z.pos m < 2 ^ 53 /\ -53 <= e < 0 /\ 2 ^ (- e) <= Z.pos m.
Proof.
  intros Hx.
  destruct (of_int_exact x) as (m2 & e2 & Hfk & He2 & Hm2 & Hm2b); [lia|].
  exists (S754_finite false m2 e2). rewrite Hfk.
  set (k := - e2) in *.
  assert (Hk : 21 <= k <= 52).
  { split; [|lia]. destruct (Z.le_gt_cases 21 k); [done|].
    assert (2 ^ k <= 2 ^ 20) by (apply Z.pow_le_mono_r; lia).
    pose proof (pow2_pos k ltac:(lia)). nia. }
  assert (Hd2 : Zdigits2 (Z.pos m2) = 53) by (apply Zdigits2_unique; [lia|exact Hm2b]).
  unfold PyFloat.div, f31. simpl PyFloat.is_zero. cbv iota.
  unfold SFdiv, SFdiv_core_binary, PyFloat.prec, PyFloat.emax.
  rewrite Hd2. change (Zdigits2 4503599627370496) with 53.
  rewrite fexp_eq.
  replace (Z.min (Z.max (53 + -21 - (53 + e2) - 53) (-1074)) (-21 - e2)) with (k - 74) by lia.
  replace (-21 - e2 - (k - 74)) with 53 by lia.
  change (Z.shiftl 4503599627370496 53) with (2 ^ 105).
  rewrite div_eucl_eq. simpl xorb.
  set (q := 2 ^ 105 / Z.pos m2).
  set (A := 2 ^ (74 - k)).
  assert (HA : 2 ^ k * A = 2 ^ 74).
  { unfold A. rewrite <- pow2_split by lia. f_equal. lia. }
  assert (HqA : A <= q).
  { apply Z.div_le_lower_bound; [lia|]. rewrite Hm2.
    replace (x * 2 ^ k * A) with (x * (2 ^ k * A)) by ring. rewrite HA.
    change (2 ^ 105) with (2 ^ 31 * 2 ^ 74). apply Z.mul_le_mono_nonneg_r; lia. }
  assert (Hq : 2 ^ 52 <= q <= 2 ^ 53).
  { split.
    - apply Z.div_le_lower_bound; [lia|].
      change (2 ^ 105) with (2 ^ 53 * 2 ^ 52). nia.
    - apply Z.div_le_upper_bound; [lia|].
      change (2 ^ 105) with (2 ^ 52 * 2 ^ 53). nia. }
  assert (Hdq : Zdigits2 q = 53 \/ Zdigits2 q = 54).
  { destruct (Z.lt_ge_cases q (2 ^ 53)).
    - left. apply Zdigits2_unique; lia.
    - right. apply Zdigits2_unique; [lia|]. change (2 ^ (54 - 1)) with (2 ^ 53).
      change (2 ^ 54) with (2 * 2 ^ 53). lia. }
  destruct (bra_lower q (k - 74) (new_location (Z.pos m2) (2 ^ 105 mod Z.pos m2)))
    as (m & e & -> & He & Hlow & Hnorm & Hlt); [lia|lia|lia|].
  exists m, e. split; [done|]. split; [done|].
  set (n := Z.max 0 (Zdigits2 q - 53)) in *.
  assert (Hn : n = 0 \/ n = 1) by lia.
  split; [lia|]. split; [lia|].
  set (dl := e - (k - 74) - n) in *.
  assert (Hdl : dl = 0 \/ dl = 1) by lia.
  assert (Hsplit : A = 2 ^ n * (2 ^ dl * 2 ^ (- e))).
  { unfold A. rewrite <- !pow2_split by lia. f_equal. lia. }
  assert (Hqn : 2 ^ dl * 2 ^ (- e) <= q / 2 ^ n).
  { apply Z.div_le_lower_bound; [apply pow2_pos; lia|]. rewrite <- Hsplit. done. }
  pose proof (pow2_pos dl ltac:(lia)). pose proof (pow2_pos (- e) ltac:(lia)).
  nia.
Qed.

(** The product of an exact [float(c)] with a float that is at least 1
    truncates to an integer that is at least [c]. *)
Lemma mul_ge c ma ea mr er :
  1 <= c < 2 ^ 53 -> -52 <= ea <= 0 -> Z.pos ma = c * 2 ^ (- ea) ->
  2 ^ 52 <= Z.pos ma < 2 ^ 53 ->
  2 ^ 52 <= Z.pos mr < 2 ^ 53 -> -53 <= er < 0 -> 2 ^ (- er) <= Z.pos mr ->
  exists m e a,
    PyFloat.mul (S754_finite false ma ea) (S754_finite false mr er)
      = S754_finite false m e /\
    PyFloat.to_int (S754_finite false m e) = Ok a /\ c <= a.
Proof.
  intros Hc Hea Hma Hmab Hmrb Her Hmr.
  unfold PyFloat.mul, SFmul, PyFloat.prec, PyFloat.emax. simpl xorb.
  rewrite Pos2Z.inj_mul.
  set (mx := Z.pos ma * Z.pos mr).
  assert (Hmx : 2 ^ 104 <= mx < 2 ^ 106).
  { unfold mx. change (2 ^ 104) with (2 ^ 52 * 2 ^ 52).
    change (2 ^ 106) with (2 ^ 53 * 2 ^ 53). nia. }
  assert (Hd : Zdigits2 mx = 105 \/ Zdigits2 mx = 106).
  { destruct (Z.lt_ge_cases mx (2 ^ 105)).
    - left. apply Zdigits2_unique; [lia|]. change (2 ^ (105 - 1)) with (2 ^ 104). lia.
    - right. apply Zdigits2_unique; [lia|]. change (2 ^ (106 - 1)) with (2 ^ 105). lia. }
  destruct (bra_lower mx (ea + er) loc_Exact)
    as (m & e & -> & He & Hlow & Hnorm & Hlt); [lia|lia|lia|].
  set (n := Z.max 0 (Zdigits2 mx - 53)) in *.
  assert (Hn : n = 52 \/ n = 53) by lia.
  set (dl := e - (ea + er) - n) in *.
  assert (Hdl : dl = 0 \/ dl = 1) by lia.
  exists m, e. unfold PyFloat.to_int.
  destruct (Z.leb_spec 0 e) as [Hpos|Hneg].
  - eexists. split; [done|]. split; [done|].
    destruct (Z.eq_dec e 0) as [->|Hne].
    + (* e = 0 *)
      rewrite Z.pow_0_r, Z.mul_1_r.
      assert (Hsplit : 2 ^ (- ea) * 2 ^ (- er) = 2 ^ dl * 2 ^ n).
      { rewrite <- !pow2_split by lia. f_equal. lia. }
      assert (Hq : c * 2 ^ dl <= mx / 2 ^ n).
      { apply Z.div_le_lower_bound; [apply pow2_pos; lia|].
        replace (2 ^ n * (c * 2 ^ dl)) with (c * (2 ^ dl * 2 ^ n)) by ring.
        rewrite <- Hsplit. unfold mx. rewrite Hma.
        pose proof (pow2_pos (- ea) ltac:(lia)). nia. }
      pose proof (pow2_pos dl ltac:(lia)). nia.
    + assert (2 ^ 1 <= 2 ^ e) by (apply Z.pow_le_mono_r; lia).
      change (2 ^ 1) with 2 in *. change (2 ^ 53) with (2 ^ 52 * 2) in Hc. nia.
  - eexists. split; [done|]. split; [done|].
    assert (Hsplit : 2 ^ (- ea) * 2 ^ (- er) = 2 ^ (- e) * 2 ^ dl * 2 ^ n).
    { rewrite <- !pow2_split by lia. f_equal. lia. }
    assert (Hq : c * 2 ^ (- e) * 2 ^ dl <= mx / 2 ^ n).
    { apply Z.div_le_lower_bound; [apply pow2_pos; lia|].
      replace (2 ^ n * (c * 2 ^ (- e) * 2 ^ dl)) with (c * (2 ^ (- e) * 2 ^ dl * 2 ^ n)) by ring.
      rewrite <- Hsplit. unfold mx. rewrite Hma.
      pose proof (pow2_pos (- ea) ltac:(lia)). nia. }
    pose proof (pow2_pos dl ltac:(lia)). pose proof (pow2_pos (- e) ltac:(lia)).
    apply Z.div_le_lower_bound; [done|]. nia.
Qed.

Lemma lt_int_to_int m e n a :
  PyFloat.lt_int (S754_finite false m e) n = true ->
  PyFloat.to_int (S754_finite false m e) = Ok a -> 0 <= a < n.
Proof.
  unfold PyFloat.lt_int, PyFloat.to_int. intros Hlt [= <-].
  destruct (Z.leb_spec 0 e).
  - apply Z.ltb_lt in Hlt. pose proof (pow2_pos e ltac:(lia)). nia.
  - apply Z.ltb_lt in Hlt. pose proof (pow2_pos (- e) ltac:(lia)).
    split; [apply Z.div_pos; lia|]. apply Z.div_lt_upper_bound; lia.
Qed.

Lemma bra_nonneg mx ex lx : nonneg (binary_round_aux 53 1024 false mx ex lx) = true.
Proof.
  unfold binary_round_aux.
  destruct (shr_fexp 53 1024 mx ex lx) as [mrs' e'].
  destruct (shr_fexp 53 1024 _ e' loc_Exact) as [mrs'' e''].
  destruct (shr_m mrs''); [done| |done].
  destruct (e'' <=? 1024 - 53); done.
Qed.

Lemma of_int_nonneg n f : 0 <= n -> PyFloat.of_int n = Ok f -> nonneg f = true.
Proof.
  intros Hn. unfold PyFloat.of_int, binary_normalize.
  destruct n as [|p|p]; try lia.
  - intros [= <-]. done.
  - unfold binary_round. destruct (shl_align _ _ _) as [mz ez].
    pose proof (bra_nonneg (Z.pos mz) ez loc_Exact) as H.
    unfold PyFloat.prec, PyFloat.emax.
    destruct (binary_round_aux 53 1024 false (Z.pos mz) ez loc_Exact);
      intros [= <-]; done.
Qed.

Lemma mul_nonneg x y : nonneg x = true -> nonneg y = true -> nonneg (PyFloat.mul x y) = true.
Proof.
  destruct x as [sx|sx| |sx mx ex], y as [sy|sy| |sy my ey];
    try (destruct sx); try (destruct sy); simpl; try discriminate; try reflexivity.
  intros _ _. apply bra_nonneg.
Qed.

Lemma div_nonneg x y f :
  nonneg x = true -> nonneg y = true -> PyFloat.div x y = Ok f -> nonneg f = true.
Proof.
  unfold PyFloat.div.
  destruct x as [sx|sx| |sx mx ex], y as [sy|sy| |sy my ey];
    try (destruct sx); try (destruct sy); simpl; try discriminate;
    try (intros _ _ [= <-]; reflexivity).
  intros _ _ [= <-]. unfold PyFloat.prec, PyFloat.emax.
  destruct (SFdiv_core_binary _ _ _ _ _ _) as [[mz ez] lz]. apply bra_nonneg.
Qed.

Lemma nonneg_lt_int j n a :
  nonneg j = true -> PyFloat.lt_int j n = true -> PyFloat.to_int j = Ok a ->
  0 <= a < n.
Proof.
  destruct j as [[]|[]| |[] m e]; try done.
  - simpl. intros _ H [= <-]. apply Z.ltb_lt in H. lia.
  - intros _. apply lt_int_to_int.
Qed.

Lemma land_mask64 a : Z.land a 0xffffffffffffffff = a mod 2 ^ 64.
Proof. change 0xffffffffffffffff with (Z.ones 64). apply Z.land_ones. lia. Qed.

Lemma jump_denominator k : 1 <= Z.shiftr (Z.land k 0xffffffffffffffff) 33 + 1 <= 2 ^ 31.
Proof.
  rewrite land_mask64, Z.shiftr_div_pow2 by lia.
  pose proof (Z.mod_pos_bound k (2 ^ 64) ltac:(lia)) as Hk.
  assert (0 <= (k mod 2 ^ 64) / 2 ^ 33) by (apply Z.div_pos; lia).
  assert ((k mod 2 ^ 64) / 2 ^ 33 < 2 ^ 31).
  { apply Z.div_lt_upper_bound; [lia|]. change (2 ^ 33 * 2 ^ 31) with (2 ^ 64). lia. }
  lia.
Qed.

Lemma bind_Ok {A B} (a : A) (k : A -> result B) : (Ok a ≫= k) = k a.
Proof. reflexivity. Qed.

Lemma bind_Raise {A B} e (k : A -> result B) : (Raise e ≫= k) = Raise e.
Proof. reflexivity. Qed.

Lemma bind_inv {A B} (r : result A) (k : A -> result B) b :
  (r ≫= k) = Ok b -> exists a, r = Ok a /\ k a = Ok b.
Proof. destruct r as [a|e]; [eauto|discriminate]. Qed.

Lemma jump_step_nonneg j _key b k' j' :
  jump_step j _key = Ok (b, k', j') ->
  PyFloat.to_int j = Ok b /\ (0 <= b -> nonneg j' = true).
Proof.
  intros H. unfold jump_step in H.
  apply bind_inv in H as (b0 & Hb0 & H).
  apply bind_inv in H as (fb & Hfb & H).
  apply bind_inv in H as (f31' & Hf31 & H).
  apply bind_inv in H as (fk & Hfk & H).
  apply bind_inv in H as (q & Hq & H).
  injection H as <- <- <-. split; [done|]. intros Hb.
  apply mul_nonneg.
  - eapply of_int_nonneg; [|exact Hfb]. lia.
  - eapply div_nonneg; [| |exact Hq].
    + eapply of_int_nonneg; [|exact Hf31]. done.
    + eapply of_int_nonneg; [|exact Hfk]. pose proof (jump_denominator (_key * 2862933555777941757 + 1)). lia.
Qed.

Lemma jump_step_ok j _key b :
  PyFloat.to_int j = Ok b -> 0 <= b -> b + 1 < 2 ^ 53 ->
  exists k' m e a,
    jump_step j _key = Ok (b, k', S754_finite false m e) /\
    PyFloat.to_int (S754_finite false m e) = Ok a /\ b + 1 <= a.
Proof.
  intros Hb Hb0 Hb1. unfold jump_step. rewrite Hb, bind_Ok.
  destruct (of_int_exact (b + 1)) as (ma & ea & -> & Hea & Hma & Hmab); [lia|].
  rewrite bind_Ok, of_int_2_31, bind_Ok.
  destruct (div_ge_one _ (jump_denominator (_key * 2862933555777941757 + 1)))
    as (fk & mr & er & Hfk & Hdiv & Hmrb & Her & Hmr).
  rewrite Hfk, bind_Ok, Hdiv, bind_Ok.
  destruct (mul_ge (b + 1) ma ea mr er) as (m & e & a & -> & Ha & Hle); try done; try lia.
  eauto 10.
Qed.

Lemma jump_loop_total fuel n b j _key :
  1 <= n < 2 ^ 53 -> loop_inv n b j -> n - b <= Z.of_nat fuel ->
  exists r, jump_loop fuel n b j _key = Ok r /\ 0 <= r < n.
Proof.
  intros Hn. revert b j _key. induction fuel as [|fuel IH]; intros b j _key Hinv Hfuel.
  - destruct Hinv as [[-> _]|[Hb _]]; lia.
  - cbn [jump_loop]. destruct (PyFloat.lt_int j n) eqn:Hlt.
    + destruct Hinv as [[-> ->]|[Hb (m & e & a & -> & Ha & Hle)]].
      * destruct (jump_step_ok (S754_zero false) _key 0) as (k' & m & e & a & -> & Ha & Hle);
          [done|lia|lia|].
        rewrite bind_Ok. apply IH; [|lia].
        right. split; [lia|]. eauto 10.
      * pose proof (lt_int_to_int _ _ _ _ Hlt Ha) as Hrange.
        destruct (jump_step_ok (S754_finite false m e) _key a) as (k' & m' & e' & a' & -> & Ha' & Hle');
          [done|lia|lia|].
        rewrite bind_Ok. apply IH; [|lia].
        right. split; [lia|]. eauto 10.
    + destruct Hinv as [[-> ->]|[Hb _]].
      * simpl in Hlt. apply Z.ltb_ge in Hlt. lia.
      * eauto.
Qed.

(** Whatever the partition count, an index that is returned is in range. *)
Lemma jump_loop_range fuel n b j _key r :
  1 <= n -> nonneg j = true -> (b = -1 /\ j = S754_zero false) \/ 0 <= b < n ->
  jump_loop fuel n b j _key = Ok r -> 0 <= r < n.
Proof.
  intros Hn. revert b j _key. induction fuel as [|fuel IH]; intros b j _key Hj Hinv H; [done|].
  cbn [jump_loop] in H. destruct (PyFloat.lt_int j n) eqn:Hlt.
  - apply bind_inv in H as ([[b' k'] j'] & Hstep & H).
    apply jump_step_nonneg in Hstep as [Hb' Hj'].
    pose proof (nonneg_lt_int _ _ _ Hj Hlt Hb') as Hrange.
    eapply IH; [|right; exact Hrange|exact H]. apply Hj'. lia.
  - injection H as <-. destruct Hinv as [[-> ->]|Hb]; [|done].
    simpl in Hlt. apply Z.ltb_ge in Hlt. lia.
Qed.

Lemma hash_total key n :
  1 <= n < 2 ^ 53 -> exists p, _hash_key_to_partition key n = Ok p /\ 0 <= p < n.
Proof.
  intros Hn. unfold _hash_key_to_partition.
  destruct (Z.ltb_spec n 1); [lia|].
  apply jump_loop_total; [done|left; done|lia].
Qed.

Lemma hash_range key n p : _hash_key_to_partition key n = Ok p -> 0 <= p < n.
Proof.
  unfold _hash_key_to_partition. destruct (Z.ltb_spec n 1); [done|].
  apply jump_loop_range; [lia|done|left; done].
Qed.

Lemma hash_invalid key n : n < 1 -> _hash_key_to_partition key n = Raise ValueError.
Proof. intros Hn. unfold _hash_key_to_partition. destruct (Z.ltb_spec n 1); [done|lia]. Qed.

(** C3: the hasher raises the invalid-argument error for a partition
    count below 1; an index it returns lies in [0, N); and for every
    count from 1 up to 2^53 (where the conversion of the bucket to a float
    is exact) it does return one.  The index is a function of the key
    bytes and the count alone. *)
Theorem hash_partition_in_range key n :
  (n < 1 -> _hash_key_to_partition key n = Raise ValueError) /\
  (forall p, _hash_key_to_partition key n = Ok p -> 0 <= p < n) /\
  (1 <= n < 2 ^ 53 -> exists p, _hash_key_to_partition key n = Ok p /\ 0 <= p < n).
Proof.
  split; [apply hash_invalid|]. split; [apply hash_range|apply hash_total].
Qed.

Lemma hash_partition_in_range_witness :
  (0 < 1 -> _hash_key_to_partition (b_ "abc") 0 = Raise ValueError) /\
  (forall p, _hash_key_to_partition (b_ "abc") 10 = Ok p -> 0 <= p < 10) /\
  (1 <= 10 < 2 ^ 53 -> exists p, _hash_key_to_partition (b_ "abc") 10 = Ok p /\ 0 <= p < 10).
Proof.
  split; [apply (hash_partition_in_range (b_ "abc") 0)|].
  split; [apply (hash_partition_in_range (b_ "abc") 10)|].
  apply (hash_partition_in_range (b_ "abc") 10).
Defined.

Example hash_abc_10 : _hash_key_to_partition (b_ "abc") 10 = Ok 8.
Proof. vm_compute. reflexivity. Qed.

(** ** Byte strings and their order *)

Lemma byte_to_Z_inj x y : byte_to_Z x = byte_to_Z y -> x = y.
Proof.
  unfold byte_to_Z. intros H. apply N2Z.inj in H.
  pose proof (Byte.of_to_N x) as Hx. rewrite H, Byte.of_to_N in Hx. congruence.
Qed.

Lemma bytes_compare_refl a : bytes_compare a a = Eq.
Proof. induction a as [|x a IH]; simpl; [done|]. by rewrite Z.compare_refl. Qed.

Lemma bytes_compare_eq a b : bytes_compare a b = Eq -> a = b.
Proof.
  revert b. induction a as [|x a IH]; intros [|y b]; simpl; try done.
  destruct (byte_to_Z x ?= byte_to_Z y) eqn:E; try done.
  apply Z.compare_eq in E. apply byte_to_Z_inj in E as ->.
  intros H. f_equal. by apply IH.
Qed.

Lemma bytes_eqb_eq a b : bytes_eqb a b = true <-> a = b.
Proof.
  unfold bytes_eqb. split.
  - destruct (bytes_compare a b) eqn:E; try done. intros _. by apply bytes_compare_eq.
  - intros ->. by rewrite bytes_compare_refl.
Qed.

Lemma bytes_eqb_refl a : bytes_eqb a a = true.
Proof. by apply bytes_eqb_eq. Qed.

Lemma bytes_eqb_neq a b : a <> b -> bytes_eqb a b = false.
Proof.
  intros H. destruct (bytes_eqb a b) eqn:E; [|done]. by apply bytes_eqb_eq in E.
Qed.

Lemma bytes_compare_antisym a b : bytes_compare b a = CompOpp (bytes_compare a b).
Proof.
  revert b. induction a as [|x a IH]; intros [|y b]; simpl; try done.
  rewrite (Z.compare_antisym (byte_to_Z x) (byte_to_Z y)).
  destruct (byte_to_Z x ?= byte_to_Z y); simpl; auto.
Qed.

Lemma bytes_compare_trans a b c :
  bytes_compare a b = Lt -> bytes_compare b c = Lt -> bytes_compare a c = Lt.
Proof.
  revert b c. induction a as [|x a IH]; intros [|y b] [|z c]; simpl; try done.
  destruct (byte_to_Z x ?= byte_to_Z y) eqn:E1;
    destruct (byte_to_Z y ?= byte_to_Z z) eqn:E2; try done.
  - apply Z.compare_eq in E1, E2. rewrite E1, E2, Z.compare_refl. apply IH.
  - apply Z.compare_eq in E1. rewrite E1, E2. done.
  - apply Z.compare_eq in E2. rewrite <- E2, E1. done.
  - intros _ _. assert ((byte_to_Z x ?= byte_to_Z z) = Lt) as ->; [|done].
    rewrite Z.compare_lt_iff in *. lia.
Qed.

Lemma bytes_ltb_trans a b c :
  bytes_ltb a b = true -> bytes_ltb b c = true -> bytes_ltb a c = true.
Proof.
  unfold bytes_ltb. intros H1 H2.
  destruct (bytes_compare a b) eqn:E1; try done.
  destruct (bytes_compare b c) eqn:E2; try done.
  by rewrite (bytes_compare_trans a b c).
Qed.

Lemma bytes_ltb_irrefl a : bytes_ltb a a = false.
Proof. unfold bytes_ltb. by rewrite bytes_compare_refl. Qed.

(** ** Partition stores *)

Lemma db_get_put_eq k v d : db_get k (db_put k v d) = Some v.
Proof.
  induction d as [|[k' v'] d IH]; simpl.
  - by rewrite bytes_eqb_refl.
  - destruct (bytes_compare k k') eqn:E; simpl.
    + by rewrite bytes_eqb_refl.
    + by rewrite bytes_eqb_refl.
    + unfold bytes_eqb. rewrite E. done.
Qed.

Lemma db_get_put_ne k k' v d : k <> k' -> db_get k' (db_put k v d) = db_get k' d.
Proof.
  intros Hne. induction d as [|[k0 v0] d IH]; simpl.
  - rewrite bytes_eqb_neq by done. done.
  - destruct (bytes_compare k k0) eqn:E; simpl.
    + apply bytes_compare_eq in E as <-. rewrite !(bytes_eqb_neq k' k) by done. done.
    + rewrite (bytes_eqb_neq k' k) by done. done.
    + destruct (bytes_eqb k' k0); [done|]. apply IH.
Qed.

Lemma db_get_Some_In k v d : db_get k d = Some v -> In (k, v) d.
Proof.
  induction d as [|[k' v'] d IH]; simpl; [done|].
  destruct (bytes_eqb k k') eqn:E.
  - apply bytes_eqb_eq in E as ->. intros [= ->]. by left.
  - intros H. right. by apply IH.
Qed.

Lemma db_get_None_keys k d : db_get k d = None <-> ~ In k (db_keys d).
Proof.
  induction d as [|[k' v'] d IH]; simpl; [tauto|].
  destruct (bytes_eqb k k') eqn:E.
  - apply bytes_eqb_eq in E as ->. split; [done|]. intros H. destruct H. by left.
  - rewrite IH. split.
    + intros H [->|H']; [by rewrite bytes_eqb_refl in E|done].
    + tauto.
Qed.

(** ** Serialization *)

Lemma str_of_int_of_str n : int_of_str (str_of_int n) = Some n.
Proof.
  unfold int_of_str, str_of_int. rewrite NilZero.isi.
  - simpl. by rewrite DecimalZ.of_to.
  - destruct n; simpl; try done. intros [= H]. by apply Unsigned.to_uint_nonnil in H.
  - destruct n; simpl; try done. intros [= H]. by apply Unsigned.to_uint_nonnil in H.
Qed.

Lemma str_of_int_inj n m : str_of_int n = str_of_int m -> n = m.
Proof.
  intros H. apply (f_equal int_of_str) in H. rewrite !str_of_int_of_str in H. congruence.
Qed.

Lemma b__inj s t : b_ s = b_ t -> s = t.
Proof.
  unfold b_. intros H. apply (f_equal string_of_list_byte) in H.
  by rewrite !string_of_list_byte_of_string in H.
Qed.

Lemma loads_dumps o : Pickle.loads (Pickle.dumps o) = Ok o.
Proof.
  destruct o as [|n|s|b]; simpl; try done.
  - unfold b_. rewrite string_of_list_byte_of_string, str_of_int_of_str. done.
  - unfold b_. by rewrite string_of_list_byte_of_string.
Qed.

Lemma dumps_inj o o' : Pickle.dumps o = Pickle.dumps o' -> o = o'.
Proof.
  intros H. apply (f_equal Pickle.loads) in H. rewrite !loads_dumps in H. congruence.
Qed.

(** ** Environments and transactions *)

Lemma env_read_log env e w : env_read env (log e w) = env_read env w.
Proof. done. Qed.

Lemma store_log e w : store (log e w) = store w.
Proof. done. Qed.

Lemma env_read_commit env t w :
  env_read env (txn_commit t w) = if decide (txn_env t = env) then txn_db t else env_read env w.
Proof.
  unfold txn_commit, env_read. simpl. rewrite lookup_insert. by case_decide.
Qed.

Lemma env_read_commit_dst env dst d w :
  env_read env (commit_dst dst d w) = if decide (dst = env) then d else env_read env w.
Proof.
  unfold commit_dst, env_read. simpl. rewrite lookup_insert. by case_decide.
Qed.

Lemma partition_env_inj eng T p q :
  _get_env_for_partition eng T p = _get_env_for_partition eng T q -> p = q.
Proof.
  unfold _get_env_for_partition, _get_env, _get_db_path. intros [= H].
  by apply str_of_int_inj.
Qed.

(** ** Point operations *)

Lemma put_spec eng T k v w p :
  _hash_key_to_partition (Pickle.dumps k) (_partitions T) = Ok p ->
  key_ok (Pickle.dumps k) = true ->
  exists w1, put eng T k v true w = Ok (true, w1) /\
    forall env, env_read env w1 =
      if decide (_get_env_for_partition eng T p = env)
      then db_put (Pickle.dumps k) (Pickle.dumps v) (env_read (_get_env_for_partition eng T p) w)
      else env_read env w.
Proof.
  intros Hp Hk. unfold put. simpl kv_to_bytes. rewrite bind_Ok. cbv beta iota.
  rewrite Hp, bind_Ok. unfold with_write_txn, txn_begin, txn_put. rewrite Hk.
  unfold txn_store. rewrite bind_Ok. eexists. split; [reflexivity|].
  intros env. rewrite env_read_commit. simpl. done.
Qed.

Lemma put_raises eng T k v w p :
  _hash_key_to_partition (Pickle.dumps k) (_partitions T) = Ok p ->
  key_ok (Pickle.dumps k) = false ->
  put eng T k v true w = Raise BadValsizeError.
Proof.
  intros Hp Hk. unfold put. simpl kv_to_bytes. rewrite bind_Ok. cbv beta iota.
  rewrite Hp, bind_Ok. unfold with_write_txn, txn_begin, txn_put. by rewrite Hk.
Qed.

Lemma get_spec eng T k w p :
  _hash_key_to_partition (Pickle.dumps k) (_partitions T) = Ok p ->
  get eng T k true w =
    match db_get (Pickle.dumps k) (env_read (_get_env_for_partition eng T p) w) with
    | None =>
        Ok (PyNone, txn_commit (Txn (_get_env_for_partition eng T p)
                                  (env_read (_get_env_for_partition eng T p) w))
                      (log (EvBegin (_get_env_for_partition eng T p)) w))
    | Some b =>
        o ← Pickle.loads b;
        Ok (o, txn_commit (Txn (_get_env_for_partition eng T p)
                             (env_read (_get_env_for_partition eng T p) w))
                 (log (EvBegin (_get_env_for_partition eng T p)) w))
    end.
Proof.
  intros Hp. unfold get. simpl kv_to_bytes1. rewrite bind_Ok, Hp, bind_Ok.
  unfold with_write_txn, txn_begin, txn_get. simpl txn_db.
  destruct (db_get _ _) as [b|]; [|done].
  simpl from_bytes. destruct (Pickle.loads b); done.
Qed.

(** C7 (amended): on a table whose partition count is positive (and
    below 2^53), [put(k, v)] with a key whose encoding is at most 511
    bytes long returns [True], and [get(k)] on the same table then
    returns [v]; with a key whose encoding is longer, [put] raises
    [BadValsizeError]. *)
Theorem put_then_get eng T k v w :
  1 <= _partitions T < 2 ^ 53 ->
  if key_ok (Pickle.dumps k) then
    exists w1 w2,
      put eng T k v true w = Ok (true, w1) /\ get eng T k true w1 = Ok (v, w2)
  else put eng T k v true w = Raise BadValsizeError.
Proof.
  intros HN. destruct (hash_total (Pickle.dumps k) (_partitions T) HN) as (p & Hp & _).
  destruct (key_ok (Pickle.dumps k)) eqn:Hk; [|by apply (put_raises eng T k v w p)].
  destruct (put_spec eng T k v w p Hp Hk) as (w1 & Hput & Hread).
  exists w1. rewrite (get_spec eng T k w1 p Hp), Hread.
  rewrite decide_True by done. rewrite db_get_put_eq, loads_dumps, bind_Ok. eauto.
Qed.

Lemma put_then_get_witness :
  exists w1 w2,
    put eng0 (DTable "LMDB" "ns" "a" 4) (PyStr "k1") (PyInt 10) true w_init = Ok (true, w1) /\
    get eng0 (DTable "LMDB" "ns" "a" 4) (PyStr "k1") true w1 = Ok (PyInt 10, w2).
Proof.
  apply (put_then_get eng0 (DTable "LMDB" "ns" "a" 4) (PyStr "k1") (PyInt 10) w_init).
  simpl. lia.
Defined.

(** The claim as stated covers every key: the store refuses a key whose
    encoding is longer than 511 bytes, so [put] of a string of 600
    characters raises, and [get] of that key returns [None]. *)
Lemma put_then_get_counterexample :
  put eng0 (DTable "LMDB" "ns" "a" 4) (PyStr long_key) (PyInt 1) true w_init
  = Raise BadValsizeError /\
  value_of (get eng0 (DTable "LMDB" "ns" "a" 4) (PyStr long_key) true w_init) = Ok PyNone.
Proof. vm_compute. done. Qed.

(** ** The table factory and the meta registry *)

Lemma put_if_absent_spec eng T k v w p :
  _hash_key_to_partition (Pickle.dumps k) (_partitions T) = Ok p ->
  let env := _get_env_for_partition eng T p in
  exists w1,
    put_if_absent eng T k v true w =
      match db_get (Pickle.dumps k) (env_read env w) with
      | None => Ok (PyNone, w1)
      | Some old => o ← Pickle.loads old; Ok (o, w1)
      end /\
    forall env', env_read env' w1 =
      if decide (env = env') then
        match db_get (Pickle.dumps k) (env_read env w) with
        | None => db_put (Pickle.dumps k) (Pickle.dumps v) (env_read env w)
        | Some _ => env_read env w
        end
      else env_read env' w.
Proof.
  intros Hp env. unfold put_if_absent. simpl kv_to_bytes1. rewrite bind_Ok, Hp, bind_Ok.
  fold env. unfold with_write_txn, txn_begin, txn_get. simpl txn_db.
  destruct (db_get (Pickle.dumps k) (env_read env w)) as [old|] eqn:E.
  - eexists. split.
    + simpl from_bytes. destruct (Pickle.loads old); simpl; reflexivity.
    + intros env'. rewrite env_read_commit. simpl. case_decide; [by subst|done].
  - eexists. split.
    + rewrite bind_Ok. unfold txn_store. rewrite bind_Ok. reflexivity.
    + intros env'. rewrite env_read_commit. simpl. done.
Qed.

Lemma get_env_read eng T k w o w1 :
  get eng T k true w = Ok (o, w1) -> forall env, env_read env w1 = env_read env w.
Proof.
  unfold get. simpl kv_to_bytes1. rewrite bind_Ok.
  destruct (_hash_key_to_partition _ _) as [p|]; [|done]. rewrite bind_Ok.
  unfold with_write_txn, txn_begin, txn_get. simpl txn_db.
  intros H env.
  assert (w1 = txn_commit (Txn (_get_env_for_partition eng T p)
                             (env_read (_get_env_for_partition eng T p) w))
                 (log (EvBegin (_get_env_for_partition eng T p)) w)) as ->.
  { destruct (db_get _ _) as [b|]; simpl in H.
    - destruct (Pickle.loads b); simpl in H; [|done]. by injection H as <- <-.
    - by injection H as <- <-. }
  rewrite env_read_commit. simpl. case_decide; [by subst|done].
Qed.

Lemma hash_meta eng kb :
  _partitions (meta_table eng) = 10 ->
  exists p, _hash_key_to_partition kb (_partitions (meta_table eng)) = Ok p.
Proof.
  intros ->. destruct (hash_total kb 10) as (p & Hp & _); [lia|]. eauto.
Qed.

Lemma table_lookup_ne eng T k kb v w w1 p :
  _hash_key_to_partition (Pickle.dumps k) (_partitions T) = Ok p ->
  (forall env', env_read env' w1 =
      if decide (_get_env_for_partition eng T p = env') then
        match db_get (Pickle.dumps k) (env_read (_get_env_for_partition eng T p) w) with
        | None => db_put (Pickle.dumps k) v (env_read (_get_env_for_partition eng T p) w)
        | Some _ => env_read (_get_env_for_partition eng T p) w
        end
      else env_read env' w) ->
  kb <> Pickle.dumps k ->
  table_lookup eng T kb w1 = table_lookup eng T kb w.
Proof.
  intros Hp Hread Hne. unfold table_lookup.
  destruct (_hash_key_to_partition kb (_partitions T)) as [q|] eqn:Eq; [|done].
  rewrite Hread. case_decide as Hq; [|done].
  apply partition_env_inj in Hq as <-.
  destruct (db_get (Pickle.dumps k) _); [done|]. by rewrite db_get_put_ne.
Qed.

(** One call of the factory: what it returns and what it leaves in the
    registry. *)
Lemma table_spec eng name namespace partition persistent w :
  _partitions (meta_table eng) = 10 ->
  let key := table_key (tier_of persistent) namespace name in
  match registry_lookup eng key w with
  | None =>
      exists w1,
        table eng name namespace partition persistent w =
          Ok (DTable (tier_of persistent) namespace name partition, w1) /\
        registry_lookup eng key w1 = Some (Pickle.dumps (PyInt partition)) /\
        forall key', key' <> key -> registry_lookup eng key' w1 = registry_lookup eng key' w
  | Some old =>
      exists w1,
        table eng name namespace partition persistent w =
          (o ← Pickle.loads old; n ← as_int o;
           Ok (DTable (tier_of persistent) namespace name n, w1)) /\
        forall key', registry_lookup eng key' w1 = registry_lookup eng key' w
  end.
Proof.
  intros Hmeta key.
  destruct (hash_meta eng (Pickle.dumps (PyStr key)) Hmeta) as [p Hp].
  unfold registry_lookup at 1, table_lookup. rewrite Hp.
  unfold table. change (str_join "." [_; namespace; name]) with key.
  destruct (put_if_absent_spec eng (meta_table eng) (PyStr key) (PyInt partition) w p Hp)
    as (w1 & Hpia & Hread).
  set (env := _get_env_for_partition eng (meta_table eng) p) in *.
  rewrite Hpia. destruct (db_get (Pickle.dumps (PyStr key)) (env_read env w)) as [old|] eqn:E.
  - exists (txn_commit (Txn env (env_read env w)) (log (EvBegin env) w1)). split.
    + destruct (Pickle.loads old) as [o|] eqn:Eo; [|done]. rewrite !bind_Ok.
      rewrite (get_spec eng (meta_table eng) (PyStr key) w1 p Hp). fold env.
      rewrite Hread, decide_True by done. rewrite E, Eo, bind_Ok. done.
    + intros key'. unfold registry_lookup, table_lookup.
      destruct (_hash_key_to_partition (Pickle.dumps (PyStr key')) _) as [q|]; [|done].
      rewrite env_read_commit. simpl. case_decide as Hq.
      * by rewrite <- Hq.
      * rewrite env_read_log, Hread. by rewrite decide_False.
  - rewrite bind_Ok.
    rewrite (get_spec eng (meta_table eng) (PyStr key) w1 p Hp). fold env.
    rewrite Hread, decide_True by done. rewrite db_get_put_eq, loads_dumps, !bind_Ok.
    eexists. split; [reflexivity|].
    assert (Hread2 : forall env', env_read env'
              (txn_commit (Txn env (db_put (Pickle.dumps (PyStr key))
                                      (Pickle.dumps (PyInt partition)) (env_read env w)))
                 (log (EvBegin env) w1)) = env_read env' w1).
    { intros env'. rewrite env_read_commit. simpl. case_decide as Hq; [|done].
      subst env'. rewrite Hread, decide_True by done. done. }
    split.
    + unfold registry_lookup, table_lookup. rewrite Hp. fold env.
      rewrite Hread2, Hread, decide_True by done. apply db_get_put_eq.
    + intros key' Hne. unfold registry_lookup, table_lookup.
      destruct (_hash_key_to_partition (Pickle.dumps (PyStr key')) _) as [q|] eqn:Eq'; [|done].
      rewrite Hread2, Hread. case_decide as Hq; [|done].
      apply partition_env_inj in Hq as <-. fold env.
      rewrite db_get_put_ne; [done|]. intros Heq. apply dumps_inj in Heq. congruence.
Qed.





(** C2 (amended): the registry is the table of type and namespace
    ["__META__"], name ["fragments"] and 10 partitions, and a table
    created by the factory is recorded under the key
    ["{tier}.{namespace}.{name}"] with its partition count. *)
Theorem meta_registry base job w0 name ns N persistent w T w1 :
  let eng := (Standalone_init base job w0).1 in
  table eng name ns N persistent w = Ok (T, w1) ->
  meta_table eng = DTable "__META__" "__META__" "fragments" 10 /\
  exists v,
    registry_lookup eng (tier_of persistent +:+ "." +:+ ns +:+ "." +:+ name) w1 = Some v /\
    Pickle.loads v = Ok (PyInt (_partitions T)).
Proof.
  intros eng Hcall.
  assert (Hmeta : meta_table eng = DTable "__META__" "__META__" "fragments" 10).
  { unfold eng, Standalone_init. destruct job as [j|]; [done|]. by destruct (uuid1 w0). }
  split; [done|].
  assert (Hten : _partitions (meta_table eng) = 10) by (by rewrite Hmeta).
  pose proof (table_spec eng name ns N persistent w Hten) as Hspec. cbv zeta in Hspec.
  fold (table_key (tier_of persistent) ns name).
  destruct (registry_lookup eng (table_key (tier_of persistent) ns name) w) as [old|] eqn:E.
  - destruct Hspec as (w2 & Heq & Hkeep). rewrite Heq in Hcall.
    apply bind_inv in Hcall as (o & Ho & Hcall).
    apply bind_inv in Hcall as (n & Hn & Hcall).
    injection Hcall as <- <-. exists old. rewrite Hkeep. split; [done|].
    rewrite Ho. destruct o; try done. simpl in Hn. by injection Hn as ->.
  - destruct Hspec as (w2 & Heq & Hreg & _). rewrite Heq in Hcall.
    injection Hcall as <- <-. eexists. split; [exact Hreg|]. apply loads_dumps.
Qed.

Lemma meta_registry_witness :
  meta_table eng0 = DTable "__META__" "__META__" "fragments" 10 /\
  exists v,
    registry_lookup eng0 (tier_of true +:+ "." +:+ "ns" +:+ "." +:+ "a")
      (world_after (table eng0 "a" "ns" 4 true w_init)) = Some v /\
    Pickle.loads v = Ok (PyInt 4).
Proof.
  apply (meta_registry "/fate" (Some "job") w_init "a" "ns" 4 true w_init
           (DTable "LMDB" "ns" "a" 4)).
  reflexivity.
Defined.

(** The registry's tier is not the persistent tier and its name is not
    ["__META__"]. *)
Lemma meta_registry_counterexample :
  meta_table eng0 <> DTable StoreType.LMDB "__META__" "__META__" 10.
Proof. discriminate. Qed.

(** ** Bulk ingest *)


















(** ** The merge-sort collector *)

Lemma bytes_ltb_total a b : a <> b -> bytes_ltb a b = false -> bytes_ltb b a = true.
Proof.
  unfold bytes_ltb. intros Hne. rewrite (bytes_compare_antisym a b).
  destruct (bytes_compare a b) eqn:E; try done.
  by apply bytes_compare_eq in E.
Qed.

Lemma bytes_ltb_leb a b : bytes_ltb a b = true -> bytes_leb a b = true.
Proof. unfold bytes_ltb, bytes_leb. by destruct (bytes_compare a b). Qed.

Lemma bytes_ltb_neq a b : bytes_ltb a b = true -> a <> b.
Proof. intros H ->. by rewrite bytes_ltb_irrefl in H. Qed.

(** A store in key order: its first key is below all the others. *)
Lemma db_sorted_cons k v d :
  db_sorted ((k, v) :: d) = true <->
  (forall k', k' ∈ db_keys d -> bytes_ltb k k' = true) /\ db_sorted d = true.
Proof.
  revert k v. induction d as [|[k1 v1] d IH]; intros k v.
  - simpl. split; [|done]. intros _. split; [|done]. intros k' H. by apply elem_of_nil in H.
  - change (db_sorted ((k, v) :: (k1, v1) :: d))
      with (bytes_ltb k k1 && db_sorted ((k1, v1) :: d)).
    rewrite andb_true_iff. split.
    + intros [Hlt Hs]. split; [|done]. intros k' Hin.
      unfold db_keys in Hin. simpl in Hin. apply elem_of_cons in Hin as [->|Hin]; [done|].
      apply (bytes_ltb_trans k k1 k'); [done|]. apply IH in Hs as [Hall _]. by apply Hall.
    + intros [Hall Hs]. split; [|done]. apply Hall. unfold db_keys. simpl. apply elem_of_cons. by left.
Qed.

Lemma db_sorted_tail kv d : db_sorted (kv :: d) = true -> db_sorted d = true.
Proof. destruct kv as [k v]. intros H. by apply db_sorted_cons in H as [_ H]. Qed.

Lemma db_sorted_NoDup d : db_sorted d = true -> NoDup (db_keys d).
Proof.
  induction d as [|[k v] d IH]; intros H; [constructor|].
  apply db_sorted_cons in H as [Hall Hs]. unfold db_keys. simpl. apply NoDup_cons. split.
  - intros Hin. apply Hall in Hin. by rewrite bytes_ltb_irrefl in Hin.
  - by apply IH.
Qed.

Lemma db_sorted_Sorted d :
  db_sorted d = true -> Sorted (fun a b => bytes_leb a b = true) (db_keys d).
Proof.
  induction d as [|[k v] d IH]; intros H; [constructor|].
  unfold db_keys. simpl. constructor.
  - apply IH. by apply db_sorted_tail in H.
  - destruct d as [|[k1 v1] d]; constructor.
    apply bytes_ltb_leb. apply db_sorted_cons in H as [Hall _]. apply Hall.
    unfold db_keys. simpl. apply elem_of_cons. by left.
Qed.

Lemma entry_ltb_key x y :
  e_key x <> e_key y -> entry_ltb x y = bytes_ltb (e_key x) (e_key y).
Proof.
  intros Hne. unfold entry_ltb, bytes_ltb.
  destruct (bytes_compare (e_key x) (e_key y)) eqn:E; try done.
  by apply bytes_compare_eq in E.
Qed.

Lemma heap_insert_Permutation x h : heap_insert x h ≡ₚ x :: h.
Proof.
  induction h as [|y h IH]; simpl; [done|].
  destruct (entry_ltb x y); [done|]. rewrite IH. apply Permutation_swap.
Qed.

Lemma heapify_Permutation l : heapify l ≡ₚ l.
Proof.
  induction l as [|x l IH]; simpl; [done|].
  rewrite heap_insert_Permutation. by rewrite IH.
Qed.

Lemma heap_entries_cons e h : heap_entries (e :: h) = stream e ++ heap_entries h.
Proof. done. Qed.

Lemma heap_entries_Permutation h h' : h ≡ₚ h' -> heap_entries h ≡ₚ heap_entries h'.
Proof.
  induction 1 as [|x l l' _ IH|x y l|l l' l'' _ IH1 _ IH2].
  - done.
  - rewrite !heap_entries_cons. by rewrite IH.
  - rewrite !heap_entries_cons. rewrite !app_assoc. f_equiv. apply Permutation_app_comm.
  - by rewrite IH1.
Qed.

Lemma heap_insert_sorted x h :
  StronglySorted (fun e e' => bytes_ltb (e_key e) (e_key e') = true) h ->
  (forall y, y ∈ h -> e_key x <> e_key y) ->
  StronglySorted (fun e e' => bytes_ltb (e_key e) (e_key e') = true) (heap_insert x h).
Proof.
  induction h as [|y h IH]; intros Hs Hne; simpl.
  - repeat constructor.
  - apply StronglySorted_inv in Hs as [Hs Hy].
    assert (Hxy : e_key x <> e_key y) by (apply Hne; apply elem_of_cons; by left).
    rewrite (entry_ltb_key x y Hxy).
    destruct (bytes_ltb (e_key x) (e_key y)) eqn:E.
    + constructor; [by constructor|]. constructor; [done|].
      eapply Forall_impl; [exact Hy|]. intros z Hz. simpl in Hz.
      by apply (bytes_ltb_trans _ (e_key y)).
    + constructor.
      * apply IH; [done|]. intros z Hz. apply Hne. apply elem_of_cons. by right.
      * rewrite heap_insert_Permutation. constructor; [|done].
        by apply bytes_ltb_total.
Qed.

Lemma stream_key_in e h : e ∈ h -> e_key e ∈ db_keys (heap_entries h).
Proof.
  induction h as [|y h IH]; intros Hin; [by apply elem_of_nil in Hin|].
  rewrite heap_entries_cons. unfold db_keys. rewrite fmap_app. apply elem_of_app.
  apply elem_of_cons in Hin as [->|Hin]; [left|right; by apply IH].
  simpl. apply elem_of_cons. by left.
Qed.

(** In a heap that satisfies the invariant, the current key of the first
    entry is below every other key still to be delivered. *)
Lemma heap_min e h k :
  heap_inv (e :: h) -> k ∈ db_keys (e_it e ++ heap_entries h) -> bytes_ltb (e_key e) k = true.
Proof.
  intros (Hs & Hall & _). unfold db_keys. rewrite fmap_app. intros Hin.
  apply elem_of_app in Hin as [Hin|Hin].
  - apply Forall_cons in Hall as [He _]. apply db_sorted_cons in He as [He _]. by apply He.
  - apply StronglySorted_inv in Hs as [_ Hlt]. apply Forall_cons in Hall as [_ Hall].
    induction h as [|y h IH]; [by apply elem_of_nil in Hin|].
    rewrite heap_entries_cons, fmap_app in Hin. apply Forall_cons in Hlt as [Hy Hlt].
    apply Forall_cons in Hall as [Hys Hall].
    apply elem_of_app in Hin as [Hin|Hin]; [|by apply IH].
    simpl in Hin. apply elem_of_cons in Hin as [->|Hin]; [done|].
    apply (bytes_ltb_trans _ (e_key y)); [done|].
    apply db_sorted_cons in Hys as [Hys _]. by apply Hys.
Qed.

Lemma heap_inv_pop e h : heap_inv (e :: h) -> e_it e = [] -> heap_inv h.
Proof.
  intros (Hs & Hall & Hnd) Hit. split; [|split].
  - by apply StronglySorted_inv in Hs as [Hs _].
  - by apply Forall_cons in Hall as [_ Hall].
  - rewrite heap_entries_cons in Hnd. unfold db_keys in *. rewrite fmap_app in Hnd.
    by apply NoDup_app in Hnd as (_ & _ & Hnd).
Qed.

Lemma heap_inv_replace e h key value it' :
  heap_inv (e :: h) -> e_it e = (key, value) :: it' ->
  heap_inv (heap_insert (Entry key value (e_id e) it') h).
Proof.
  intros Hinv Hit. pose proof Hinv as (Hs & Hall & Hnd).
  set (e' := Entry key value (e_id e) it').
  assert (Hstream : stream e = (e_key e, e_value e) :: stream e').
  { unfold stream. by rewrite Hit. }
  rewrite heap_entries_cons, Hstream in Hnd.
  change (((e_key e, e_value e) :: stream e') ++ heap_entries h)
    with ((e_key e, e_value e) :: (stream e' ++ heap_entries h)) in Hnd.
  unfold db_keys in Hnd. rewrite fmap_cons in Hnd.
  apply NoDup_cons in Hnd as [_ Hnd]. rewrite fmap_app in Hnd.
  split; [|split].
  - apply heap_insert_sorted.
    + by apply StronglySorted_inv in Hs as [Hs _].
    + intros y Hy Heq. apply NoDup_app in Hnd as (_ & Hdisj & _).
      apply (Hdisj (e_key e')).
      * unfold stream. rewrite fmap_cons. apply elem_of_cons. by left.
      * rewrite Heq. by apply stream_key_in.
  - rewrite heap_insert_Permutation. apply Forall_cons in Hall as [He Hall].
    constructor; [|done]. rewrite Hstream in He. by apply db_sorted_tail in He.
  - unfold db_keys.
    rewrite (heap_entries_Permutation _ _ (heap_insert_Permutation e' h)).
    rewrite heap_entries_cons. by rewrite fmap_app.
Qed.

(** The loop of [_merge] delivers every entry of the heap, in increasing
    key order. *)
Lemma merge_loop_sorted fuel h :
  heap_inv h -> (length (heap_entries h) <= fuel)%nat ->
  db_sorted (merge_loop fuel h) = true /\ merge_loop fuel h ≡ₚ heap_entries h.
Proof.
  revert h. induction fuel as [|fuel IH]; intros h Hinv Hlen.
  - destruct h as [|e h]; [done|]. rewrite heap_entries_cons in Hlen. simpl in Hlen. lia.
  - destruct h as [|e h]; [done|]. cbn [merge_loop].
    rewrite heap_entries_cons in Hlen. unfold stream in Hlen.
    rewrite length_app in Hlen. cbn [length] in Hlen.
    destruct (e_it e) as [|[key value] it'] eqn:Hit.
    + change (heappop (e :: h)) with h.
      destruct (IH h) as [Hsorted Hperm].
      { by apply (heap_inv_pop e). }
      { lia. }
      split.
      * apply db_sorted_cons. split; [|done]. intros k Hk.
        apply (heap_min e h); [done|]. rewrite Hit, app_nil_l.
        unfold db_keys in *. by rewrite <- Hperm.
      * rewrite heap_entries_cons. unfold stream. rewrite Hit.
        change ([(e_key e, e_value e)] ++ heap_entries h)
          with ((e_key e, e_value e) :: heap_entries h). by constructor.
    + pose proof (heap_inv_replace e h key value it' Hinv Hit) as Hinv'.
      set (e' := Entry key value (e_id e) it') in *.
      change (heapreplace (e :: h) e') with (heap_insert e' h).
      assert (Hperm' : heap_entries (heap_insert e' h) ≡ₚ ((key, value) :: it') ++ heap_entries h).
      { rewrite (heap_entries_Permutation _ _ (heap_insert_Permutation e' h)).
        by rewrite heap_entries_cons. }
      destruct (IH (heap_insert e' h)) as [Hsorted Hperm]; [done| |].
      { rewrite Hperm', length_app. cbn [length] in *. lia. }
      split.
      * apply db_sorted_cons. split; [|done]. intros k Hk.
        apply (heap_min e h); [done|]. rewrite Hit.
        unfold db_keys in *. by rewrite <- Hperm', <- Hperm.
      * rewrite heap_entries_cons. unfold stream. rewrite Hit.
        change (((e_key e, e_value e) :: (key, value) :: it') ++ heap_entries h)
          with ((e_key e, e_value e) :: (((key, value) :: it') ++ heap_entries h)).
        constructor. by rewrite Hperm, Hperm'.
Qed.

Lemma merge_entries_entries _id cursors :
  heap_entries (merge_entries _id cursors) = concat cursors.
Proof.
  revert _id. induction cursors as [|it cursors IH]; intros _id; simpl; [done|].
  destruct it as [|[key value] it']; simpl.
  - apply IH.
  - rewrite heap_entries_cons, IH. done.
Qed.

Lemma merge_entries_sorted _id cursors :
  Forall (fun d => db_sorted d = true) cursors ->
  Forall (fun e => db_sorted (stream e) = true) (merge_entries _id cursors).
Proof.
  revert _id. induction cursors as [|it cursors IH]; intros _id Hall; simpl; [done|].
  apply Forall_cons in Hall as [Hit Hall].
  destruct it as [|[key value] it']; [by apply IH|].
  constructor; [done|]. by apply IH.
Qed.

Lemma heapify_inv l :
  Forall (fun e => db_sorted (stream e) = true) l ->
  NoDup (db_keys (heap_entries l)) ->
  heap_inv (heapify l).
Proof.
  induction l as [|x l IH]; intros Hall Hnd.
  - repeat split; constructor.
  - apply Forall_cons in Hall as [Hx Hall].
    rewrite heap_entries_cons in Hnd. unfold db_keys in Hnd. rewrite fmap_app in Hnd.
    pose proof Hnd as Hnd0. apply NoDup_app in Hnd as (_ & Hdisj & Hnd).
    destruct (IH Hall Hnd) as (Hs & Hall' & Hnd'). simpl. split; [|split].
    + apply heap_insert_sorted; [done|]. intros y Hy Heq.
      apply (Hdisj (e_key x)).
      * simpl. apply elem_of_cons. by left.
      * rewrite Heq. apply stream_key_in. by rewrite <- (heapify_Permutation l).
    + rewrite heap_insert_Permutation. by constructor.
    + unfold db_keys.
      rewrite (heap_entries_Permutation _ _ (heap_insert_Permutation x (heapify l))).
      rewrite heap_entries_cons, fmap_app.
      rewrite (heap_entries_Permutation _ _ (heapify_Permutation l)). done.
Qed.

(** Sorted cursors without a common key are merged into one sorted
    sequence that holds every entry. *)
Lemma merge_raw_sorted cursors :
  Forall (fun d => db_sorted d = true) cursors ->
  NoDup (db_keys (concat cursors)) ->
  db_sorted (merge_raw cursors) = true /\ merge_raw cursors ≡ₚ concat cursors.
Proof.
  intros Hall Hnd. unfold merge_raw.
  assert (Hinv : heap_inv (heapify (merge_entries 0 cursors))).
  { apply heapify_inv; [by apply merge_entries_sorted|].
    by rewrite merge_entries_entries. }
  assert (Hent : heap_entries (heapify (merge_entries 0 cursors)) ≡ₚ concat cursors).
  { rewrite (heap_entries_Permutation _ _ (heapify_Permutation _)).
    by rewrite merge_entries_entries. }
  destruct (merge_loop_sorted (length (concat cursors)) _ Hinv) as [Hs Hp].
  { by rewrite Hent. }
  split; [done|]. by rewrite Hp.
Qed.

(** The cursors of a well-formed table. *)
Lemma routed_to_spec T p d k :
  routed_to T p d = true -> k ∈ db_keys d ->
  _hash_key_to_partition k (_partitions T) = Ok p.
Proof.
  unfold routed_to. rewrite forallb_forall. intros Hall Hin.
  apply list_elem_of_In in Hin. apply Hall in Hin.
  destruct (_hash_key_to_partition k (_partitions T)) as [q|]; [|done].
  apply Z.eqb_eq in Hin. by subst.
Qed.

Lemma routed_cursors_NoDup eng T w ps :
  NoDup ps ->
  (forall p, p ∈ ps ->
     db_sorted (env_read (_get_env_for_partition eng T p) w) = true /\
     routed_to T p (env_read (_get_env_for_partition eng T p) w) = true) ->
  NoDup (db_keys (concat ((fun p => env_read (_get_env_for_partition eng T p) w) <$> ps))).
Proof.
  induction ps as [|p ps IH]; intros Hnd Hwf; [constructor|].
  apply NoDup_cons in Hnd as [Hp Hnd]. simpl. unfold db_keys. rewrite fmap_app.
  apply NoDup_app. split; [|split].
  - apply db_sorted_NoDup. apply Hwf. apply elem_of_cons. by left.
  - intros k Hk Hk'.
    assert (Hkp : _hash_key_to_partition k (_partitions T) = Ok p).
    { eapply routed_to_spec; [|exact Hk]. apply Hwf. apply elem_of_cons. by left. }
    clear IH Hk Hnd. induction ps as [|q ps IHq]; [by apply elem_of_nil in Hk'|].
    simpl in Hk'. rewrite fmap_app in Hk'. apply elem_of_app in Hk' as [Hk'|Hk'].
    + assert (Hkq : _hash_key_to_partition k (_partitions T) = Ok q).
      { eapply routed_to_spec; [|exact Hk']. apply Hwf. apply elem_of_cons. right.
        apply elem_of_cons. by left. }
      rewrite Hkp in Hkq. injection Hkq as ->. apply Hp. apply elem_of_cons. by left.
    + apply IHq; [| |done].
      * intros Hin. apply Hp. apply elem_of_cons. by right.
      * intros r Hr. apply Hwf. apply elem_of_cons in Hr as [->|Hr].
        -- apply elem_of_cons. by left.
        -- apply elem_of_cons. right. apply elem_of_cons. by right.
  - apply IH; [done|]. intros q Hq. apply Hwf. apply elem_of_cons. by right.
Qed.

Lemma wf_table_spec eng T w p :
  wf_table eng T w = true -> p ∈ seqZ 0 (_partitions T) ->
  db_sorted (env_read (_get_env_for_partition eng T p) w) = true /\
  routed_to T p (env_read (_get_env_for_partition eng T p) w) = true.
Proof.
  unfold wf_table. rewrite forallb_forall. intros Hall Hin.
  apply list_elem_of_In in Hin. apply Hall in Hin. by apply andb_true_iff in Hin.
Qed.

(** C5: the sequence [collect] yields follows the raw entries of the
    table in non-decreasing byte order of their keys, and no key comes
    twice. *)
Theorem collect_sorted eng T use_serialize w :
  wf_table eng T w = true ->
  collect eng T use_serialize w = merge_yield use_serialize <$> collect_raw eng T w /\
  Sorted (fun a b => bytes_leb a b = true) (db_keys (collect_raw eng T w)) /\
  NoDup (db_keys (collect_raw eng T w)).
Proof.
  intros Hwf. split; [done|].
  destruct (merge_raw_sorted (collect_cursors eng T w)) as [Hs _].
  - unfold collect_cursors. apply Forall_fmap. apply Forall_forall. intros p Hp.
    by apply (wf_table_spec eng T w p Hwf).
  - apply routed_cursors_NoDup; [apply NoDup_seqZ|].
    intros p Hp. by apply wf_table_spec.
  - unfold collect_raw. split; [by apply db_sorted_Sorted|by apply db_sorted_NoDup].
Qed.

(** *** Well-formed tables *)

Lemma db_put_keys k v d k' : k' ∈ db_keys (db_put k v d) <-> k' = k \/ k' ∈ db_keys d.
Proof.
  unfold db_keys. induction d as [|[k0 v0] d IH]; simpl.
  - rewrite elem_of_cons. done.
  - destruct (bytes_compare k k0) eqn:E.
    + apply bytes_compare_eq in E as <-. rewrite !fmap_cons, !elem_of_cons. simpl. tauto.
    + rewrite !fmap_cons, !elem_of_cons. done.
    + rewrite !fmap_cons, !elem_of_cons, IH. simpl. tauto.
Qed.

Lemma db_put_sorted k v d : db_sorted d = true -> db_sorted (db_put k v d) = true.
Proof.
  induction d as [|[k0 v0] d IH]; intros Hs; [done|].
  cbn [db_put]. destruct (bytes_compare k k0) eqn:E.
  - apply bytes_compare_eq in E as <-.
    apply db_sorted_cons in Hs as [Hall Hs]. by apply db_sorted_cons.
  - apply db_sorted_cons. split; [|done]. intros k' Hk'.
    assert (Hlt : bytes_ltb k k0 = true) by (unfold bytes_ltb; by rewrite E).
    unfold db_keys in Hk'. rewrite fmap_cons in Hk'.
    apply elem_of_cons in Hk' as [->|Hk']; [done|].
    apply (bytes_ltb_trans _ k0); [done|].
    apply db_sorted_cons in Hs as [Hall _]. by apply Hall.
  - pose proof Hs as Hs0. apply db_sorted_cons in Hs as [Hall Hs].
    apply db_sorted_cons. split; [|by apply IH]. intros k' Hk'.
    apply db_put_keys in Hk' as [->|Hk']; [|by apply Hall].
    unfold bytes_ltb. rewrite (bytes_compare_antisym k k0), E. done.
Qed.

(** The table before anything was stored is well formed. *)
Lemma wf_table_empty eng T w : store w = ∅ -> wf_table eng T w = true.
Proof.
  intros Hst. unfold wf_table. apply forallb_forall. intros p _.
  unfold env_read. rewrite Hst, lookup_empty. done.
Qed.

(** [put] keeps a table well formed. *)
Lemma put_wf_table eng T k v w b w1 :
  wf_table eng T w = true ->
  put eng T k v true w = Ok (b, w1) ->
  wf_table eng T w1 = true.
Proof.
  intros Hwf Hput.
  destruct (_hash_key_to_partition (Pickle.dumps k) (_partitions T)) as [p|e] eqn:Hp.
  - destruct (key_ok (Pickle.dumps k)) eqn:Hk;
      [|by rewrite (put_raises eng T k v w p Hp Hk) in Hput].
    destruct (put_spec eng T k v w p Hp Hk) as (w1' & Hput' & Hread).
    rewrite Hput' in Hput. injection Hput as <- <-.
    unfold wf_table. apply forallb_forall. intros q Hq. apply list_elem_of_In in Hq.
    destruct (wf_table_spec eng T w q Hwf Hq) as [Hs Hr].
    rewrite Hread. case_decide as Hpq.
    + apply partition_env_inj in Hpq as <-. apply andb_true_iff. split.
      * by apply db_put_sorted.
      * unfold routed_to. apply forallb_forall. intros k' Hk'.
        apply list_elem_of_In, db_put_keys in Hk' as [->|Hk'].
        -- rewrite Hp. by apply Z.eqb_eq.
        -- rewrite (routed_to_spec T p _ k' Hr Hk'). by apply Z.eqb_eq.
    + by apply andb_true_iff.
  - unfold put in Hput. simpl kv_to_bytes in Hput. rewrite bind_Ok in Hput.
    cbv beta iota in Hput. by rewrite Hp in Hput.
Qed.

Lemma collect_sorted_witness :
  let T := DTable "LMDB" "ns" "a" 4 in
  let w1 := world_after (put eng0 T (PyStr "k2") (PyInt 20) true w_init) in
  let w2 := world_after (put eng0 T (PyStr "k1") (PyInt 10) true w1) in
  let w3 := world_after (put eng0 T (PyStr "a") (PyInt 30) true w2) in
  wf_table eng0 T w3 = true /\
  collect eng0 T true w3 = merge_yield true <$> collect_raw eng0 T w3 /\
  Sorted (fun a b => bytes_leb a b = true) (db_keys (collect_raw eng0 T w3)) /\
  NoDup (db_keys (collect_raw eng0 T w3)).
Proof.
  intros T w1 w2 w3.
  assert (Hwf : wf_table eng0 T w3 = true) by (vm_compute; reflexivity).
  split; [exact Hwf|]. apply (collect_sorted eng0 T true w3 Hwf).
Defined.

(** *** [count], [take] and [first] *)

Lemma merge_loop_Permutation fuel h :
  (length (heap_entries h) <= fuel)%nat -> merge_loop fuel h ≡ₚ heap_entries h.
Proof.
  revert h. induction fuel as [|fuel IH]; intros h Hlen.
  - destruct h as [|e h]; [done|]. rewrite heap_entries_cons in Hlen. simpl in Hlen. lia.
  - destruct h as [|e h]; [done|]. cbn [merge_loop].
    rewrite heap_entries_cons in *. unfold stream in *.
    rewrite length_app in Hlen. cbn [length] in Hlen.
    destruct (e_it e) as [|[key value] it'] eqn:Hit.
    + change (heappop (e :: h)) with h.
      change ([(e_key e, e_value e)] ++ heap_entries h)
        with ((e_key e, e_value e) :: heap_entries h).
      constructor. apply IH. lia.
    + set (e' := Entry key value (e_id e) it') in *.
      change (heapreplace (e :: h) e') with (heap_insert e' h).
      assert (Hperm' : heap_entries (heap_insert e' h) ≡ₚ ((key, value) :: it') ++ heap_entries h).
      { rewrite (heap_entries_Permutation _ _ (heap_insert_Permutation e' h)).
        by rewrite heap_entries_cons. }
      change (((e_key e, e_value e) :: (key, value) :: it') ++ heap_entries h)
        with ((e_key e, e_value e) :: (((key, value) :: it') ++ heap_entries h)).
      constructor. rewrite <- Hperm'. apply IH.
      rewrite Hperm', length_app. cbn [length] in *. lia.
Qed.

(** [collect] yields every entry of the table once. *)
Lemma merge_raw_Permutation cursors : merge_raw cursors ≡ₚ concat cursors.
Proof.
  unfold merge_raw.
  assert (Hent : heap_entries (heapify (merge_entries 0 cursors)) ≡ₚ concat cursors).
  { rewrite (heap_entries_Permutation _ _ (heapify_Permutation _)).
    by rewrite merge_entries_entries. }
  rewrite <- Hent at 2. apply merge_loop_Permutation. by rewrite Hent.
Qed.

Lemma count_fold eng T w ps acc :
  fold_left
    (fun cnt p => cnt + Z.of_nat (length (env_read (_get_env_for_partition eng T p) w)))
    ps acc
  = acc + Z.of_nat (length (concat ((fun p => env_read (_get_env_for_partition eng T p) w) <$> ps))).
Proof.
  revert acc. induction ps as [|p ps IH]; intros acc.
  - cbn. lia.
  - cbn [fold_left]. rewrite IH, fmap_cons. cbn [concat]. rewrite length_app. lia.
Qed.




(** ** Running the tasks of an operator *)

Section Tasks.

Context {T : Type}.
Variable V : kernel_view T.
Variable K : T -> world -> result (_Operand.t * world).

(** The kernel commits to its destination what its body computes from
    the three environments it opens. *)
Hypothesis K_view : forall t w,
  K t w = (d ← kernel_run V t w; Ok (kv_rtn V t, commit_dst (kv_dst V t) d w)).

Lemma kernel_run_frame t env d w :
  env <> kv_src1 V t -> env <> kv_src2 V t -> env <> kv_dst V t ->
  kernel_run V t (commit_dst env d w) = kernel_run V t w.
Proof.
  intros H1 H2 H3. unfold kernel_run.
  rewrite !env_read_commit_dst, !decide_False by done. done.
Qed.

Lemma expected_frame tasks env d w :
  Forall (fun t' => env <> kv_src1 V t' /\ env <> kv_src2 V t' /\ env <> kv_dst V t') tasks ->
  expected V tasks (commit_dst env d w) = expected V tasks w.
Proof.
  induction tasks as [|t tasks IH]; intros Hall; [done|].
  apply Forall_cons in Hall as [(H1 & H2 & H3) Hall]. cbn [expected].
  rewrite kernel_run_frame, IH by done. done.
Qed.

Lemma run_tasks_spec tasks w :
  independent V tasks ->
  run_tasks K tasks w =
    (ds ← expected V tasks w; Ok (kv_rtn V <$> tasks, commit_all ds w)).
Proof.
  revert w. induction tasks as [|t tasks IH]; intros w Hind; [done|].
  destruct Hind as [Hall Hind]. cbn [run_tasks expected]. rewrite K_view.
  destruct (kernel_run V t w) as [d|e]; [|done]. rewrite !bind_Ok.
  rewrite IH, expected_frame by done.
  destruct (expected V tasks w) as [ds|e]; [|done]. rewrite !bind_Ok. done.
Qed.

Lemma expected_dsts tasks w ds :
  expected V tasks w = Ok ds -> ds.*1 = kv_dst V <$> tasks.
Proof.
  revert ds. induction tasks as [|t tasks IH]; intros ds H; cbn [expected] in H.
  - by injection H as <-.
  - apply bind_inv in H as (d & _ & H). apply bind_inv in H as (ds' & Hds & H).
    injection H as <-. rewrite !fmap_cons. f_equal. by apply IH.
Qed.

Lemma expected_elem tasks w ds t :
  expected V tasks w = Ok ds -> t ∈ tasks ->
  exists d, kernel_run V t w = Ok d /\ (kv_dst V t, d) ∈ ds.
Proof.
  revert ds. induction tasks as [|t' tasks IH]; intros ds H Hin; cbn [expected] in H.
  - by apply elem_of_nil in Hin.
  - apply bind_inv in H as (d & Hd & H). apply bind_inv in H as (ds' & Hds & H).
    injection H as <-. apply elem_of_cons in Hin as [->|Hin].
    + exists d. split; [done|]. apply elem_of_cons. by left.
    + destruct (IH ds' Hds Hin) as (d' & Hd' & Hin'). exists d'. split; [done|].
      apply elem_of_cons. by right.
Qed.

Lemma expected_total tasks w :
  (forall t, t ∈ tasks -> exists d, kernel_run V t w = Ok d) ->
  exists ds, expected V tasks w = Ok ds.
Proof.
  induction tasks as [|t tasks IH]; intros Hall; [by eexists|].
  destruct (Hall t) as [d Hd]; [apply elem_of_cons; by left|].
  destruct IH as [ds Hds]; [intros t' Ht'; apply Hall; apply elem_of_cons; by right|].
  cbn [expected]. rewrite Hd, bind_Ok, Hds, bind_Ok. by eexists.
Qed.

End Tasks.

Lemma env_read_commit_all_other ds w env :
  env ∉ ds.*1 -> env_read env (commit_all ds w) = env_read env w.
Proof.
  revert w. induction ds as [|[e d] ds IH]; intros w Hnin; [done|].
  rewrite fmap_cons in Hnin. apply not_elem_of_cons in Hnin as [Hne Hnin].
  unfold commit_all. cbn [fold_left]. fold (commit_all ds (commit_dst e d w)).
  rewrite IH by done. rewrite env_read_commit_dst, decide_False; [done|]. simpl in Hne. congruence.
Qed.

Lemma env_read_commit_all ds w env d :
  NoDup ds.*1 -> (env, d) ∈ ds -> env_read env (commit_all ds w) = d.
Proof.
  revert w. induction ds as [|[e d'] ds IH]; intros w Hnd Hin; [by apply elem_of_nil in Hin|].
  rewrite fmap_cons in Hnd. apply NoDup_cons in Hnd as [Hnin Hnd].
  unfold commit_all. cbn [fold_left]. fold (commit_all ds (commit_dst e d' w)).
  apply elem_of_cons in Hin as [[= -> ->]|Hin].
  - rewrite env_read_commit_all_other by done.
    rewrite env_read_commit_dst, decide_True; done.
  - by apply IH.
Qed.

(** Tasks of distinct partition indices are independent: every
    environment of the task of partition [p] ends in [str(p)]. *)
Lemma independent_indexed {T} (V : kernel_view T) (f : Z -> T) ps :
  NoDup ps ->
  (forall p, last (kv_src1 V (f p)) = Some (str_of_int p) /\
             last (kv_src2 V (f p)) = Some (str_of_int p) /\
             last (kv_dst V (f p)) = Some (str_of_int p)) ->
  independent V (f <$> ps).
Proof.
  intros Hnd Hlast. induction ps as [|p ps IH]; [done|].
  apply NoDup_cons in Hnd as [Hp Hnd]. rewrite fmap_cons. split; [|by apply IH].
  apply Forall_fmap, Forall_forall. intros q Hq. simpl.
  assert (Hpq : str_of_int p <> str_of_int q).
  { intros Heq. apply str_of_int_inj in Heq. by subst. }
  destruct (Hlast p) as (_ & _ & Hd). destruct (Hlast q) as (H1 & H2 & H3).
  repeat split; intros Heq; rewrite Heq in Hd; congruence.
Qed.

Lemma as_env_last eng ty ns nm p :
  last (_Operand.as_env eng (_Operand.mk ty ns nm p)) = Some (str_of_int p).
Proof. done. Qed.

(** ** [union] *)

Lemma union_right_keeps right dst kb x :
  db_get kb dst = Some x -> db_get kb (fold_left union_right_step right dst) = Some x.
Proof.
  revert dst. induction right as [|[k rv] right IH]; intros dst H; [done|].
  cbn [fold_left]. apply IH. unfold union_right_step.
  destruct (db_get k dst) eqn:E; [done|].
  rewrite db_get_put_ne; [done|]. intros ->. congruence.
Qed.

Lemma union_left_frame f right left dst0 dst1 kb :
  cursor_foldM (union_left_step f right) left dst0 = Ok dst1 ->
  kb ∉ db_keys left -> db_get kb dst1 = db_get kb dst0.
Proof.
  revert dst0. induction left as [|[k lv] left IH]; intros dst0 H Hnin; cbn [cursor_foldM] in H.
  - by injection H as <-.
  - unfold db_keys in Hnin. rewrite fmap_cons in Hnin.
    apply not_elem_of_cons in Hnin as [Hne Hnin]. simpl in Hne.
    apply bind_inv in H as (dst' & Hstep & H). rewrite (IH dst' H Hnin).
    unfold union_left_step in Hstep. destruct (db_get k right).
    + apply bind_inv in Hstep as (lv' & _ & Hstep).
      apply bind_inv in Hstep as (rv' & _ & Hstep).
      apply bind_inv in Hstep as (fv & _ & Hstep). injection Hstep as <-.
      by rewrite db_get_put_ne.
    + injection Hstep as <-. by rewrite db_get_put_ne.
Qed.

Lemma union_left_both right left dst0 dst1 kb lv rv :
  NoDup (db_keys left) ->
  cursor_foldM (union_left_step union_default_func right) left dst0 = Ok dst1 ->
  (kb, lv) ∈ left -> db_get kb right = Some rv ->
  exists v, Pickle.loads lv = Ok v /\ db_get kb dst1 = Some (Pickle.dumps v).
Proof.
  revert dst0. induction left as [|[k lv0] left IH]; intros dst0 Hnd H Hin Hr;
    [by apply elem_of_nil in Hin|].
  unfold db_keys in Hnd. rewrite fmap_cons in Hnd. apply NoDup_cons in Hnd as [Hnin Hnd].
  cbn [cursor_foldM] in H. apply bind_inv in H as (dst' & Hstep & H).
  apply elem_of_cons in Hin as [[= <- <-]|Hin]; [|by apply (IH dst')].
  unfold union_left_step in Hstep. rewrite Hr in Hstep.
  apply bind_inv in Hstep as (v & Hv & Hstep).
  apply bind_inv in Hstep as (v' & _ & Hstep).
  unfold union_default_func in Hstep. rewrite bind_Ok in Hstep. injection Hstep as <-.
  exists v. split; [done|].
  rewrite (union_left_frame _ _ _ _ _ kb H Hnin). apply db_get_put_eq.
Qed.

Lemma union_left_step_ok right dst k lv :
  match db_get k right with
  | Some rv => decodable lv && decodable rv
  | None => true
  end = true ->
  exists dst', union_left_step union_default_func right dst (k, lv) = Ok dst'.
Proof.
  unfold union_left_step. destruct (db_get k right) as [rv|]; [|by eexists].
  intros H. apply andb_true_iff in H as [Hl Hr]. unfold decodable in *.
  destruct (Pickle.loads lv) as [v|]; [|done].
  destruct (Pickle.loads rv) as [v'|]; [|done]. by eexists.
Qed.

Lemma union_left_total right left dst0 :
  overlap_decodable left right = true ->
  exists dst1, cursor_foldM (union_left_step union_default_func right) left dst0 = Ok dst1.
Proof.
  revert dst0. induction left as [|[k lv] left IH]; intros dst0 Hdec; [by eexists|].
  unfold overlap_decodable in Hdec. cbn [forallb] in Hdec.
  apply andb_true_iff in Hdec as [Hk Hdec]. cbn [cursor_foldM].
  destruct (union_left_step_ok right dst0 k lv Hk) as [dst' ->].
  rewrite bind_Ok. apply IH, Hdec.
Qed.

Lemma union_db_total left right dst0 :
  overlap_decodable left right = true ->
  exists d, union_db union_default_func left right dst0 = Ok d.
Proof.
  intros Hdec. unfold union_db.
  destruct (union_left_total right left dst0 Hdec) as [dst1 ->]. rewrite bind_Ok. by eexists.
Qed.

Lemma union_db_both left right dst0 d kb lv rv :
  NoDup (db_keys left) ->
  union_db union_default_func left right dst0 = Ok d ->
  (kb, lv) ∈ left -> db_get kb right = Some rv ->
  exists v, Pickle.loads lv = Ok v /\ db_get kb d = Some (Pickle.dumps v).
Proof.
  intros Hnd H Hin Hr. unfold union_db in H. apply bind_inv in H as (dst1 & Hleft & H).
  injection H as <-.
  destruct (union_left_both right left dst0 dst1 kb lv rv Hnd Hleft Hin Hr) as (v & Hv & Hget).
  exists v. split; [done|]. by apply union_right_keeps.
Qed.

Lemma do_union_view eng t w :
  do_union eng t w =
    (d ← kernel_run (V_union eng) t w;
     Ok (kv_rtn (V_union eng) t, commit_dst (kv_dst (V_union eng) t) d w)).
Proof. done. Qed.

Lemma table_env_read eng name ns part pers w T w2 env :
  _partitions (meta_table eng) = 10 ->
  table eng name ns part pers w = Ok (T, w2) ->
  (forall p, env <> _get_env_for_partition eng (meta_table eng) p) ->
  env_read env w2 = env_read env w.
Proof.
  intros Hmeta H Hne. unfold table in H.
  apply bind_inv in H as ([o w1] & Hpia & H). cbv beta iota in H.
  apply bind_inv in H as ([o' w2'] & Hget & H). cbv beta iota in H.
  apply bind_inv in H as (n & _ & H). injection H as _ <-.
  rewrite (get_env_read _ _ _ _ _ _ Hget).
  destruct (hash_meta eng (Pickle.dumps (PyStr (str_join "." [if pers then StoreType.LMDB
              else StoreType.IN_MEMORY; ns; name]))) Hmeta) as [p Hp].
  destruct (put_if_absent_spec eng (meta_table eng) _ (PyInt part) w p Hp) as (w1' & Heq & Hread).
  rewrite Heq in Hpia.
  assert (w1 = w1') as ->.
  { destruct (db_get _ _); [|by injection Hpia as _ <-].
    apply bind_inv in Hpia as (? & _ & Hpia). by injection Hpia as _ <-. }
  rewrite Hread, decide_False; [done|]. intros Heq'. by apply (Hne p).
Qed.

Lemma env_read_uuid1 env w : env_read env (uuid1 w).2 = env_read env w.
Proof. done. Qed.

Lemma registry_lookup_ext eng key w w' :
  (forall p, env_read (_get_env_for_partition eng (meta_table eng) p) w'
             = env_read (_get_env_for_partition eng (meta_table eng) p) w) ->
  registry_lookup eng key w' = registry_lookup eng key w.
Proof.
  intros H. unfold registry_lookup, table_lookup.
  destruct (_hash_key_to_partition _ _); [|done]. by rewrite H.
Qed.

Lemma fresh_result_spec eng n w :
  fresh_result eng n w = true ->
  (forall p, p ∈ seqZ 0 n ->
     env_read (_get_env eng [StoreType.IN_MEMORY; job_id eng; (uuid1 w).1; str_of_int p]) w = []) /\
  registry_lookup eng (table_key StoreType.IN_MEMORY (job_id eng) (uuid1 w).1) w = None.
Proof.
  unfold fresh_result. intros H. apply andb_true_iff in H as [H1 H2]. split.
  - intros p Hp. rewrite forallb_forall in H1. apply list_elem_of_In in Hp.
    apply H1 in Hp. by destruct (env_read _ w).
  - by destruct (registry_lookup _ _ w).
Qed.

(** With equal partition counts [union] goes straight to its tasks. *)
Lemma union_rec_aligned depth eng self other func w :
  _partitions other = _partitions self ->
  union_rec (S depth) eng self other func w =
    let '(func_id, pickled_function, w) := _serialize_and_hash_func func w in
    let _task_info := TaskInfo (job_id eng) func_id pickled_function in
    '(results, w) ← run_tasks (do_union eng) (binary_tasks eng self other _task_info) w;
    result_table eng self results w.
Proof.
  intros H. cbn [union_rec]. rewrite bool_decide_eq_false_2; [done|]. intros Hne. by apply Hne.
Qed.

(** C10: for tables of equal partition counts, [union] without a merge
    function keeps the left value of every key that both tables hold. *)
Theorem union_keeps_left eng L R w :
  meta_table eng = META ->
  _partitions R = _partitions L ->
  1 <= _partitions L < 2 ^ 53 ->
  wf_table eng L w = true ->
  union_ready eng L R w = true ->
  fresh_result eng (_partitions L) w = true ->
  exists out w',
    union eng L R union_default_func w = Ok (out, w') /\
    forall k lv rv,
      table_lookup eng L (Pickle.dumps k) w = Some lv ->
      table_lookup eng R (Pickle.dumps k) w = Some rv ->
      exists v,
        value_of (get eng L k true w) = Ok v /\
        value_of (get eng out k true w') = Ok v.
Proof.
  intros Hmeta HNR HN Hwf Hready Hfresh.
  assert (Hten : _partitions (meta_table eng) = 10) by (by rewrite Hmeta).
  destruct (fresh_result_spec eng _ w Hfresh) as [Hdst Hreg].
  unfold union. change recursion_limit with (S 999).
  rewrite union_rec_aligned by done.
  unfold _serialize_and_hash_func. destruct (uuid1 w) as [fid wu] eqn:Hu.
  assert (Hwu : forall env, env_read env wu = env_read env w).
  { intros env. change wu with (fid, wu).2. rewrite <- Hu. apply env_read_uuid1. }
  simpl fst in Hdst, Hreg.
  set (info := TaskInfo (job_id eng) fid union_default_func).
  set (mk := fun p : Z => _BinaryProcess.mk info
                 (_Operand.mk (_type L) (_namespace L) (_name L) p)
                 (_Operand.mk (_type R) (_namespace R) (_name R) p)).
  change (binary_tasks eng L R info) with (mk <$> seqZ 0 (_partitions L)).
  rewrite (run_tasks_spec (V_union eng) (do_union eng) (do_union_view eng)).
  2:{ apply independent_indexed; [apply NoDup_seqZ|]. intros p. done. }
  destruct (expected_total (V_union eng) (mk <$> seqZ 0 (_partitions L)) wu) as [ds Hds].
  { intros t Ht. apply list_elem_of_fmap in Ht as (p & -> & Hp).
    unfold kernel_run. simpl. apply union_db_total.
    rewrite !Hwu. unfold union_ready in Hready. rewrite forallb_forall in Hready.
    apply list_elem_of_In in Hp. apply (Hready p Hp). }
  rewrite Hds, !bind_Ok. cbv beta iota.
  assert (Hdsts : ds.*1 = (fun p => _get_env eng [StoreType.IN_MEMORY; job_id eng; fid;
                                                  str_of_int p]) <$> seqZ 0 (_partitions L)).
  { rewrite (expected_dsts _ _ _ _ Hds), <- list_fmap_compose. done. }
  assert (Hnd : NoDup ds.*1).
  { rewrite Hdsts. apply NoDup_fmap_2; [|apply NoDup_seqZ].
    intros p q [= H]. by apply str_of_int_inj. }
  assert (Hmeta_env : forall q, _get_env_for_partition eng (meta_table eng) q ∉ ds.*1).
  { intros q. rewrite Hdsts, Hmeta. intros Hin.
    apply list_elem_of_fmap in Hin as (p & Heq & _). discriminate Heq. }
  set (w1 := commit_all ds wu).
  (* the derived table *)
  unfold result_table.
  assert (Hlast : exists r, last_result (kv_rtn (V_union eng) <$> (mk <$> seqZ 0 (_partitions L)))
                            = Ok r /\ _Operand._name r = fid /\ _Operand._namespace r = job_id eng).
  { unfold last_result. rewrite !fmap_last.
    destruct (last (seqZ 0 (_partitions L))) as [p|] eqn:El.
    - eexists. split; [reflexivity|done].
    - apply last_None in El. rewrite seqZ_cons in El by lia. done. }
  destruct Hlast as (r & Hr & Hrn & Hrs). fold w1. rewrite Hr, bind_Ok, Hrn, Hrs.
  pose proof (table_spec eng fid (job_id eng) (_partitions L) false w1 Hten) as Hspec.
  cbv zeta in Hspec.
  assert (Hreg1 : registry_lookup eng (table_key (tier_of false) (job_id eng) fid) w1 = None).
  { rewrite <- Hreg. apply registry_lookup_ext. intros q.
    unfold w1. rewrite env_read_commit_all_other by apply Hmeta_env. apply Hwu. }
  rewrite Hreg1 in Hspec. destruct Hspec as (w2 & Htable & _).
  rewrite Htable. eexists _, w2. split; [reflexivity|].
  (* a key that both tables hold *)
  intros k lv rv HL HR. unfold table_lookup in HL, HR. rewrite HNR in HR.
  destruct (_hash_key_to_partition (Pickle.dumps k) (_partitions L)) as [p|] eqn:Hp; [|done].
  pose proof (hash_range _ _ _ Hp) as Hrange.
  assert (Hpin : p ∈ seqZ 0 (_partitions L)) by (apply elem_of_seqZ; lia).
  destruct (expected_elem (V_union eng) _ wu ds (mk p) Hds) as (d & Hd & Hdin).
  { by apply list_elem_of_fmap_2. }
  unfold kernel_run in Hd. simpl in Hd. rewrite !Hwu in Hd.
  destruct (union_db_both _ _ _ _ (Pickle.dumps k) lv rv
              (db_sorted_NoDup _ (proj1 (wf_table_spec eng L w p Hwf Hpin))) Hd)
    as (v & Hv & Hget); [by apply list_elem_of_In, db_get_Some_In|done|].
  exists v. split.
  - rewrite (get_spec eng L k w p Hp), HL, Hv. done.
  - rewrite (get_spec eng (DTable (tier_of false) (job_id eng) fid (_partitions L)) k w2 p Hp).
    assert (Hout : env_read (_get_env_for_partition eng
                     (DTable (tier_of false) (job_id eng) fid (_partitions L)) p) w2 = d).
    { rewrite (table_env_read _ _ _ _ _ _ _ _ _ Hten Htable).
      - unfold w1. by apply env_read_commit_all.
      - intros q Heq. rewrite Hmeta in Heq. discriminate Heq. }
    rewrite Hout, Hget, loads_dumps. done.
Qed.

(** ** [sample] *)

Lemma run_tasks_fmap {T U} (K : U -> world -> result (_Operand.t * world))
    (f : T -> U) tasks w :
  run_tasks K (f <$> tasks) w = run_tasks (fun t => K (f t)) tasks w.
Proof.
  revert w. induction tasks as [|t tasks IH]; intros w; [done|].
  rewrite fmap_cons. cbn [run_tasks]. destruct (K (f t) w) as [[r w1]|]; [|done].
  rewrite !bind_Ok. cbv beta iota. by rewrite IH.
Qed.

Lemma expected_map {T} (V : kernel_view T) (g : T -> db) tasks w :
  (forall t, t ∈ tasks -> kernel_run V t w = Ok (g t)) ->
  expected V tasks w = Ok ((fun t => (kv_dst V t, g t)) <$> tasks).
Proof.
  induction tasks as [|t tasks IH]; intros H; [done|].
  cbn [expected]. rewrite H by (apply elem_of_cons; by left). rewrite bind_Ok.
  rewrite IH by (intros t' Ht'; apply H; apply elem_of_cons; by right). done.
Qed.

Lemma do_sample_view eng T fid fraction s p w :
  do_sample eng (sample_task eng T fid fraction (Some s) p) w =
    (d ← kernel_run (V_sample eng T fid fraction s) p w;
     Ok (kv_rtn (V_sample eng T fid fraction s) p,
         commit_dst (kv_dst (V_sample eng T fid fraction s) p) d w)).
Proof.
  unfold do_sample, kernel_run, RandomState, valid_seed.
  cbn [sample_task _UnaryProcess._info _UnaryProcess._operand _function_bytes V_sample
       kv_body kv_rtn kv_dst kv_src1 kv_src2].
  unfold valid_seed. destruct ((0 <=? s) && (s <? 2 ^ 32)); reflexivity.
Qed.

(** A run of [sample] with an integer seed, in closed form: the content
    of every partition of the result is computed from the seed, the
    fraction and the entries of the same partition of the source. *)
Lemma sample_entries_spec eng T fraction s w :
  meta_table eng = META ->
  fresh_result eng (_partitions T) w = true ->
  sample_entries eng T fraction (Some s) w =
    if _partitions T <? 1 then Raise UnboundLocalError
    else if valid_seed s then
      Ok ((fun p => sample_db fraction (MT19937.init_genrand s)
                      (env_read (_get_env_for_partition eng T p) w) [])
            <$> seqZ 0 (_partitions T))
    else Raise ValueError.
Proof.
  intros Hmeta Hfresh.
  assert (Hten : _partitions (meta_table eng) = 10) by (by rewrite Hmeta).
  destruct (fresh_result_spec eng _ w Hfresh) as [Hdst Hreg].
  unfold sample_entries, sample, _submit_to_pool, _serialize_and_hash_func.
  destruct (uuid1 w) as [fid wu] eqn:Hu.
  assert (Hwu : forall env, env_read env wu = env_read env w).
  { intros env. change wu with (fid, wu).2. rewrite <- Hu. apply env_read_uuid1. }
  simpl fst in Hdst, Hreg.
  change (fun p : Z => _UnaryProcess.mk (TaskInfo (job_id eng) fid (fraction, Some s))
                         (_Operand.mk (_type T) (_namespace T) (_name T) p))
    with (sample_task eng T fid fraction (Some s)).
  rewrite run_tasks_fmap.
  destruct (Z.ltb_spec (_partitions T) 1) as [Hlt|Hge].
  { rewrite seqZ_nil by lia. done. }
  destruct (valid_seed s) eqn:Hvalid.
  2:{ rewrite seqZ_cons by lia. cbn [run_tasks]. rewrite do_sample_view.
      unfold kernel_run. simpl. rewrite Hvalid. done. }
  set (V := V_sample eng T fid fraction s).
  rewrite (run_tasks_spec V _ (do_sample_view eng T fid fraction s)).
  2:{ pose proof (independent_indexed V id (seqZ 0 (_partitions T)) (NoDup_seqZ _ _)) as Hind.
      rewrite list_fmap_id in Hind. apply Hind. intros p. done. }
  set (g := fun p => sample_db fraction (MT19937.init_genrand s)
                       (env_read (_get_env_for_partition eng T p) w) []).
  rewrite (expected_map V g).
  2:{ intros p Hp. unfold kernel_run, V. simpl. rewrite Hvalid, !Hwu.
      change (_get_env eng [StoreType.IN_MEMORY; job_id eng; fid; str_of_int p])
        with (_get_env eng [StoreType.IN_MEMORY; job_id eng; fid; str_of_int p]).
      rewrite (Hdst p Hp). done. }
  rewrite bind_Ok. cbv beta iota.
  set (ds := (fun t => (kv_dst V t, g t)) <$> seqZ 0 (_partitions T)).
  assert (Hdsts : ds.*1 = kv_dst V <$> seqZ 0 (_partitions T)).
  { unfold ds. rewrite <- list_fmap_compose. done. }
  assert (Hnd : NoDup ds.*1).
  { rewrite Hdsts. apply NoDup_fmap_2; [|apply NoDup_seqZ].
    intros p q [= H]. by apply str_of_int_inj. }
  assert (Hmeta_env : forall q, _get_env_for_partition eng (meta_table eng) q ∉ ds.*1).
  { intros q. rewrite Hdsts, Hmeta. intros Hin.
    apply list_elem_of_fmap in Hin as (p & Heq & _). discriminate Heq. }
  set (w1 := commit_all ds wu).
  unfold result_table.
  assert (Hlast : exists r, last_result (kv_rtn V <$> seqZ 0 (_partitions T)) = Ok r /\
                            _Operand._name r = fid /\ _Operand._namespace r = job_id eng).
  { unfold last_result. rewrite fmap_last.
    destruct (last (seqZ 0 (_partitions T))) as [p|] eqn:El.
    - eexists. split; [reflexivity|done].
    - apply last_None in El. rewrite seqZ_cons in El by lia. done. }
  destruct Hlast as (r & Hr & Hrn & Hrs). fold ds. fold w1.
  rewrite bind_Ok. cbv beta iota. rewrite Hr, bind_Ok, Hrn, Hrs.
  pose proof (table_spec eng fid (job_id eng) (_partitions T) false w1 Hten) as Hspec.
  cbv zeta in Hspec.
  assert (Hreg1 : registry_lookup eng (table_key (tier_of false) (job_id eng) fid) w1 = None).
  { rewrite <- Hreg. apply registry_lookup_ext. intros q.
    unfold w1. rewrite env_read_commit_all_other by apply Hmeta_env. apply Hwu. }
  rewrite Hreg1 in Hspec. destruct Hspec as (w2 & Htable & _).
  rewrite Htable, bind_Ok. cbv beta iota. f_equal.
  apply list_fmap_ext. intros i p Hp. apply list_elem_of_lookup_2 in Hp.
  rewrite (table_env_read _ _ _ _ _ _ _ _ _ Hten Htable).
  - unfold w1. apply env_read_commit_all; [done|].
    unfold ds. apply list_elem_of_fmap. by exists p.
  - intros q Heq. rewrite Hmeta in Heq. discriminate Heq.
Qed.

Lemma fmap_eq_pointwise {A B} (f g : A -> B) (l : list A) x :
  f <$> l = g <$> l -> x ∈ l -> f x = g x.
Proof.
  induction l as [|y l IH]; intros H Hin; [by apply elem_of_nil in Hin|].
  rewrite !fmap_cons in H. injection H as Hy Hl.
  apply elem_of_cons in Hin as [->|Hin]; [done|by apply IH].
Qed.

(** C8 (amended): with an integer seed, two runs of [sample] on a table
    that holds the same entries in each partition leave the same entries
    in each partition of their results, whatever else differs between the
    two worlds (the names of the results, the entropy of the system); a
    seed in [0, 2^32) and a positive partition count give a result. *)
Theorem sample_deterministic eng T fraction s w1 w2 :
  meta_table eng = META ->
  fresh_result eng (_partitions T) w1 = true ->
  fresh_result eng (_partitions T) w2 = true ->
  collect_cursors eng T w1 = collect_cursors eng T w2 ->
  sample_entries eng T fraction (Some s) w1 = sample_entries eng T fraction (Some s) w2 /\
  (1 <= _partitions T -> valid_seed s = true ->
   exists l, sample_entries eng T fraction (Some s) w1 = Ok l).
Proof.
  intros Hmeta Hf1 Hf2 Hsame.
  rewrite (sample_entries_spec eng T fraction s w1 Hmeta Hf1).
  rewrite (sample_entries_spec eng T fraction s w2 Hmeta Hf2).
  split.
  - destruct (_partitions T <? 1); [done|]. destruct (valid_seed s); [|done].
    f_equal. apply list_fmap_ext. intros i p Hp. apply list_elem_of_lookup_2 in Hp.
    unfold collect_cursors in Hsame.
    by rewrite (fmap_eq_pointwise _ _ _ p Hsame Hp).
  - intros HN Hs. destruct (Z.ltb_spec (_partitions T) 1); [lia|]. rewrite Hs. by eexists.
Qed.

Lemma union_keeps_left_witness :
  exists out w',
    union eng0 T_L T_R2 union_default_func w_LR = Ok (out, w') /\
    forall k lv rv,
      table_lookup eng0 T_L (Pickle.dumps k) w_LR = Some lv ->
      table_lookup eng0 T_R2 (Pickle.dumps k) w_LR = Some rv ->
      exists v,
        value_of (get eng0 T_L k true w_LR) = Ok v /\
        value_of (get eng0 out k true w') = Ok v.
Proof.
  apply (union_keeps_left eng0 T_L T_R2 w_LR);
    [reflexivity | reflexivity | simpl; lia | vm_compute; reflexivity
    | vm_compute; reflexivity | vm_compute; reflexivity].
Defined.

Example union_aligned_run :
  collected eng0 (union eng0 T_L T_R2 union_default_func w_LR)
  = Ok [(PyStr "a", PyInt 1); (PyStr "b", PyInt 2); (PyStr "c", PyInt 3)].
Proof. vm_compute. reflexivity. Qed.

Lemma sample_deterministic_witness :
  sample_entries eng0 T_a one_half (Some 42) w_sample
  = sample_entries eng0 T_a one_half (Some 42)
      (world_after (sample eng0 T_a one_half (Some 42) w_sample)) /\
  (1 <= _partitions T_a -> valid_seed 42 = true ->
   exists l, sample_entries eng0 T_a one_half (Some 42) w_sample = Ok l).
Proof.
  apply (sample_deterministic eng0 T_a one_half 42 w_sample
           (world_after (sample eng0 T_a one_half (Some 42) w_sample)));
    [reflexivity | vm_compute; reflexivity | vm_compute; reflexivity
    | vm_compute; reflexivity].
Defined.

(** Without a seed the generator is seeded from the system's entropy:
    two runs in a row on the same table give different entries. *)
Lemma sample_unseeded_counterexample :
  sample_entries eng0 T_a one_half None w_sample
  <> sample_entries eng0 T_a one_half None
       (world_after (sample eng0 T_a one_half None w_sample)).
Proof. vm_compute. discriminate. Qed.

(** ** [subtractByKey] with different partition counts

    C1: when the right table has no more entries than the left one, the
    repartition branch of [subtractByKey] calls [union] on the realigned
    table: the result holds the keys of both tables instead of the keys of
    the left one that the right one lacks. *)
Lemma subtractByKey_repartition_runs_union :
  _partitions T_L <> _partitions T_R /\
  collected eng0 (subtractByKey eng0 T_L T_R w_LR)
  = Ok [(PyStr "a", PyInt 1); (PyStr "b", PyInt 2); (PyStr "c", PyInt 3)] /\
  collected eng0 (subtractByKey eng0 T_L T_R2 w_LR) = Ok [(PyStr "a", PyInt 1)].
Proof. split; [discriminate|]. vm_compute. done. Qed.

(** * Further properties of the code *)

(** ** The hasher when the partition count grows *)

Lemma lt_int_mono j n m : n <= m -> PyFloat.lt_int j n = true -> PyFloat.lt_int j m = true.
Proof.
  intros Hnm. destruct j as [s|s| |s mm e]; simpl; try done.
  - intros H. apply Z.ltb_lt in H. apply Z.ltb_lt. lia.
  - destruct (0 <=? e).
    + intros H. apply Z.ltb_lt in H. apply Z.ltb_lt. lia.
    + intros H. apply Z.ltb_lt in H. apply Z.ltb_lt.
      pose proof (pow2_pos (- e)). nia.
Qed.

Lemma lt_int_false_to_int mm e n a :
  PyFloat.lt_int (S754_finite false mm e) n = false ->
  PyFloat.to_int (S754_finite false mm e) = Ok a -> n <= a.
Proof.
  unfold PyFloat.lt_int, PyFloat.to_int. intros Hlt [= <-].
  destruct (Z.leb_spec 0 e).
  - apply Z.ltb_ge in Hlt. lia.
  - apply Z.ltb_ge in Hlt. pose proof (pow2_pos (- e) ltac:(lia)).
    apply Z.div_le_lower_bound; lia.
Qed.

(** Once the bucket has reached [lo], the loop returns nothing below. *)
Lemma jump_loop_lower fuel m lo b j _key q :
  m < 2 ^ 53 -> 0 <= lo <= b ->
  (exists mm e a, j = S754_finite false mm e /\ PyFloat.to_int j = Ok a /\ b + 1 <= a) ->
  jump_loop fuel m b j _key = Ok q -> lo <= q.
Proof.
  intros Hm. revert b j _key. induction fuel as [|fuel IH]; intros b j _key Hb Hj H; [done|].
  cbn [jump_loop] in H. destruct (PyFloat.lt_int j m) eqn:Hlt.
  - destruct Hj as (mm & e & a & -> & Ha & Hle).
    pose proof (lt_int_to_int _ _ _ _ Hlt Ha) as Hrange.
    destruct (jump_step_ok (S754_finite false mm e) _key a)
      as (k' & m' & e' & a' & Hstep & Ha' & Hle'); [done|lia|lia|].
    rewrite Hstep, bind_Ok in H.
    eapply IH; [|..|exact H]; [lia|eauto 10].
  - injection H as <-. lia.
Qed.

Lemma jump_loop_consistent fn fm n m b j _key p q :
  1 <= n <= m -> m < 2 ^ 53 -> loop_inv m b j ->
  jump_loop fn n b j _key = Ok p -> jump_loop fm m b j _key = Ok q ->
  q = p \/ n <= q.
Proof.
  intros Hn Hm. revert fm b j _key.
  induction fn as [|fn IH]; intros fm b j _key Hinv Hp Hq; [done|].
  destruct fm as [|fm]; [done|].
  cbn [jump_loop] in Hp, Hq. destruct (PyFloat.lt_int j n) eqn:Hlt.
  - rewrite (lt_int_mono _ _ _ (proj2 Hn) Hlt) in Hq.
    assert (Hstep : exists a k' m' e' a',
               jump_step j _key = Ok (a, k', S754_finite false m' e') /\
               0 <= a < n /\ PyFloat.to_int (S754_finite false m' e') = Ok a' /\ a + 1 <= a').
    { destruct Hinv as [[-> ->]|[Hb (mm & e & a & -> & Ha & Hle)]].
      - destruct (jump_step_ok (S754_zero false) _key 0)
          as (k' & m' & e' & a' & Hs & Ha' & Hle'); [done|lia|lia|].
        exists 0, k', m', e', a'. repeat split; [done|lia|lia|done|done].
      - pose proof (lt_int_to_int _ _ _ _ Hlt Ha) as Hrange.
        destruct (jump_step_ok (S754_finite false mm e) _key a)
          as (k' & m' & e' & a' & Hs & Ha' & Hle'); [done|lia|lia|].
        exists a, k', m', e', a'. repeat split; [done|lia|lia|done|done]. }
    destruct Hstep as (a & k' & m' & e' & a' & Hs & Ha & Ha' & Hle').
    rewrite Hs, bind_Ok in Hp, Hq.
    eapply IH; [|exact Hp|exact Hq]. right. split; [lia|]. eauto 10.
  - injection Hp as <-. destruct (PyFloat.lt_int j m) eqn:Hltm.
    + destruct Hinv as [[-> ->]|[Hb (mm & e & a & -> & Ha & Hle)]].
      { simpl in Hlt. apply Z.ltb_ge in Hlt. lia. }
      pose proof (lt_int_to_int _ _ _ _ Hltm Ha) as Hrange.
      pose proof (lt_int_false_to_int _ _ _ _ Hlt Ha) as Hlow.
      destruct (jump_step_ok (S754_finite false mm e) _key a)
        as (k' & m' & e' & a' & Hs & Ha' & Hle'); [done|lia|lia|].
      rewrite Hs, bind_Ok in Hq. right.
      eapply (jump_loop_lower fm m n a); [done|lia| |exact Hq]. eauto 10.
    + injection Hq as <-. by left.
Qed.

(** X1: the hasher is consistent when the table grows.  For partition
    counts [1 <= n <= m < 2^53], a key that is sent to partition [p] among
    [n] partitions is sent, among [m] partitions, either to the same
    partition [p] or to one of the new partitions [n .. m - 1]; it is
    never moved between two of the old partitions. *)
Theorem hash_consistent key n m p :
  1 <= n <= m -> m < 2 ^ 53 ->
  _hash_key_to_partition key n = Ok p ->
  exists q, _hash_key_to_partition key m = Ok q /\ (q = p \/ n <= q < m).
Proof.
  intros Hn Hm Hp.
  destruct (hash_total key m) as (q & Hq & Hrange); [lia|].
  exists q. split; [done|].
  unfold _hash_key_to_partition in Hp, Hq.
  destruct (Z.ltb_spec n 1); [lia|]. destruct (Z.ltb_spec m 1); [lia|].
  destruct (jump_loop_consistent _ _ n m _ _ _ p q Hn Hm (or_introl (conj eq_refl eq_refl)) Hp Hq);
    [by left|right; lia].
Qed.

Lemma hash_consistent_witness :
  exists q, _hash_key_to_partition (b_ "abc") 11 = Ok q /\ (q = 8 \/ 10 <= q < 11).
Proof.
  apply (hash_consistent (b_ "abc") 10 11 8); [lia|lia|vm_compute; reflexivity].
Defined.

(** ** Point operations: what changes and what does not *)

Lemma db_get_delete_ne k k' d : k <> k' -> db_get k' (db_delete k d) = db_get k' d.
Proof.
  intros Hne. induction d as [|[k0 v0] d IH]; [done|]. cbn [db_delete db_get].
  destruct (bytes_eqb k k0) eqn:E.
  - apply bytes_eqb_eq in E as <-. by rewrite bytes_eqb_neq by done.
  - cbn [db_get]. by rewrite IH.
Qed.

Lemma db_delete_keys k d k' : k' ∈ db_keys (db_delete k d) -> k' ∈ db_keys d.
Proof.
  unfold db_keys. induction d as [|[k0 v0] d IH]; [done|]. cbn [db_delete].
  destruct (bytes_eqb k k0).
  - intros H. rewrite fmap_cons. apply elem_of_cons. by right.
  - rewrite !fmap_cons, !elem_of_cons. intros [->|H]; [by left|right; by apply IH].
Qed.

Lemma db_delete_sorted k d : db_sorted d = true -> db_sorted (db_delete k d) = true.
Proof.
  induction d as [|[k0 v0] d IH]; intros Hs; [done|]. cbn [db_delete].
  destruct (bytes_eqb k k0); [by apply db_sorted_tail in Hs|].
  apply db_sorted_cons in Hs as [Hall Hs]. apply db_sorted_cons. split; [|by apply IH].
  intros k' Hk'. by apply Hall, (db_delete_keys k).
Qed.

Lemma db_get_delete_eq k d : db_sorted d = true -> db_get k (db_delete k d) = None.
Proof.
  induction d as [|[k0 v0] d IH]; intros Hs; [done|]. cbn [db_delete].
  destruct (bytes_eqb k k0) eqn:E.
  - apply bytes_eqb_eq in E as <-. apply db_sorted_cons in Hs as [Hall _].
    apply db_get_None_keys. intros Hin. apply list_elem_of_In, Hall in Hin.
    by rewrite bytes_ltb_irrefl in Hin.
  - cbn [db_get]. rewrite E. apply IH. by apply db_sorted_tail in Hs.
Qed.

Lemma db_delete_absent k d : db_get k d = None -> db_delete k d = d.
Proof.
  induction d as [|[k0 v0] d IH]; [done|]. cbn [db_get db_delete].
  destruct (bytes_eqb k k0); [done|]. intros H. by rewrite IH.
Qed.

Lemma db_delete_length k d :
  Z.of_nat (length (db_delete k d))
  = Z.of_nat (length d) - (match db_get k d with Some _ => 1 | None => 0 end).
Proof.
  induction d as [|[k0 v0] d IH]; [done|]. cbn [db_get db_delete].
  destruct (bytes_eqb k k0); cbn [length]; lia.
Qed.

Lemma db_put_length k v d :
  db_sorted d = true ->
  Z.of_nat (length (db_put k v d))
  = Z.of_nat (length d) + (match db_get k d with Some _ => 0 | None => 1 end).
Proof.
  induction d as [|[k0 v0] d IH]; intros Hs; [done|]. cbn [db_put db_get].
  destruct (bytes_compare k k0) eqn:E.
  - unfold bytes_eqb. rewrite E. cbn [length]. lia.
  - unfold bytes_eqb. rewrite E.
    assert (db_get k d = None) as ->.
    { apply db_get_None_keys. intros Hin. apply list_elem_of_In in Hin.
      apply db_sorted_cons in Hs as [Hall _]. apply Hall in Hin.
      assert (Hlt : bytes_ltb k k0 = true) by (unfold bytes_ltb; by rewrite E).
      pose proof (bytes_ltb_trans _ _ _ Hlt Hin) as Hkk. by rewrite bytes_ltb_irrefl in Hkk. }
    cbn [length]. lia.
  - unfold bytes_eqb. rewrite E. cbn [length]. apply db_sorted_tail in Hs.
    specialize (IH Hs). lia.
Qed.

Lemma table_lookup_updated eng T p d' w w1 kb :
  updated eng T p d' w w1 ->
  table_lookup eng T kb w1 =
    match _hash_key_to_partition kb (_partitions T) with
    | Ok q => if decide (p = q) then db_get kb d'
              else db_get kb (env_read (_get_env_for_partition eng T q) w)
    | Raise _ => None
    end.
Proof.
  intros Hup. unfold table_lookup.
  destruct (_hash_key_to_partition kb (_partitions T)) as [q|]; [|done].
  rewrite Hup. case_decide as E.
  - apply partition_env_inj in E as ->. by rewrite decide_True.
  - rewrite decide_False; [done|]. by intros ->.
Qed.

Lemma wf_table_updated eng T p d' w w1 :
  updated eng T p d' w w1 ->
  wf_table eng T w = true ->
  db_sorted d' = true -> routed_to T p d' = true ->
  wf_table eng T w1 = true.
Proof.
  intros Hup Hwf Hs Hr. unfold wf_table. apply forallb_forall. intros q Hq.
  apply list_elem_of_In in Hq. rewrite Hup. case_decide as E.
  - apply partition_env_inj in E as <-. by rewrite Hs, Hr.
  - destruct (wf_table_spec eng T w q Hwf Hq) as [-> ->]. done.
Qed.

Lemma length_concat_updated (f g : Z -> db) p ps :
  NoDup ps -> (forall q, q <> p -> g q = f q) ->
  Z.of_nat (length (concat (g <$> ps)))
  = Z.of_nat (length (concat (f <$> ps)))
    + (if decide (p ∈ ps) then Z.of_nat (length (g p)) - Z.of_nat (length (f p)) else 0).
Proof.
  intros Hnd Hfg. induction ps as [|q ps IH]; [done|].
  apply NoDup_cons in Hnd as [Hq Hnd]. specialize (IH Hnd).
  rewrite !fmap_cons. cbn [concat]. rewrite !length_app, !Nat2Z.inj_add, IH.
  destruct (decide (q = p)) as [->|Hne].
  - rewrite (decide_True (P := p ∈ p :: ps)) by (apply elem_of_cons; by left).
    rewrite (decide_False (P := p ∈ ps)) by done. lia.
  - rewrite (Hfg q Hne). destruct (decide (p ∈ ps)) as [Hin|Hnin].
    + rewrite (decide_True (P := p ∈ q :: ps)) by (apply elem_of_cons; by right). lia.
    + rewrite (decide_False (P := p ∈ q :: ps)); [lia|].
      intros Hin. apply elem_of_cons in Hin as [->|Hin]; done.
Qed.

Lemma count_updated eng T p d' w w1 :
  updated eng T p d' w w1 -> 0 <= p < _partitions T ->
  count eng T w1 = count eng T w + Z.of_nat (length d')
                   - Z.of_nat (length (env_read (_get_env_for_partition eng T p) w)).
Proof.
  intros Hup Hp. unfold count. rewrite !count_fold.
  rewrite (length_concat_updated
             (fun q => env_read (_get_env_for_partition eng T q) w)
             (fun q => env_read (_get_env_for_partition eng T q) w1) p).
  - rewrite decide_True by (apply elem_of_seqZ; lia).
    rewrite (Hup (_get_env_for_partition eng T p)), decide_True by done. lia.
  - apply NoDup_seqZ.
  - intros q Hq. rewrite Hup, decide_False; [done|].
    intros E. apply partition_env_inj in E. done.
Qed.

Lemma table_lookup_hash eng T kb w p :
  _hash_key_to_partition kb (_partitions T) = Ok p ->
  table_lookup eng T kb w = db_get kb (env_read (_get_env_for_partition eng T p) w).
Proof. intros Hp. unfold table_lookup. by rewrite Hp. Qed.

Lemma routed_to_put T p k v d :
  _hash_key_to_partition k (_partitions T) = Ok p ->
  routed_to T p d = true -> routed_to T p (db_put k v d) = true.
Proof.
  intros Hp Hr. unfold routed_to. apply forallb_forall. intros k' Hk'.
  apply list_elem_of_In, db_put_keys in Hk' as [->|Hk'].
  - rewrite Hp. by apply Z.eqb_eq.
  - rewrite (routed_to_spec T p _ k' Hr Hk'). by apply Z.eqb_eq.
Qed.

Lemma routed_to_subset T p d d' :
  (forall k, k ∈ db_keys d' -> k ∈ db_keys d) ->
  routed_to T p d = true -> routed_to T p d' = true.
Proof.
  intros Hsub Hr. unfold routed_to. apply forallb_forall. intros k' Hk'.
  apply list_elem_of_In, Hsub in Hk'.
  rewrite (routed_to_spec T p _ k' Hr Hk'). by apply Z.eqb_eq.
Qed.

(** X2: [put] changes one key and nothing else.  On a well-formed table
    and for a key whose encoding is at most 511 bytes long it returns
    [True]; afterwards the key holds the new value, every other key holds
    what it held, the entry count has grown by one if the key was new and
    is unchanged if the key was overwritten, and the table is still well
    formed.  For a key whose encoding is longer, [put] raises
    [BadValsizeError]. *)
Theorem put_effect eng T k v w :
  1 <= _partitions T < 2 ^ 53 ->
  wf_table eng T w = true ->
  if key_ok (Pickle.dumps k) then
    exists w1,
      put eng T k v true w = Ok (true, w1) /\
      table_lookup eng T (Pickle.dumps k) w1 = Some (Pickle.dumps v) /\
      (forall kb, kb <> Pickle.dumps k ->
         table_lookup eng T kb w1 = table_lookup eng T kb w) /\
      count eng T w1
      = count eng T w
        + match table_lookup eng T (Pickle.dumps k) w with Some _ => 0 | None => 1 end /\
      wf_table eng T w1 = true
  else put eng T k v true w = Raise BadValsizeError.
Proof.
  intros HN Hwf.
  destruct (hash_total (Pickle.dumps k) _ HN) as (p & Hp & Hrange).
  destruct (key_ok (Pickle.dumps k)) eqn:Hk; [|by apply (put_raises eng T k v w p)].
  destruct (put_spec eng T k v w p Hp Hk) as (w1 & Hput & Hup).
  fold (updated eng T p (db_put (Pickle.dumps k) (Pickle.dumps v)
          (env_read (_get_env_for_partition eng T p) w)) w w1) in Hup.
  assert (Hpin : p ∈ seqZ 0 (_partitions T)) by (apply elem_of_seqZ; lia).
  destruct (wf_table_spec eng T w p Hwf Hpin) as [Hs Hr].
  exists w1. split; [done|]. split; [|split; [|split]].
  - rewrite (table_lookup_updated _ _ _ _ _ _ _ Hup), Hp, decide_True by done.
    apply db_get_put_eq.
  - intros kb Hne. rewrite (table_lookup_updated _ _ _ _ _ _ _ Hup). unfold table_lookup.
    destruct (_hash_key_to_partition kb (_partitions T)) as [q|]; [|done].
    case_decide as E; [|done]. subst q. by apply db_get_put_ne.
  - rewrite (count_updated _ _ _ _ _ _ Hup) by lia.
    rewrite (db_put_length _ _ _ Hs), (table_lookup_hash _ _ _ _ _ Hp). lia.
  - apply (wf_table_updated _ _ _ _ _ _ Hup Hwf).
    + by apply db_put_sorted.
    + by apply routed_to_put.
Qed.

Lemma put_effect_witness :
  exists w1,
    put eng0 T_L (PyStr "z") (PyInt 5) true w_LR = Ok (true, w1) /\
    table_lookup eng0 T_L (Pickle.dumps (PyStr "z")) w1 = Some (Pickle.dumps (PyInt 5)) /\
    (forall kb, kb <> Pickle.dumps (PyStr "z") ->
       table_lookup eng0 T_L kb w1 = table_lookup eng0 T_L kb w_LR) /\
    count eng0 T_L w1
    = count eng0 T_L w_LR
      + match table_lookup eng0 T_L (Pickle.dumps (PyStr "z")) w_LR with
        | Some _ => 0
        | None => 1
        end /\
    wf_table eng0 T_L w1 = true.
Proof.
  apply (put_effect eng0 T_L (PyStr "z") (PyInt 5) w_LR); [simpl; lia|vm_compute; reflexivity].
Defined.

(** ** [delete] *)

Lemma delete_spec eng T k w p :
  _hash_key_to_partition (Pickle.dumps k) (_partitions T) = Ok p ->
  let env := _get_env_for_partition eng T p in
  exists w1,
    delete eng T k true w =
      match db_get (Pickle.dumps k) (env_read env w) with
      | None => Ok (PyNone, w1)
      | Some old => o ← Pickle.loads old; Ok (o, w1)
      end /\
    updated eng T p (db_delete (Pickle.dumps k) (env_read env w)) w w1.
Proof.
  intros Hp env. unfold delete. simpl kv_to_bytes1. rewrite bind_Ok, Hp, bind_Ok.
  fold env. unfold with_write_txn, txn_begin, txn_get, txn_delete. simpl txn_db. simpl txn_env.
  eexists. split.
  - destruct (db_get (Pickle.dumps k) (env_read env w)) as [old|] eqn:E.
    + rewrite bool_decide_true by eauto. simpl from_bytes.
      destruct (Pickle.loads old); simpl; reflexivity.
    + rewrite bool_decide_false by (by intros [? ?]). reflexivity.
  - intros env'. rewrite env_read_commit. simpl. done.
Qed.

(** X3: [delete] hands back the value it removes and touches no other
    key.  On a well-formed table: for a key that is absent it returns
    [None] and every key holds what it held; for a key that is present
    it returns the decoded old value, after which the key is gone ([get]
    returns [None]), every other key holds what it held and the entry
    count has dropped by one.  If the stored bytes do not decode, the
    exception of the decoder is raised. *)
Theorem delete_effect eng T k w :
  1 <= _partitions T < 2 ^ 53 ->
  wf_table eng T w = true ->
  match table_lookup eng T (Pickle.dumps k) w with
  | None =>
      exists w1, delete eng T k true w = Ok (PyNone, w1) /\
        (forall kb, table_lookup eng T kb w1 = table_lookup eng T kb w) /\
        count eng T w1 = count eng T w
  | Some old =>
      match Pickle.loads old with
      | Ok o =>
          exists w1, delete eng T k true w = Ok (o, w1) /\
            value_of (get eng T k true w1) = Ok PyNone /\
            (forall kb, kb <> Pickle.dumps k ->
               table_lookup eng T kb w1 = table_lookup eng T kb w) /\
            count eng T w1 = count eng T w - 1 /\
            wf_table eng T w1 = true
      | Raise e => delete eng T k true w = Raise e
      end
  end.
Proof.
  intros HN Hwf.
  destruct (hash_total (Pickle.dumps k) _ HN) as (p & Hp & Hrange).
  destruct (delete_spec eng T k w p Hp) as (w1 & Hdel & Hup). cbv zeta in Hdel, Hup.
  assert (Hpin : p ∈ seqZ 0 (_partitions T)) by (apply elem_of_seqZ; lia).
  destruct (wf_table_spec eng T w p Hwf Hpin) as [Hs Hr].
  rewrite (table_lookup_hash _ _ _ _ _ Hp).
  assert (Hother : forall kb, kb <> Pickle.dumps k ->
            table_lookup eng T kb w1 = table_lookup eng T kb w).
  { intros kb Hne. rewrite (table_lookup_updated _ _ _ _ _ _ _ Hup). unfold table_lookup.
    destruct (_hash_key_to_partition kb (_partitions T)) as [q|]; [|done].
    case_decide as E; [|done]. subst q. by apply db_get_delete_ne. }
  pose proof (count_updated _ _ _ _ _ _ Hup Hrange) as Hcount.
  rewrite db_delete_length in Hcount.
  destruct (db_get (Pickle.dumps k) (env_read (_get_env_for_partition eng T p) w))
    as [old|] eqn:E.
  - destruct (Pickle.loads old) as [o|e] eqn:Eo; [|by rewrite Hdel].
    exists w1. rewrite Hdel, bind_Ok. split; [done|]. split; [|split; [done|split; [lia|]]].
    + rewrite (get_spec eng T k w1 p Hp), (Hup (_get_env_for_partition eng T p)).
      rewrite decide_True by done. by rewrite (db_get_delete_eq _ _ Hs).
    + apply (wf_table_updated _ _ _ _ _ _ Hup Hwf).
      * by apply db_delete_sorted.
      * apply (routed_to_subset T p _ _ (db_delete_keys _ _) Hr).
  - exists w1. split; [done|]. split; [|lia].
    intros kb. destruct (bytes_eqb kb (Pickle.dumps k)) eqn:Ekb;
      [apply bytes_eqb_eq in Ekb as ->|apply Hother; intros ->; by rewrite bytes_eqb_refl in Ekb].
    rewrite (table_lookup_updated _ _ _ _ _ _ _ Hup), Hp, decide_True by done.
    rewrite (db_delete_absent _ _ E). by rewrite (table_lookup_hash _ _ _ _ _ Hp).
Qed.

Lemma delete_effect_witness :
  exists w1, delete eng0 T_L (PyStr "a") true w_LR = Ok (PyInt 1, w1) /\
    value_of (get eng0 T_L (PyStr "a") true w1) = Ok PyNone /\
    (forall kb, kb <> Pickle.dumps (PyStr "a") ->
       table_lookup eng0 T_L kb w1 = table_lookup eng0 T_L kb w_LR) /\
    count eng0 T_L w1 = count eng0 T_L w_LR - 1 /\
    wf_table eng0 T_L w1 = true.
Proof.
  apply (delete_effect eng0 T_L (PyStr "a") w_LR); [simpl; lia|vm_compute; reflexivity].
Defined.

(** ** Bulk ingest: what a batch leaves in the table *)
















Lemma db_get_NoDup_In (l : list (bytes * bytes)) kb vb :
  NoDup l.*1 -> (kb, vb) ∈ l -> db_get kb l = Some vb.
Proof.
  induction l as [|[k0 v0] l IH]; intros Hnd Hin; [by apply elem_of_nil in Hin|].
  rewrite fmap_cons in Hnd. apply NoDup_cons in Hnd as [Hnin Hnd]. cbn [db_get].
  apply elem_of_cons in Hin as [[= -> ->]|Hin].
  - by rewrite bytes_eqb_refl.
  - rewrite bytes_eqb_neq; [by apply IH|]. intros ->. apply Hnin.
    apply list_elem_of_fmap. by exists (k0, vb).
Qed.








(** ** [parallelize] *)





Lemma length_concat_nil {A} (ps : list Z) :
  length (concat ((fun _ : Z => @nil A) <$> ps)) = 0%nat.
Proof. induction ps as [|p ps IH]; [done|]. by rewrite fmap_cons. Qed.



Lemma fresh_table_spec eng T w :
  fresh_table eng T w = true ->
  (forall p, 0 <= p < _partitions T -> env_read (_get_env_for_partition eng T p) w = []) /\
  registry_lookup eng (table_key (_type T) (_namespace T) (_name T)) w = None.
Proof.
  unfold fresh_table. intros H. apply andb_true_iff in H as [H1 H2]. split.
  - intros p Hp. rewrite forallb_forall in H1.
    assert (Hin : In p (seqZ 0 (_partitions T))) by (apply list_elem_of_In, elem_of_seqZ; lia).
    apply H1 in Hin. by destruct (env_read _ w).
  - by destruct (registry_lookup _ _ w).
Qed.



Lemma registry_lookup_uuid1 eng key w :
  registry_lookup eng key (uuid1 w).2 = registry_lookup eng key w.
Proof. done. Qed.

(** *** The size of the key of an index *)











Lemma seqZ_nonpos m n : n <= 0 -> seqZ m n = [].
Proof. intros Hn. unfold seqZ. replace (Z.to_nat n) with O by lia. done. Qed.



(** ** The collector: nothing lost, nothing invented *)







(** ** [take] *)





(** ** [save_as] *)











(** ** Operators: from the kernels to the derived table *)

Section Operator.
Context {T : Type}.
Variable eng : Standalone.
Variable V : kernel_view T.
Variable K : T -> world -> result (_Operand.t * world).
Variable mk : Z -> T.
Variable fid : string.
Hypothesis K_view : forall t w,
  K t w = (d ← kernel_run V t w; Ok (kv_rtn V t, commit_dst (kv_dst V t) d w)).
Hypothesis V_dst : forall p,
  kv_dst V (mk p) = _get_env eng [StoreType.IN_MEMORY; job_id eng; fid; str_of_int p].
Hypothesis V_rtn : forall p,
  kv_rtn V (mk p) = _Operand.mk StoreType.IN_MEMORY (job_id eng) fid p.
Hypothesis V_src : forall p,
  last (kv_src1 V (mk p)) = Some (str_of_int p) /\
  last (kv_src2 V (mk p)) = Some (str_of_int p).
Hypothesis Hmeta : meta_table eng = META.

Lemma operator_independent ps : NoDup ps -> independent V (mk <$> ps).
Proof.
  intros Hnd. apply independent_indexed; [done|]. intros p.
  destruct (V_src p) as [-> ->]. rewrite V_dst. done.
Qed.

(** The derived table when every kernel returns. *)
Lemma run_operator self w g :
  1 <= _partitions self ->
  fresh_table eng (DTable StoreType.IN_MEMORY (job_id eng) fid (_partitions self)) w = true ->
  (forall p, 0 <= p < _partitions self -> kernel_run V (mk p) w = Ok (g p)) ->
  let out := DTable StoreType.IN_MEMORY (job_id eng) fid (_partitions self) in
  exists w',
    (run_tasks K (mk <$> seqZ 0 (_partitions self)) w
       ≫= fun '(results, w) => result_table eng self results w) = Ok (out, w') /\
    (forall p, 0 <= p < _partitions self ->
       env_read (_get_env_for_partition eng out p) w' = g p) /\
    (forall env,
       (forall q, env <> _get_env_for_partition eng (meta_table eng) q) ->
       (forall p, 0 <= p < _partitions self -> env <> _get_env_for_partition eng out p) ->
       env_read env w' = env_read env w).
Proof.
  intros HN Hfresh Hg out.
  assert (Hten : _partitions (meta_table eng) = 10) by (by rewrite Hmeta).
  destruct (fresh_table_spec eng _ w Hfresh) as [_ Hreg]. simpl in Hreg.
  rewrite (run_tasks_spec V K K_view) by (apply operator_independent, NoDup_seqZ).
  rewrite (expected_map V (fun t => match kernel_run V t w with Ok d => d | Raise _ => [] end)).
  2:{ intros t Ht. apply list_elem_of_fmap in Ht as (p & -> & Hp).
      apply elem_of_seqZ in Hp. rewrite (Hg p) by lia. done. }
  rewrite bind_Ok.
  match goal with |- context [commit_all ?l _] => set (ds := l) end.
  assert (Hds : forall p, 0 <= p < _partitions self ->
            (_get_env_for_partition eng out p, g p) ∈ ds).
  { intros p Hp. unfold ds. apply list_elem_of_fmap. exists (mk p).
    split; [|apply list_elem_of_fmap_2, elem_of_seqZ; lia]. rewrite V_dst, (Hg p Hp). done. }
  assert (Hdsts : ds.*1 = _get_env_for_partition eng out <$> seqZ 0 (_partitions self)).
  { unfold ds. rewrite <- !list_fmap_compose. apply list_fmap_ext.
    intros i p _. simpl. by rewrite V_dst. }
  assert (Hnd : NoDup ds.*1).
  { rewrite Hdsts. apply NoDup_fmap_2; [|apply NoDup_seqZ].
    intros p q. apply partition_env_inj. }
  assert (Hmeta_env : forall q, _get_env_for_partition eng (meta_table eng) q ∉ ds.*1).
  { intros q. rewrite Hdsts, Hmeta. intros Hin.
    apply list_elem_of_fmap in Hin as (p & Heq & _). discriminate Heq. }
  set (w1 := commit_all ds w). rewrite bind_Ok. cbv beta iota.
  unfold result_table.
  assert (Hlast : exists r, last_result (kv_rtn V <$> (mk <$> seqZ 0 (_partitions self)))
                            = Ok r /\ _Operand._name r = fid
                            /\ _Operand._namespace r = job_id eng).
  { unfold last_result. rewrite !fmap_last.
    destruct (last (seqZ 0 (_partitions self))) as [p|] eqn:El.
    - eexists. split; [reflexivity|]. simpl. by rewrite V_rtn.
    - apply last_None in El. rewrite seqZ_cons in El by lia. done. }
  destruct Hlast as (r & Hr & Hrn & Hrs). rewrite Hr, bind_Ok, Hrn, Hrs.
  pose proof (table_spec eng fid (job_id eng) (_partitions self) false w1 Hten) as Hspec.
  cbv zeta in Hspec.
  assert (Hreg1 : registry_lookup eng (table_key (tier_of false) (job_id eng) fid) w1 = None).
  { rewrite <- Hreg. apply registry_lookup_ext. intros q.
    unfold w1. by rewrite env_read_commit_all_other by apply Hmeta_env. }
  rewrite Hreg1 in Hspec. destruct Hspec as (w2 & Htable & _).
  rewrite Htable. exists w2. split; [done|]. split.
  - intros p Hp. rewrite (table_env_read _ _ _ _ _ _ _ _ _ Hten Htable).
    + unfold w1. apply env_read_commit_all; [done|]. by apply Hds.
    + intros q Heq. rewrite Hmeta in Heq. discriminate Heq.
  - intros env Hnm Hnd'. rewrite (table_env_read _ _ _ _ _ _ _ _ _ Hten Htable) by done.
    unfold w1. apply env_read_commit_all_other. rewrite Hdsts. intros Hin.
    apply list_elem_of_fmap in Hin as (p & -> & Hp). apply elem_of_seqZ in Hp.
    apply (Hnd' p); [lia|done].
Qed.

(** The first kernel that raises decides what the operator raises. *)
Lemma run_operator_raise self w p e :
  0 <= p < _partitions self ->
  (forall q, 0 <= q < p -> exists d, kernel_run V (mk q) w = Ok d) ->
  kernel_run V (mk p) w = Raise e ->
  (run_tasks K (mk <$> seqZ 0 (_partitions self)) w
     ≫= fun '(results, w) => result_table eng self results w) = Raise e.
Proof.
  intros Hp Hbefore Hraise.
  rewrite (run_tasks_spec V K K_view) by (apply operator_independent, NoDup_seqZ).
  assert (Hexp : expected V (mk <$> seqZ 0 (_partitions self)) w = Raise e).
  { replace (_partitions self) with (p + (_partitions self - p)) by lia.
    rewrite seqZ_app by lia. rewrite fmap_app, Z.add_0_l.
    rewrite (seqZ_cons p) by lia. rewrite fmap_cons.
    assert (Hpre : forall ps, (forall q, q ∈ ps -> 0 <= q < p) ->
              forall rest, expected V ((mk <$> ps) ++ mk p :: rest) w = Raise e).
    { induction ps as [|q ps IH]; intros Hps rest.
      - cbn [fmap list_fmap app expected]. by rewrite Hraise.
      - rewrite fmap_cons. cbn [app expected].
        destruct (Hbefore q) as [d ->]; [apply Hps; apply elem_of_cons; by left|].
        rewrite bind_Ok, IH; [done|]. intros q' Hq'. apply Hps. apply elem_of_cons. by right. }
    apply Hpre. intros q Hq. apply elem_of_seqZ in Hq. lia. }
  by rewrite Hexp.
Qed.

End Operator.

(** A table without partitions has no task, and the name [result] of the
    operator is never bound. *)
Lemma run_operator_empty {T} eng (K : T -> world -> result (_Operand.t * world))
    (mk : Z -> T) self w :
  _partitions self < 1 ->
  (run_tasks K (mk <$> seqZ 0 (_partitions self)) w
     ≫= fun '(results, w) => result_table eng self results w) = Raise UnboundLocalError.
Proof. intros HN. by rewrite seqZ_nonpos by lia. Qed.

Lemma fresh_result_table eng n w :
  fresh_result eng n w
  = fresh_table eng (DTable StoreType.IN_MEMORY (job_id eng) (uuid1 w).1 n) w.
Proof. done. Qed.

Lemma forallb_pointwise {A} (f g : A -> bool) l :
  (forall x, f x = g x) -> forallb f l = forallb g l.
Proof. intros H. induction l as [|x l IH]; [done|]. cbn [forallb]. by rewrite H, IH. Qed.

Lemma fresh_table_ext eng T w w' :
  (forall env, env_read env w' = env_read env w) ->
  fresh_table eng T w' = fresh_table eng T w.
Proof.
  intros H. unfold fresh_table. f_equal.
  - apply forallb_pointwise. intros p. by rewrite H.
  - by rewrite (registry_lookup_ext eng _ w w') by (intros q; apply H).
Qed.

(** The derived table of a unary operator. *)
Lemma unary_operator {F} eng self (func : F)
    (do_f : _UnaryProcess.t F -> world -> result (_Operand.t * world))
    (body : F -> db -> db -> result db) w g :
  meta_table eng = META ->
  (forall t w, do_f t w =
     (d ← kernel_run (V_unary eng body) t w;
      Ok (kv_rtn (V_unary eng body) t, commit_dst (kv_dst (V_unary eng body) t) d w))) ->
  1 <= _partitions self ->
  fresh_result eng (_partitions self) w = true ->
  (forall p, 0 <= p < _partitions self ->
     body func (env_read (_get_env_for_partition eng self p) w) [] = Ok (g p)) ->
  let out := DTable StoreType.IN_MEMORY (job_id eng) (uuid1 w).1 (_partitions self) in
  exists w',
    (_submit_to_pool eng self func do_f w
       ≫= fun '(results, w) => result_table eng self results w) = Ok (out, w') /\
    (forall p, 0 <= p < _partitions self ->
       env_read (_get_env_for_partition eng out p) w' = g p) /\
    (forall env,
       (forall q, env <> _get_env_for_partition eng (meta_table eng) q) ->
       (forall p, 0 <= p < _partitions self -> env <> _get_env_for_partition eng out p) ->
       env_read env w' = env_read env w).
Proof.
  intros Hmeta Hview HN Hfresh Hg out.
  rewrite fresh_result_table in Hfresh.
  unfold _submit_to_pool, _serialize_and_hash_func.
  destruct (uuid1 w) as [fid wu] eqn:Hu. cbn [fst] in out, Hfresh.
  destruct (fresh_table_spec eng _ w Hfresh) as [Hempty _].
  assert (Hwu : forall env, env_read env wu = env_read env w).
  { intros env. change wu with (fid, wu).2. rewrite <- Hu. apply env_read_uuid1. }
  set (mk := fun p : Z => _UnaryProcess.mk (TaskInfo (job_id eng) fid func)
                 (_Operand.mk (_type self) (_namespace self) (_name self) p)).
  destruct (run_operator eng (V_unary eng body) do_f mk fid Hview
              ltac:(done) ltac:(done) ltac:(done) Hmeta self wu g HN)
    as (w' & Hrun & Hout & Hframe).
  - by rewrite (fresh_table_ext eng _ w wu Hwu).
  - intros p Hp.
    change (body func (env_read (_get_env_for_partition eng self p) wu)
              (env_read (_get_env_for_partition eng out p) wu) = Ok (g p)).
    pose proof (Hempty p Hp) as He.
    change (env_read (_get_env_for_partition eng out p) w = []) in He.
    rewrite !Hwu, He. by apply Hg.
  - exists w'. split; [exact Hrun|]. split; [done|].
    intros env H1 H2. rewrite (Hframe env H1 H2). apply Hwu.
Qed.

(** The derived table of a binary operator on tables of the same
    partition count. *)
Lemma binary_operator {F} eng self other (func : F)
    (do_f : _BinaryProcess.t F -> world -> result (_Operand.t * world))
    (body : F -> db -> db -> db -> result db) w g :
  meta_table eng = META ->
  (forall t w, do_f t w =
     (d ← kernel_run (V_binary eng body) t w;
      Ok (kv_rtn (V_binary eng body) t, commit_dst (kv_dst (V_binary eng body) t) d w))) ->
  1 <= _partitions self ->
  fresh_result eng (_partitions self) w = true ->
  (forall p, 0 <= p < _partitions self ->
     body func (env_read (_get_env_for_partition eng self p) w)
       (env_read (_get_env_for_partition eng other p) w) [] = Ok (g p)) ->
  let out := DTable StoreType.IN_MEMORY (job_id eng) (uuid1 w).1 (_partitions self) in
  exists w',
    (let '(func_id, pickled_function, w) := _serialize_and_hash_func func w in
     let _task_info := TaskInfo (job_id eng) func_id pickled_function in
     '(results, w) ← run_tasks do_f (binary_tasks eng self other _task_info) w;
     result_table eng self results w) = Ok (out, w') /\
    (forall p, 0 <= p < _partitions self ->
       env_read (_get_env_for_partition eng out p) w' = g p) /\
    (forall env,
       (forall q, env <> _get_env_for_partition eng (meta_table eng) q) ->
       (forall p, 0 <= p < _partitions self -> env <> _get_env_for_partition eng out p) ->
       env_read env w' = env_read env w).
Proof.
  intros Hmeta Hview HN Hfresh Hg out.
  rewrite fresh_result_table in Hfresh.
  unfold _serialize_and_hash_func.
  destruct (uuid1 w) as [fid wu] eqn:Hu. cbn [fst] in out, Hfresh.
  destruct (fresh_table_spec eng _ w Hfresh) as [Hempty _].
  assert (Hwu : forall env, env_read env wu = env_read env w).
  { intros env. change wu with (fid, wu).2. rewrite <- Hu. apply env_read_uuid1. }
  set (mk := fun p : Z => _BinaryProcess.mk (TaskInfo (job_id eng) fid func)
                 (_Operand.mk (_type self) (_namespace self) (_name self) p)
                 (_Operand.mk (_type other) (_namespace other) (_name other) p)).
  change (binary_tasks eng self other (TaskInfo (job_id eng) fid func))
    with (mk <$> seqZ 0 (_partitions self)).
  destruct (run_operator eng (V_binary eng body) do_f mk fid Hview
              ltac:(done) ltac:(done) ltac:(done) Hmeta self wu g HN)
    as (w' & Hrun & Hout & Hframe).
  - by rewrite (fresh_table_ext eng _ w wu Hwu).
  - intros p Hp.
    change (body func (env_read (_get_env_for_partition eng self p) wu)
              (env_read (_get_env_for_partition eng other p) wu)
              (env_read (_get_env_for_partition eng out p) wu) = Ok (g p)).
    pose proof (Hempty p Hp) as He.
    change (env_read (_get_env_for_partition eng out p) w = []) in He.
    rewrite !Hwu, He. by apply Hg.
  - exists w'. split; [exact Hrun|]. split; [done|].
    intros env H1 H2. rewrite (Hframe env H1 H2). apply Hwu.
Qed.

(** ** Kernels that work entry by entry *)

Lemma entry_step_ok h dst k vb o :
  h k vb = Ok o ->
  entry_step h dst (k, vb)
  = Ok (match o with Some vb' => db_put k vb' dst | None => dst end).
Proof. intros H. unfold entry_step. simpl. by rewrite H. Qed.

Lemma entry_fold_total h src dst :
  entries_ok h src = true -> exists d, cursor_foldM (entry_step h) src dst = Ok d.
Proof.
  revert dst. induction src as [|[k vb] src IH]; intros dst H; [by eexists|].
  cbn [entries_ok forallb] in H. apply andb_true_iff in H as [Hh H].
  cbn [cursor_foldM]. cbn [fst snd] in Hh.
  destruct (h k vb) as [o|] eqn:Ho; [|done].
  rewrite (entry_step_ok h dst k vb o Ho), bind_Ok. by apply IH.
Qed.

Lemma entry_step_inv h dst k vb dst' :
  entry_step h dst (k, vb) = Ok dst' ->
  exists o, h k vb = Ok o /\
    dst' = match o with Some vb' => db_put k vb' dst | None => dst end.
Proof.
  unfold entry_step. simpl. intros H. apply bind_inv in H as (o & Ho & H).
  injection H as <-. by exists o.
Qed.

Lemma entry_fold_get h src dst d kb :
  NoDup (db_keys src) ->
  cursor_foldM (entry_step h) src dst = Ok d ->
  db_get kb d =
    match db_get kb src with
    | Some vb => match h kb vb with
                 | Ok (Some vb') => Some vb'
                 | _ => db_get kb dst
                 end
    | None => db_get kb dst
    end.
Proof.
  revert dst. induction src as [|[k vb] src IH]; intros dst Hnd H; cbn [cursor_foldM] in H.
  - by injection H as <-.
  - unfold db_keys in Hnd. rewrite fmap_cons in Hnd. apply NoDup_cons in Hnd as [Hk Hnd].
    apply bind_inv in H as (dst' & Hstep & H).
    apply entry_step_inv in Hstep as (o & Ho & ->).
    rewrite (IH _ Hnd H). cbn [db_get]. destruct (bytes_eqb kb k) eqn:E.
    + apply bytes_eqb_eq in E as ->.
      assert (db_get k src = None) as -> by (apply db_get_None_keys; by rewrite <- list_elem_of_In).
      rewrite Ho. destruct o as [vb'|]; [apply db_get_put_eq|done].
    + assert (Hdst : db_get kb match o with Some vb' => db_put k vb' dst | None => dst end
                     = db_get kb dst).
      { destruct o; [|done]. apply db_get_put_ne. intros ->. by rewrite bytes_eqb_refl in E. }
      by rewrite Hdst.
Qed.

Lemma entry_fold_wf h src dst d :
  cursor_foldM (entry_step h) src dst = Ok d ->
  (db_sorted dst = true -> db_sorted d = true) /\
  (forall k, k ∈ db_keys d -> k ∈ db_keys src \/ k ∈ db_keys dst).
Proof.
  revert dst. induction src as [|[k vb] src IH]; intros dst H; cbn [cursor_foldM] in H.
  - injection H as <-. split; [done|]. intros k Hk. by right.
  - apply bind_inv in H as (dst' & Hstep & H).
    apply entry_step_inv in Hstep as (o & Ho & ->).
    destruct (IH _ H) as [Hs Hkeys]. split.
    + intros Hd. apply Hs. destruct o; [by apply db_put_sorted|done].
    + intros k' Hk'. apply Hkeys in Hk' as [Hk'|Hk'].
      * left. unfold db_keys. rewrite fmap_cons. apply elem_of_cons. by right.
      * destruct o; [|by right]. apply db_put_keys in Hk' as [->|Hk']; [|by right].
        left. unfold db_keys. rewrite fmap_cons. apply elem_of_cons. by left.
Qed.

Lemma entry_fold_length h src dst d :
  db_sorted dst = true -> NoDup (db_keys src) ->
  (forall k, k ∈ db_keys src -> k ∉ db_keys dst) ->
  cursor_foldM (entry_step h) src dst = Ok d ->
  length d = (length dst + length (kept h src))%nat.
Proof.
  revert dst. induction src as [|[k vb] src IH]; intros dst Hs Hnd Hdisj H;
    cbn [cursor_foldM] in H.
  - injection H as <-. simpl. lia.
  - unfold db_keys in Hnd. rewrite fmap_cons in Hnd. apply NoDup_cons in Hnd as [Hk Hnd].
    apply bind_inv in H as (dst' & Hstep & H).
    apply entry_step_inv in Hstep as (o & Ho & ->).
    assert (Hkdst : db_get k dst = None).
    { apply db_get_None_keys. rewrite <- list_elem_of_In. apply Hdisj.
      unfold db_keys. rewrite fmap_cons. apply elem_of_cons. by left. }
    assert (Hs' : db_sorted match o with Some vb' => db_put k vb' dst | None => dst end = true)
      by (destruct o; [by apply db_put_sorted|done]).
    assert (Hdisj' : forall k', k' ∈ db_keys src ->
              k' ∉ db_keys match o with Some vb' => db_put k vb' dst | None => dst end).
    { intros k' Hk' Hin. destruct o as [vb'|].
      * apply db_put_keys in Hin as [->|Hin]; [done|].
        apply (Hdisj k'); [|done]. unfold db_keys. rewrite fmap_cons.
        apply elem_of_cons. by right.
      * apply (Hdisj k'); [|done]. unfold db_keys. rewrite fmap_cons.
        apply elem_of_cons. by right. }
    rewrite (IH _ Hs' Hnd Hdisj' H).
    unfold kept. cbn [List.filter fst snd]. rewrite Ho. destruct o as [vb'|].
    + pose proof (db_put_length k vb' dst Hs) as Hlen. rewrite Hkdst in Hlen.
      cbn [length]. fold (kept h src). lia.
    + fold (kept h src). lia.
Qed.

Lemma kernels_ok_spec eng T h w p :
  kernels_ok eng T h w = true -> 0 <= p < _partitions T ->
  entries_ok (h p) (env_read (_get_env_for_partition eng T p) w) = true.
Proof.
  unfold kernels_ok. rewrite forallb_forall. intros H Hp. apply H.
  apply list_elem_of_In, elem_of_seqZ. lia.
Qed.

Lemma length_concat_ext {A} (f g : Z -> list A) (ps : list Z) :
  (forall p, p ∈ ps -> length (f p) = length (g p)) ->
  length (concat (f <$> ps)) = length (concat (g <$> ps)).
Proof.
  induction ps as [|p ps IH]; intros H; [done|].
  rewrite !fmap_cons. cbn [concat]. rewrite !length_app.
  rewrite H by (apply elem_of_cons; by left).
  rewrite IH; [done|]. intros q Hq. apply H. apply elem_of_cons. by right.
Qed.

(** The derived table of a kernel that works entry by entry, read
    through the lookup of the source. *)
Lemma entrywise_table eng T out (h : Z -> bytes -> bytes -> result (option bytes)) w w' g :
  _partitions out = _partitions T ->
  wf_table eng T w = true ->
  (forall p, 0 <= p < _partitions T ->
     cursor_foldM (entry_step (h p)) (env_read (_get_env_for_partition eng T p) w) []
     = Ok (g p)) ->
  (forall p, 0 <= p < _partitions T ->
     env_read (_get_env_for_partition eng out p) w' = g p) ->
  (forall kb p, _hash_key_to_partition kb (_partitions T) = Ok p ->
     table_lookup eng out kb w' =
       match table_lookup eng T kb w with
       | Some vb => match h p kb vb with
                    | Ok (Some vb') => Some vb'
                    | _ => None
                    end
       | None => None
       end) /\
  (forall kb e, _hash_key_to_partition kb (_partitions T) = Raise e ->
     table_lookup eng out kb w' = None) /\
  count eng out w'
  = Z.of_nat (length (concat ((fun p => kept (h p) (env_read (_get_env_for_partition eng T p) w))
                                <$> seqZ 0 (_partitions T)))) /\
  wf_table eng out w' = true.
Proof.
  intros HN Hwf Hg Hout. split; [|split; [|split]].
  - intros kb p Hp. pose proof (hash_range _ _ _ Hp) as Hrange.
    assert (Hpin : p ∈ seqZ 0 (_partitions T)) by (apply elem_of_seqZ; lia).
    destruct (wf_table_spec eng T w p Hwf Hpin) as [Hs _].
    unfold table_lookup. rewrite HN, Hp, (Hout p Hrange).
    rewrite (entry_fold_get _ _ _ _ kb (db_sorted_NoDup _ Hs) (Hg p Hrange)).
    destruct (db_get kb _) as [vb|]; [|done].
    by destruct (h p kb vb) as [[vb'|]|].
  - intros kb e He. unfold table_lookup. by rewrite HN, He.
  - unfold count. rewrite count_fold, HN, Z.add_0_l. f_equal.
    apply length_concat_ext. intros p Hpin. pose proof Hpin as Hp. apply elem_of_seqZ in Hp.
    assert (Hrange : 0 <= p < _partitions T) by lia.
    destruct (wf_table_spec eng T w _ Hwf Hpin) as [Hs _].
    rewrite (Hout _ Hrange).
    assert (Hnil : forall k, k ∈ db_keys (env_read (_get_env_for_partition eng T p) w) ->
              k ∉ db_keys []) by (intros k _ H; by apply elem_of_nil in H).
    by rewrite (entry_fold_length (h p) _ [] _ eq_refl (db_sorted_NoDup _ Hs) Hnil
                  (Hg _ Hrange)).
  - unfold wf_table. apply forallb_forall. intros p Hp. rewrite HN in Hp.
    apply list_elem_of_In in Hp. pose proof Hp as Hp'. apply elem_of_seqZ in Hp'.
    assert (Hrange : 0 <= p < _partitions T) by lia.
    destruct (wf_table_spec eng T w p Hwf Hp) as [_ Hr].
    rewrite (Hout p Hrange). destruct (entry_fold_wf _ _ _ _ (Hg p Hrange)) as [Hs Hkeys].
    rewrite (Hs eq_refl). simpl. unfold routed_to. apply forallb_forall. intros k Hk.
    apply list_elem_of_In, Hkeys in Hk as [Hk|Hk]; [|by apply elem_of_nil in Hk].
    rewrite HN, (routed_to_spec T p _ k Hr Hk). by apply Z.eqb_eq.
Qed.

Lemma cursor_foldM_ext {S} (f g : S -> bytes * bytes -> result S) cursor s :
  (forall s kv, f s kv = g s kv) -> cursor_foldM f cursor s = cursor_foldM g cursor s.
Proof.
  intros H. revert s. induction cursor as [|kv cursor IH]; intros s; [done|].
  cbn [cursor_foldM]. rewrite H. destruct (g s kv) as [s'|]; [|done].
  rewrite !bind_Ok. apply IH.
Qed.

Lemma kept_all h d :
  (forall kv, kv ∈ d -> exists vb', h kv.1 kv.2 = Ok (Some vb')) -> kept h d = d.
Proof.
  intros H. induction d as [|kv d IH]; [done|]. unfold kept. cbn [List.filter].
  destruct (H kv) as [vb' ->]; [apply elem_of_cons; by left|]. fold (kept h d).
  rewrite IH; [done|]. intros kv' Hkv'. apply H. apply elem_of_cons. by right.
Qed.

(** ** [mapValues] *)

Lemma map_values_step_entry f dst kv :
  map_values_step f dst kv = entry_step (map_values_entry f) dst kv.
Proof.
  destruct kv as [kb vb]. unfold map_values_step, entry_step, map_values_entry. simpl.
  destruct (Pickle.loads vb) as [v|]; [|done]. rewrite !bind_Ok.
  destruct (f v); done.
Qed.

Lemma do_map_values_view eng t w :
  do_map_values eng t w =
    (d ← kernel_run (V_unary eng (fun f src dst => cursor_foldM (map_values_step f) src dst)) t w;
     Ok (kv_rtn (V_unary eng (fun f src dst => cursor_foldM (map_values_step f) src dst)) t,
         commit_dst (kv_dst (V_unary eng (fun f src dst =>
                                            cursor_foldM (map_values_step f) src dst)) t) d w)).
Proof. done. Qed.

(** X10: [mapValues] applies the function to every value and keeps the
    keys.  For a well-formed table with at least one partition, a result
    name that is not in use, and a function that returns on every stored
    value: the call returns a table with the same partition count in
    which a key holds the encoding of [f] applied to the decoded value
    the source holds for it, and no other key is present; the entry
    count is the source's and the result is well formed. *)
Theorem mapValues_values eng T f w :
  meta_table eng = META ->
  1 <= _partitions T ->
  wf_table eng T w = true ->
  fresh_result eng (_partitions T) w = true ->
  kernels_ok eng T (fun _ => map_values_entry f) w = true ->
  exists out w',
    mapValues eng T f w = Ok (out, w') /\
    _partitions out = _partitions T /\
    (forall kb, table_lookup eng out kb w' =
       match table_lookup eng T kb w with
       | Some vb => match Pickle.loads vb ≫= f with
                    | Ok v1 => Some (Pickle.dumps v1)
                    | Raise _ => None
                    end
       | None => None
       end) /\
    count eng out w' = count eng T w /\
    wf_table eng out w' = true.
Proof.
  intros Hmeta HN Hwf Hfresh Hok.
  assert (Hg : forall p, 0 <= p < _partitions T -> exists d,
            cursor_foldM (entry_step (map_values_entry f))
              (env_read (_get_env_for_partition eng T p) w) [] = Ok d).
  { intros p Hp. apply entry_fold_total. by apply (kernels_ok_spec eng T _ w p Hok). }
  set (g := fun p => match cursor_foldM (entry_step (map_values_entry f))
                             (env_read (_get_env_for_partition eng T p) w) [] with
                     | Ok d => d
                     | Raise _ => []
                     end).
  assert (Hg' : forall p, 0 <= p < _partitions T ->
            cursor_foldM (entry_step (map_values_entry f))
              (env_read (_get_env_for_partition eng T p) w) [] = Ok (g p)).
  { intros p Hp. unfold g. by destruct (Hg p Hp) as [d ->]. }
  destruct (unary_operator eng T f (do_map_values eng)
              (fun f src dst => cursor_foldM (map_values_step f) src dst) w g
              Hmeta (do_map_values_view eng) HN Hfresh) as (w' & Hrun & Hout & _).
  { intros p Hp. rewrite <- (Hg' p Hp). apply cursor_foldM_ext, map_values_step_entry. }
  eexists _, w'. split; [exact Hrun|]. split; [done|].
  destruct (entrywise_table eng T
              (DTable StoreType.IN_MEMORY (job_id eng) (uuid1 w).1 (_partitions T))
              (fun _ => map_values_entry f) w w' g eq_refl Hwf Hg' Hout)
    as (Hlookup & Hraise & Hcount & Hwf').
  split; [|split; [|done]].
  - intros kb.
    destruct (_hash_key_to_partition kb (_partitions T)) as [p|e] eqn:Hp.
    + rewrite (Hlookup kb p Hp). destruct (table_lookup eng T kb w) as [vb|]; [|done].
      unfold map_values_entry. destruct (Pickle.loads vb) as [v|]; [|done].
      rewrite !bind_Ok. by destruct (f v).
    + rewrite (Hraise kb e Hp). unfold table_lookup. by rewrite Hp.
  - rewrite Hcount. unfold count. rewrite count_fold, Z.add_0_l.
    apply (f_equal (fun l : list db => Z.of_nat (length (concat l)))).
    apply list_fmap_ext. intros i p Hi. apply lookup_seqZ in Hi as [-> Hi]. simpl.
    apply kept_all. intros [kb vb] Hkv.
    pose proof (kernels_ok_spec eng T _ w (0 + Z.of_nat i) Hok ltac:(lia)) as Hp.
    unfold entries_ok in Hp. rewrite forallb_forall in Hp.
    apply list_elem_of_In, Hp in Hkv. simpl in Hkv |- *.
    unfold map_values_entry in *. destruct (Pickle.loads vb) as [v|]; [|done].
    rewrite bind_Ok in Hkv |- *. destruct (f v); [|done]. by eexists.
Qed.

Lemma mapValues_values_witness :
  exists out w',
    mapValues eng0 T_L py_succ w_LR = Ok (out, w') /\
    _partitions out = _partitions T_L /\
    (forall kb, table_lookup eng0 out kb w' =
       match table_lookup eng0 T_L kb w_LR with
       | Some vb => match Pickle.loads vb ≫= py_succ with
                    | Ok v1 => Some (Pickle.dumps v1)
                    | Raise _ => None
                    end
       | None => None
       end) /\
    count eng0 out w' = count eng0 T_L w_LR /\
    wf_table eng0 out w' = true.
Proof.
  apply (mapValues_values eng0 T_L py_succ w_LR);
    [reflexivity|simpl; lia|vm_compute; reflexivity..].
Defined.

(** ** [filter] *)

Lemma filter_step_entry f dst kv :
  filter_step f dst kv = entry_step (filter_entry f) dst kv.
Proof.
  destruct kv as [kb vb]. unfold filter_step, entry_step, filter_entry. simpl.
  destruct (Pickle.loads kb) as [k|]; [|done]. rewrite !bind_Ok.
  destruct (f k) as [r|]; [|done]. rewrite !bind_Ok. by destruct (truthy r).
Qed.

Lemma do_filter_view eng t w :
  do_filter eng t w =
    (d ← kernel_run (V_unary eng (fun f src dst => cursor_foldM (filter_step f) src dst)) t w;
     Ok (kv_rtn (V_unary eng (fun f src dst => cursor_foldM (filter_step f) src dst)) t,
         commit_dst (kv_dst (V_unary eng (fun f src dst =>
                                            cursor_foldM (filter_step f) src dst)) t) d w)).
Proof. done. Qed.

(** X11: [filter] keeps the entries whose key satisfies the predicate;
    the predicate is applied to the decoded key alone and the value bytes
    are copied as they are.  For a well-formed table with at least one
    partition, a result name that is not in use and a predicate that
    returns on every stored key: the result holds a key with the source's
    bytes if the predicate's result for the key is true, and does not
    hold it otherwise; it is well formed and counts no more entries than
    the source. *)
Theorem filter_keys eng T f w :
  meta_table eng = META ->
  1 <= _partitions T ->
  wf_table eng T w = true ->
  fresh_result eng (_partitions T) w = true ->
  kernels_ok eng T (fun _ => filter_entry f) w = true ->
  exists out w',
    filter eng T f w = Ok (out, w') /\
    _partitions out = _partitions T /\
    (forall kb, table_lookup eng out kb w' =
       match table_lookup eng T kb w with
       | Some vb => match Pickle.loads kb ≫= f with
                    | Ok r => if truthy r then Some vb else None
                    | Raise _ => None
                    end
       | None => None
       end) /\
    count eng out w' <= count eng T w /\
    wf_table eng out w' = true.
Proof.
  intros Hmeta HN Hwf Hfresh Hok.
  assert (Hg : forall p, 0 <= p < _partitions T -> exists d,
            cursor_foldM (entry_step (filter_entry f))
              (env_read (_get_env_for_partition eng T p) w) [] = Ok d).
  { intros p Hp. apply entry_fold_total. by apply (kernels_ok_spec eng T _ w p Hok). }
  set (g := fun p => match cursor_foldM (entry_step (filter_entry f))
                             (env_read (_get_env_for_partition eng T p) w) [] with
                     | Ok d => d
                     | Raise _ => []
                     end).
  assert (Hg' : forall p, 0 <= p < _partitions T ->
            cursor_foldM (entry_step (filter_entry f))
              (env_read (_get_env_for_partition eng T p) w) [] = Ok (g p)).
  { intros p Hp. unfold g. by destruct (Hg p Hp) as [d ->]. }
  destruct (unary_operator eng T f (do_filter eng)
              (fun f src dst => cursor_foldM (filter_step f) src dst) w g
              Hmeta (do_filter_view eng) HN Hfresh) as (w' & Hrun & Hout & _).
  { intros p Hp. rewrite <- (Hg' p Hp). apply cursor_foldM_ext, filter_step_entry. }
  eexists _, w'. split; [exact Hrun|]. split; [done|].
  destruct (entrywise_table eng T
              (DTable StoreType.IN_MEMORY (job_id eng) (uuid1 w).1 (_partitions T))
              (fun _ => filter_entry f) w w' g eq_refl Hwf Hg' Hout)
    as (Hlookup & Hraise & Hcount & Hwf').
  split; [|split; [|done]].
  - intros kb.
    destruct (_hash_key_to_partition kb (_partitions T)) as [p|e] eqn:Hp.
    + rewrite (Hlookup kb p Hp). destruct (table_lookup eng T kb w) as [vb|]; [|done].
      unfold filter_entry. destruct (Pickle.loads kb) as [k|]; [|done].
      rewrite !bind_Ok. destruct (f k) as [r|]; [|done]. rewrite bind_Ok.
      by destruct (truthy r).
    + rewrite (Hraise kb e Hp). unfold table_lookup. by rewrite Hp.
  - rewrite Hcount. unfold count. rewrite count_fold, Z.add_0_l.
    apply inj_le. clear. induction (seqZ 0 (_partitions T)) as [|p ps IH]; [done|].
    rewrite !fmap_cons. cbn [concat]. rewrite !length_app.
    pose proof (filter_length_le
                  (fun kv : bytes * bytes => match filter_entry f kv.1 kv.2 with
                             | Ok (Some _) => true
                             | _ => false
                             end) (env_read (_get_env_for_partition eng T p) w)) as Hle.
    unfold kept at 1. lia.
Qed.

Lemma filter_keys_witness :
  exists out w',
    filter eng0 T_L py_is_a w_LR = Ok (out, w') /\
    _partitions out = _partitions T_L /\
    (forall kb, table_lookup eng0 out kb w' =
       match table_lookup eng0 T_L kb w_LR with
       | Some vb => match Pickle.loads kb ≫= py_is_a with
                    | Ok r => if truthy r then Some vb else None
                    | Raise _ => None
                    end
       | None => None
       end) /\
    count eng0 out w' <= count eng0 T_L w_LR /\
    wf_table eng0 out w' = true.
Proof.
  apply (filter_keys eng0 T_L py_is_a w_LR);
    [reflexivity|simpl; lia|vm_compute; reflexivity..].
Defined.

(** ** Binary operators on tables of the same partition count *)

Lemma table_lookup_aligned eng L R kb w p :
  _partitions R = _partitions L ->
  _hash_key_to_partition kb (_partitions L) = Ok p ->
  db_get kb (env_read (_get_env_for_partition eng R p) w) = table_lookup eng R kb w.
Proof. intros HN Hp. unfold table_lookup. by rewrite HN, Hp. Qed.

Lemma table_lookup_raise eng T kb w e :
  _hash_key_to_partition kb (_partitions T) = Raise e -> table_lookup eng T kb w = None.
Proof. intros H. unfold table_lookup. by rewrite H. Qed.

(** *** [subtractByKey] *)

Lemma subtract_fold_entry right left dst :
  cursor_foldM (entry_step (subtract_entry right)) left dst
  = Ok (fold_left (subtract_step right) left dst).
Proof.
  revert dst. induction left as [|[k vb] left IH]; intros dst; [done|].
  cbn [cursor_foldM fold_left].
  rewrite (entry_step_ok (subtract_entry right) dst k vb _ eq_refl), bind_Ok, IH.
  unfold subtract_step. by destruct (db_get k right).
Qed.

Lemma do_subtract_by_key_view {F} eng (t : _BinaryProcess.t F) w :
  do_subtract_by_key eng t w =
    (d ← kernel_run
           (V_binary eng (fun (_ : F) l r d => Ok (fold_left (subtract_step r) l d))) t w;
     Ok (kv_rtn (V_binary eng (fun (_ : F) l r d => Ok (fold_left (subtract_step r) l d))) t,
         commit_dst
           (kv_dst (V_binary eng (fun (_ : F) l r d => Ok (fold_left (subtract_step r) l d))) t)
           d w)).
Proof. done. Qed.

Lemma subtractByKey_rec_aligned depth eng self other w :
  _partitions other = _partitions self ->
  subtractByKey_rec (S depth) eng self other w =
    let '(func_id, pickled_function, w) :=
      _serialize_and_hash_func
        (_namespace self +:+ "." +:+ _name self +:+ "-"
         +:+ _namespace other +:+ "." +:+ _name other) w in
    let _task_info := TaskInfo (job_id eng) func_id pickled_function in
    '(results, w) ←
      run_tasks (do_subtract_by_key eng) (binary_tasks eng self other _task_info) w;
    result_table eng self results w.
Proof.
  intros HN. cbn [subtractByKey_rec]. rewrite bool_decide_false; [done|]. by intros H.
Qed.

(** X12: [subtractByKey] on tables of the same partition count removes
    the keys of the other table.  For a well-formed left table with at
    least one partition and a result name that is not in use, the call
    returns a table of the same partition count that holds a key, with
    the left table's bytes, exactly when the left table holds it and the
    right table does not; no value is decoded, and the result is well
    formed. *)
Theorem subtractByKey_aligned eng L R w :
  meta_table eng = META ->
  _partitions R = _partitions L ->
  1 <= _partitions L ->
  wf_table eng L w = true ->
  fresh_result eng (_partitions L) w = true ->
  exists out w',
    subtractByKey eng L R w = Ok (out, w') /\
    _partitions out = _partitions L /\
    (forall kb, table_lookup eng out kb w' =
       match table_lookup eng R kb w with
       | Some _ => None
       | None => table_lookup eng L kb w
       end) /\
    count eng out w' <= count eng L w /\
    wf_table eng out w' = true.
Proof.
  intros Hmeta HNR HN Hwf Hfresh.
  unfold subtractByKey. change recursion_limit with (S 999).
  rewrite subtractByKey_rec_aligned by done.
  set (h := fun p => subtract_entry (env_read (_get_env_for_partition eng R p) w)).
  set (g := fun p => fold_left (subtract_step (env_read (_get_env_for_partition eng R p) w))
                       (env_read (_get_env_for_partition eng L p) w) []).
  destruct (binary_operator eng L R
              (_namespace L +:+ "." +:+ _name L +:+ "-" +:+ _namespace R +:+ "." +:+ _name R)
              (do_subtract_by_key eng)
              (fun _ l r d => Ok (fold_left (subtract_step r) l d)) w g
              Hmeta (do_subtract_by_key_view eng) HN Hfresh) as (w' & Hrun & Hout & _).
  { intros p Hp. done. }
  eexists _, w'. split; [exact Hrun|]. split; [done|].
  destruct (entrywise_table eng L
              (DTable StoreType.IN_MEMORY (job_id eng) (uuid1 w).1 (_partitions L))
              h w w' g eq_refl Hwf) as (Hlookup & Hraise & Hcount & Hwf').
  { intros p Hp. apply subtract_fold_entry. }
  { done. }
  split; [|split; [|done]].
  - intros kb. destruct (_hash_key_to_partition kb (_partitions L)) as [p|e] eqn:Hp.
    + rewrite (Hlookup kb p Hp). unfold h, subtract_entry.
      rewrite (table_lookup_aligned eng L R kb w p HNR Hp).
      destruct (table_lookup eng L kb w) as [vb|]; destruct (table_lookup eng R kb w); done.
    + rewrite (Hraise kb e Hp), (table_lookup_raise eng L kb w e Hp).
      by destruct (table_lookup eng R kb w).
  - rewrite Hcount. unfold count. rewrite count_fold, Z.add_0_l.
    apply inj_le. clear. induction (seqZ 0 (_partitions L)) as [|p ps IH]; [done|].
    rewrite !fmap_cons. cbn [concat]. rewrite !length_app.
    pose proof (filter_length_le
                  (fun kv : bytes * bytes => match h p kv.1 kv.2 with
                             | Ok (Some _) => true
                             | _ => false
                             end) (env_read (_get_env_for_partition eng L p) w)) as Hle.
    unfold kept at 1. lia.
Qed.

Lemma subtractByKey_aligned_witness :
  exists out w',
    subtractByKey eng0 T_L T_R2 w_LR = Ok (out, w') /\
    _partitions out = _partitions T_L /\
    (forall kb, table_lookup eng0 out kb w' =
       match table_lookup eng0 T_R2 kb w_LR with
       | Some _ => None
       | None => table_lookup eng0 T_L kb w_LR
       end) /\
    count eng0 out w' <= count eng0 T_L w_LR /\
    wf_table eng0 out w' = true.
Proof.
  apply (subtractByKey_aligned eng0 T_L T_R2 w_LR);
    [reflexivity|reflexivity|simpl; lia|vm_compute; reflexivity..].
Defined.

(** *** [join] *)

Lemma join_step_entry f right dst kv :
  join_step f right dst kv = entry_step (join_entry f right) dst kv.
Proof.
  destruct kv as [kb vb]. unfold join_step, entry_step, join_entry. simpl.
  destruct (db_get kb right) as [v2b|]; [|done].
  destruct (Pickle.loads vb) as [v1|]; [|done]. rewrite !bind_Ok.
  destruct (Pickle.loads v2b) as [v2|]; [|done]. rewrite !bind_Ok.
  destruct (f v1 v2); done.
Qed.

Lemma do_join_view eng t w :
  do_join eng t w =
    (d ← kernel_run (V_binary eng (fun f l r d => cursor_foldM (join_step f r) l d)) t w;
     Ok (kv_rtn (V_binary eng (fun f l r d => cursor_foldM (join_step f r) l d)) t,
         commit_dst (kv_dst (V_binary eng (fun f l r d =>
                                             cursor_foldM (join_step f r) l d)) t) d w)).
Proof. done. Qed.

Lemma join_rec_aligned depth eng self other func w :
  _partitions other = _partitions self ->
  join_rec (S depth) eng self other func w =
    let '(func_id, pickled_function, w) := _serialize_and_hash_func func w in
    let _task_info := TaskInfo (job_id eng) func_id pickled_function in
    '(results, w) ← run_tasks (do_join eng) (binary_tasks eng self other _task_info) w;
    result_table eng self results w.
Proof.
  intros HN. cbn [join_rec]. rewrite bool_decide_false; [done|]. by intros H.
Qed.

(** X13: [join] on tables of the same partition count is the inner join
    by key.  For a well-formed left table with at least one partition, a
    result name that is not in use and a function that returns on the
    decoded values of every key both tables hold: the call returns a
    table of the same partition count that holds a key exactly when both
    tables hold it, with the encoding of [f(left value, right value)];
    the result is well formed and counts no more entries than the left
    table. *)
Theorem join_aligned eng L R f w :
  meta_table eng = META ->
  _partitions R = _partitions L ->
  1 <= _partitions L ->
  wf_table eng L w = true ->
  fresh_result eng (_partitions L) w = true ->
  kernels_ok eng L (fun p => join_entry f (env_read (_get_env_for_partition eng R p) w)) w
  = true ->
  exists out w',
    join eng L R f w = Ok (out, w') /\
    _partitions out = _partitions L /\
    (forall kb, table_lookup eng out kb w' =
       match table_lookup eng L kb w, table_lookup eng R kb w with
       | Some lv, Some rv =>
           match (v1 ← Pickle.loads lv; v2 ← Pickle.loads rv; f v1 v2) with
           | Ok v3 => Some (Pickle.dumps v3)
           | Raise _ => None
           end
       | _, _ => None
       end) /\
    count eng out w' <= count eng L w /\
    wf_table eng out w' = true.
Proof.
  intros Hmeta HNR HN Hwf Hfresh Hok.
  unfold join. change recursion_limit with (S 999).
  rewrite join_rec_aligned by done.
  set (h := fun p => join_entry f (env_read (_get_env_for_partition eng R p) w)).
  assert (Hg : forall p, 0 <= p < _partitions L -> exists d,
            cursor_foldM (entry_step (h p))
              (env_read (_get_env_for_partition eng L p) w) [] = Ok d).
  { intros p Hp. apply entry_fold_total. by apply (kernels_ok_spec eng L _ w p Hok). }
  set (g := fun p => match cursor_foldM (entry_step (h p))
                             (env_read (_get_env_for_partition eng L p) w) [] with
                     | Ok d => d
                     | Raise _ => []
                     end).
  assert (Hg' : forall p, 0 <= p < _partitions L ->
            cursor_foldM (entry_step (h p))
              (env_read (_get_env_for_partition eng L p) w) [] = Ok (g p)).
  { intros p Hp. unfold g. by destruct (Hg p Hp) as [d ->]. }
  destruct (binary_operator eng L R f (do_join eng)
              (fun f l r d => cursor_foldM (join_step f r) l d) w g
              Hmeta (do_join_view eng) HN Hfresh) as (w' & Hrun & Hout & _).
  { intros p Hp. rewrite <- (Hg' p Hp). apply cursor_foldM_ext. intros s kv.
    apply join_step_entry. }
  eexists _, w'. split; [exact Hrun|]. split; [done|].
  destruct (entrywise_table eng L
              (DTable StoreType.IN_MEMORY (job_id eng) (uuid1 w).1 (_partitions L))
              h w w' g eq_refl Hwf Hg' Hout) as (Hlookup & Hraise & Hcount & Hwf').
  split; [|split; [|done]].
  - intros kb. destruct (_hash_key_to_partition kb (_partitions L)) as [p|e] eqn:Hp.
    + rewrite (Hlookup kb p Hp). unfold h, join_entry.
      rewrite (table_lookup_aligned eng L R kb w p HNR Hp).
      destruct (table_lookup eng L kb w) as [lv|]; [|done].
      destruct (table_lookup eng R kb w) as [rv|]; [|done].
      destruct (Pickle.loads lv) as [v1|]; [|done]. rewrite !bind_Ok.
      destruct (Pickle.loads rv) as [v2|]; [|done]. rewrite !bind_Ok.
      by destruct (f v1 v2).
    + by rewrite (Hraise kb e Hp), (table_lookup_raise eng L kb w e Hp).
  - rewrite Hcount. unfold count. rewrite count_fold, Z.add_0_l.
    apply inj_le. clear. induction (seqZ 0 (_partitions L)) as [|p ps IH]; [done|].
    rewrite !fmap_cons. cbn [concat]. rewrite !length_app.
    pose proof (filter_length_le
                  (fun kv : bytes * bytes => match h p kv.1 kv.2 with
                             | Ok (Some _) => true
                             | _ => false
                             end) (env_read (_get_env_for_partition eng L p) w)) as Hle.
    unfold kept at 1. lia.
Qed.

Lemma join_aligned_witness :
  exists out w',
    join eng0 T_L T_R2 py_add w_LR = Ok (out, w') /\
    _partitions out = _partitions T_L /\
    (forall kb, table_lookup eng0 out kb w' =
       match table_lookup eng0 T_L kb w_LR, table_lookup eng0 T_R2 kb w_LR with
       | Some lv, Some rv =>
           match (v1 ← Pickle.loads lv; v2 ← Pickle.loads rv; py_add v1 v2) with
           | Ok v3 => Some (Pickle.dumps v3)
           | Raise _ => None
           end
       | _, _ => None
       end) /\
    count eng0 out w' <= count eng0 T_L w_LR /\
    wf_table eng0 out w' = true.
Proof.
  apply (join_aligned eng0 T_L T_R2 py_add w_LR);
    [reflexivity|reflexivity|simpl; lia|vm_compute; reflexivity..].
Defined.

(** *** [union] with any merge function *)

Lemma union_left_step_entry f right dst kv :
  union_left_step f right dst kv = entry_step (union_entry f right) dst kv.
Proof.
  destruct kv as [kb vb]. unfold union_left_step, entry_step, union_entry. simpl.
  destruct (db_get kb right) as [rvb|]; [|done].
  destruct (Pickle.loads vb) as [lv|]; [|done]. rewrite !bind_Ok.
  destruct (Pickle.loads rvb) as [rv|]; [|done]. rewrite !bind_Ok.
  destruct (f lv rv); done.
Qed.

Lemma union_right_get right dst kb :
  db_get kb (fold_left union_right_step right dst)
  = match db_get kb dst with Some x => Some x | None => db_get kb right end.
Proof.
  revert dst. induction right as [|[k rv] right IH]; intros dst.
  - simpl. by destruct (db_get kb dst).
  - cbn [fold_left]. rewrite IH. unfold union_right_step. cbn [db_get].
    destruct (bytes_eqb kb k) eqn:E.
    + apply bytes_eqb_eq in E as ->. destruct (db_get k dst) as [x|] eqn:Ed.
      * by rewrite Ed.
      * by rewrite db_get_put_eq.
    + destruct (db_get k dst) eqn:Ed; [done|].
      rewrite db_get_put_ne; [done|]. intros ->. by rewrite bytes_eqb_refl in E.
Qed.

Lemma union_right_wf right dst :
  (db_sorted dst = true -> db_sorted (fold_left union_right_step right dst) = true) /\
  (forall k, k ∈ db_keys (fold_left union_right_step right dst) ->
     k ∈ db_keys right \/ k ∈ db_keys dst).
Proof.
  revert dst. induction right as [|[k rv] right IH]; intros dst.
  - split; [done|]. intros k Hk. by right.
  - cbn [fold_left]. destruct (IH (union_right_step dst (k, rv))) as [Hs Hkeys]. split.
    + intros Hd. apply Hs. unfold union_right_step.
      destruct (db_get k dst); [done|]. by apply db_put_sorted.
    + intros k' Hk'. apply Hkeys in Hk' as [Hk'|Hk'].
      * left. unfold db_keys. rewrite fmap_cons. apply elem_of_cons. by right.
      * unfold union_right_step in Hk'. destruct (db_get k dst); [by right|].
        apply db_put_keys in Hk' as [->|Hk']; [|by right].
        left. unfold db_keys. rewrite fmap_cons. apply elem_of_cons. by left.
Qed.

Lemma do_union_binary_view eng t w :
  do_union eng t w =
    (d ← kernel_run (V_binary eng union_db) t w;
     Ok (kv_rtn (V_binary eng union_db) t, commit_dst (kv_dst (V_binary eng union_db) t) d w)).
Proof. done. Qed.

(** X14: [union] on tables of the same partition count, for any merge
    function.  For well-formed tables with at least one partition, a
    result name that is not in use and a merge function that returns on
    the decoded values of every key both tables hold: the result holds a
    key of the left table alone with the left table's bytes, a key of the
    right table alone with the right table's bytes, a key of both with
    the encoding of [f(left value, right value)], and no other key; it is
    well formed. *)
Theorem union_merges eng L R f w :
  meta_table eng = META ->
  _partitions R = _partitions L ->
  1 <= _partitions L ->
  wf_table eng L w = true ->
  wf_table eng R w = true ->
  fresh_result eng (_partitions L) w = true ->
  kernels_ok eng L (fun p => union_entry f (env_read (_get_env_for_partition eng R p) w)) w
  = true ->
  exists out w',
    union eng L R f w = Ok (out, w') /\
    _partitions out = _partitions L /\
    (forall kb, table_lookup eng out kb w' =
       match table_lookup eng L kb w, table_lookup eng R kb w with
       | Some lv, Some rv =>
           match (v1 ← Pickle.loads lv; v2 ← Pickle.loads rv; f v1 v2) with
           | Ok v3 => Some (Pickle.dumps v3)
           | Raise _ => None
           end
       | Some lv, None => Some lv
       | None, Some rv => Some rv
       | None, None => None
       end) /\
    wf_table eng out w' = true.
Proof.
  intros Hmeta HNR HN Hwf HwfR Hfresh Hok.
  unfold union. change recursion_limit with (S 999).
  rewrite union_rec_aligned by done.
  set (h := fun p => union_entry f (env_read (_get_env_for_partition eng R p) w)).
  assert (Hg : forall p, 0 <= p < _partitions L -> exists d,
            cursor_foldM (entry_step (h p))
              (env_read (_get_env_for_partition eng L p) w) [] = Ok d).
  { intros p Hp. apply entry_fold_total. by apply (kernels_ok_spec eng L _ w p Hok). }
  set (g1 := fun p => match cursor_foldM (entry_step (h p))
                              (env_read (_get_env_for_partition eng L p) w) [] with
                      | Ok d => d
                      | Raise _ => []
                      end).
  assert (Hg1 : forall p, 0 <= p < _partitions L ->
            cursor_foldM (entry_step (h p))
              (env_read (_get_env_for_partition eng L p) w) [] = Ok (g1 p)).
  { intros p Hp. unfold g1. by destruct (Hg p Hp) as [d ->]. }
  set (g := fun p => fold_left union_right_step
                       (env_read (_get_env_for_partition eng R p) w) (g1 p)).
  destruct (binary_operator eng L R f (do_union eng) union_db w g
              Hmeta (do_union_binary_view eng) HN Hfresh) as (w' & Hrun & Hout & _).
  { intros p Hp. unfold union_db.
    rewrite (cursor_foldM_ext _ (entry_step (h p)))
      by (intros s kv; apply union_left_step_entry).
    by rewrite (Hg1 p Hp). }
  eexists _, w'. split; [exact Hrun|]. split; [done|]. split.
  - intros kb. destruct (_hash_key_to_partition kb (_partitions L)) as [p|e] eqn:Hp.
    + pose proof (hash_range _ _ _ Hp) as Hrange.
      assert (Hpin : p ∈ seqZ 0 (_partitions L)) by (apply elem_of_seqZ; lia).
      destruct (wf_table_spec eng L w p Hwf Hpin) as [Hs _].
      rewrite <- (table_lookup_aligned eng L R kb w p HNR Hp).
      rewrite (table_lookup_hash eng L kb w p Hp).
      unfold table_lookup. simpl _partitions. rewrite Hp, (Hout p Hrange). unfold g.
      rewrite union_right_get.
      rewrite (entry_fold_get _ _ _ _ kb (db_sorted_NoDup _ Hs) (Hg1 p Hrange)).
      destruct (db_get kb (env_read (_get_env_for_partition eng L p) w)) as [lv|] eqn:El;
        [|cbn [db_get]; by destruct (db_get kb (env_read (_get_env_for_partition eng R p) w))].
      pose proof (kernels_ok_spec eng L _ w p Hok Hrange) as Hent.
      unfold entries_ok in Hent. rewrite forallb_forall in Hent.
      specialize (Hent (kb, lv) (db_get_Some_In _ _ _ El)). cbn [fst snd] in Hent.
      unfold h in *. unfold union_entry in *.
      destruct (db_get kb (env_read (_get_env_for_partition eng R p) w)) as [rv|]; [|done].
      destruct (Pickle.loads lv) as [v1|]; [|done]. rewrite !bind_Ok in Hent. rewrite !bind_Ok.
      destruct (Pickle.loads rv) as [v2|]; [|done]. rewrite !bind_Ok in Hent. rewrite !bind_Ok.
      destruct (f v1 v2); [|done]. by rewrite !bind_Ok.
    + unfold table_lookup. simpl _partitions. by rewrite HNR, Hp.
  - unfold wf_table. apply forallb_forall. intros p Hp. simpl _partitions in Hp.
    apply list_elem_of_In in Hp. pose proof Hp as Hp'. apply elem_of_seqZ in Hp'.
    assert (Hrange : 0 <= p < _partitions L) by lia.
    destruct (wf_table_spec eng L w p Hwf Hp) as [_ Hr].
    assert (HpR : p ∈ seqZ 0 (_partitions R)) by (by rewrite HNR).
    destruct (wf_table_spec eng R w p HwfR HpR) as [_ HrR].
    rewrite (Hout p Hrange). unfold g.
    destruct (entry_fold_wf _ _ _ _ (Hg1 p Hrange)) as [Hs1 Hkeys1].
    destruct (union_right_wf (env_read (_get_env_for_partition eng R p) w) (g1 p))
      as [Hs2 Hkeys2].
    rewrite (Hs2 (Hs1 eq_refl)). simpl. unfold routed_to. apply forallb_forall. intros k Hk.
    simpl _partitions.
    apply list_elem_of_In, Hkeys2 in Hk as [Hk|Hk].
    + rewrite <- HNR, (routed_to_spec R p _ k HrR Hk). by apply Z.eqb_eq.
    + apply Hkeys1 in Hk as [Hk|Hk]; [|by apply elem_of_nil in Hk].
      rewrite (routed_to_spec L p _ k Hr Hk). by apply Z.eqb_eq.
Qed.

Lemma union_merges_witness :
  exists out w',
    union eng0 T_L T_R2 py_add w_LR = Ok (out, w') /\
    _partitions out = _partitions T_L /\
    (forall kb, table_lookup eng0 out kb w' =
       match table_lookup eng0 T_L kb w_LR, table_lookup eng0 T_R2 kb w_LR with
       | Some lv, Some rv =>
           match (v1 ← Pickle.loads lv; v2 ← Pickle.loads rv; py_add v1 v2) with
           | Ok v3 => Some (Pickle.dumps v3)
           | Raise _ => None
           end
       | Some lv, None => Some lv
       | None, Some rv => Some rv
       | None, None => None
       end) /\
    wf_table eng0 out w' = true.
Proof.
  apply (union_merges eng0 T_L T_R2 py_add w_LR);
    [reflexivity|reflexivity|simpl; lia|vm_compute; reflexivity..].
Defined.

(** ** Operators on a table without partitions *)

Lemma submit_no_partition {F} eng T (func : F)
    (do_f : _UnaryProcess.t F -> world -> result (_Operand.t * world)) w :
  _partitions T < 1 ->
  (_submit_to_pool eng T func do_f w
     ≫= fun '(results, w) => result_table eng T results w) = Raise UnboundLocalError.
Proof.
  intros HN. unfold _submit_to_pool, _serialize_and_hash_func.
  destruct (uuid1 w) as [fid wu]. by rewrite seqZ_nonpos by lia.
Qed.

Lemma binary_no_partition {F} eng T R (func : F)
    (do_f : _BinaryProcess.t F -> world -> result (_Operand.t * world)) w :
  _partitions T < 1 ->
  (let '(func_id, pickled_function, w) := _serialize_and_hash_func func w in
   let _task_info := TaskInfo (job_id eng) func_id pickled_function in
   '(results, w) ← run_tasks do_f (binary_tasks eng T R _task_info) w;
   result_table eng T results w) = Raise UnboundLocalError.
Proof.
  intros HN. unfold _serialize_and_hash_func, binary_tasks.
  destruct (uuid1 w) as [fid wu]. by rewrite seqZ_nonpos by lia.
Qed.

(** X15: a table whose partition count is below one (as [table(name,
    namespace, 0)] returns it) makes every table-valued operator on it
    alone fail with [UnboundLocalError], the exception of reading the
    loop variable [result] that no task has bound, while [reduce] returns
    [None]; [join], [union] and [subtractByKey] fail in the same way when
    the other table has the same partition count. *)
Theorem operators_without_partition eng T fv fk fp fm f2 fraction seed w :
  _partitions T < 1 ->
  mapValues eng T fv w = Raise UnboundLocalError /\
  filter eng T fk w = Raise UnboundLocalError /\
  mapPartitions eng T fp w = Raise UnboundLocalError /\
  map eng T fm w = Raise UnboundLocalError /\
  sample eng T fraction seed w = Raise UnboundLocalError /\
  value_of (reduce eng T f2 w) = Ok PyNone /\
  (forall R, _partitions R = _partitions T ->
     join eng T R f2 w = Raise UnboundLocalError /\
     union eng T R f2 w = Raise UnboundLocalError /\
     subtractByKey eng T R w = Raise UnboundLocalError).
Proof.
  intros HN. split; [|split; [|split; [|split; [|split; [|split]]]]].
  - by apply submit_no_partition.
  - by apply submit_no_partition.
  - by apply submit_no_partition.
  - by apply submit_no_partition.
  - by apply submit_no_partition.
  - unfold reduce, _submit_to_pool_values, _serialize_and_hash_func.
    destruct (uuid1 w) as [fid wu]. by rewrite seqZ_nonpos by lia.
  - intros R HR. split; [|split].
    + unfold join. change recursion_limit with (S 999). rewrite join_rec_aligned by done.
      by apply binary_no_partition.
    + unfold union. change recursion_limit with (S 999). rewrite union_rec_aligned by done.
      by apply binary_no_partition.
    + unfold subtractByKey. change recursion_limit with (S 999).
      rewrite subtractByKey_rec_aligned by done. by apply binary_no_partition.
Qed.

Lemma operators_without_partition_witness :
  mapValues eng0 (DTable "LMDB" "ns" "e" 0) py_succ w_init = Raise UnboundLocalError /\
  filter eng0 (DTable "LMDB" "ns" "e" 0) py_is_a w_init = Raise UnboundLocalError /\
  mapPartitions eng0 (DTable "LMDB" "ns" "e" 0) (fun _ => Ok PyNone) w_init
  = Raise UnboundLocalError /\
  map eng0 (DTable "LMDB" "ns" "e" 0) (fun k v => Ok (k, v)) w_init = Raise UnboundLocalError /\
  sample eng0 (DTable "LMDB" "ns" "e" 0) one_half (Some 1) w_init = Raise UnboundLocalError /\
  value_of (reduce eng0 (DTable "LMDB" "ns" "e" 0) py_add w_init) = Ok PyNone /\
  (forall R, _partitions R = _partitions (DTable "LMDB" "ns" "e" 0) ->
     join eng0 (DTable "LMDB" "ns" "e" 0) R py_add w_init = Raise UnboundLocalError /\
     union eng0 (DTable "LMDB" "ns" "e" 0) R py_add w_init = Raise UnboundLocalError /\
     subtractByKey eng0 (DTable "LMDB" "ns" "e" 0) R w_init = Raise UnboundLocalError).
Proof.
  apply (operators_without_partition eng0 (DTable "LMDB" "ns" "e" 0)
           py_succ py_is_a (fun _ => Ok PyNone) (fun k v => Ok (k, v)) py_add one_half (Some 1)
           w_init). simpl. lia.
Defined.

(** ** [reduce] *)

Section Reduce.
Variable op : pyobj -> pyobj -> pyobj.
Hypothesis op_assoc : forall a b c, op (op a b) c = op a (op b c).
Hypothesis op_not_None : forall a b, is_not_None (op a b) = true.

Let func (a b : pyobj) : result pyobj := Ok (op a b).

Lemma fold_left_op_assoc l a v : fold_left op l (op a v) = op a (fold_left op l v).
Proof.
  revert v. induction l as [|x l IH]; intros v; [done|].
  cbn [fold_left]. by rewrite op_assoc, IH.
Qed.

Lemma fold_left_not_None l v :
  is_not_None v = true -> is_not_None (fold_left op l v) = true.
Proof.
  revert v. induction l as [|x l IH]; intros v Hv; [done|].
  cbn [fold_left]. apply IH, op_not_None.
Qed.

Lemma reduce_values_not_None vs :
  forallb is_not_None vs = true -> vs <> [] -> is_not_None (reduce_values op vs) = true.
Proof.
  destruct vs as [|v vs]; [done|]. cbn [forallb reduce_values]. intros H _.
  apply andb_true_iff in H as [Hv _]. by apply fold_left_not_None.
Qed.

(** The loop of [do_reduce] once a value has been seen. *)
Lemma reduce_fold_some d vs acc :
  decode_values d = Ok vs -> is_not_None acc = true ->
  cursor_foldM (reduce_step func) d acc = Ok (fold_left op vs acc).
Proof.
  revert vs acc. induction d as [|[k vb] d IH]; intros vs acc Hd Hacc.
  - by injection Hd as <-.
  - unfold decode_values in Hd. rewrite fmap_cons in Hd. cbn [iterate] in Hd.
    apply bind_inv in Hd as (v & Hv & Hd). apply bind_inv in Hd as (vs' & Hvs' & Hd).
    injection Hd as <-. cbn [cursor_foldM reduce_step]. simpl in Hv. rewrite Hv, bind_Ok.
    destruct acc; [done|..]; unfold func; rewrite bind_Ok; cbn [fold_left];
      apply IH; try done; apply op_not_None.
Qed.

Lemma do_reduce_partition d vs :
  decode_values d = Ok vs -> forallb is_not_None vs = true ->
  cursor_foldM (reduce_step func) d PyNone = Ok (reduce_values op vs).
Proof.
  destruct d as [|[k vb] d]; intros Hd Hvs.
  - by injection Hd as <-.
  - unfold decode_values in Hd. rewrite fmap_cons in Hd. cbn [iterate] in Hd.
    apply bind_inv in Hd as (v & Hv & Hd). apply bind_inv in Hd as (vs' & Hvs' & Hd).
    injection Hd as <-. cbn [cursor_foldM reduce_step]. simpl in Hv. rewrite Hv, !bind_Ok.
    cbn [forallb] in Hvs. apply andb_true_iff in Hvs as [Hnn _].
    by apply reduce_fold_some.
Qed.

(** The fold of the partition results is the fold of all values. *)
Lemma reduce_loop_fold rs acc : reduce_loop func acc rs = Ok (fold_left op rs acc).
Proof.
  revert acc. induction rs as [|r rs IH]; intros acc; [done|].
  cbn [reduce_loop fold_left]. change (func acc r) with (Ok (op acc r)).
  rewrite bind_Ok. apply IH.
Qed.

Lemma fold_left_concat_values (vss : list (list pyobj)) acc :
  Forall (fun vs => forallb is_not_None vs = true) vss ->
  fold_left op (List.filter is_not_None (reduce_values op <$> vss)) acc
  = fold_left op (concat vss) acc.
Proof.
  revert acc. induction vss as [|vs vss IH]; intros acc Hall; [done|].
  apply Forall_cons in Hall as [Hvs Hall]. rewrite fmap_cons. cbn [List.filter concat].
  rewrite fold_left_app. destruct vs as [|v vs].
  - simpl. by apply IH.
  - rewrite (reduce_values_not_None (v :: vs)) by done.
    cbn [fold_left reduce_values]. rewrite IH by done.
    f_equal. symmetry. apply fold_left_op_assoc.
Qed.

Lemma reduce_results_fold (vss : list (list pyobj)) :
  Forall (fun vs => forallb is_not_None vs = true) vss ->
  match List.filter is_not_None (reduce_values op <$> vss) with
  | [] => Ok PyNone
  | rtn :: rs' => reduce_loop func rtn rs'
  end = Ok (reduce_values op (concat vss)).
Proof.
  induction vss as [|vs vss IH]; intros Hall; [done|].
  apply Forall_cons in Hall as [Hvs Hall]. rewrite fmap_cons. cbn [List.filter concat].
  destruct vs as [|v vs].
  - simpl. by apply IH.
  - rewrite (reduce_values_not_None (v :: vs)) by done.
    rewrite reduce_loop_fold, fold_left_concat_values by done.
    cbn [reduce_values app]. by rewrite fold_left_app.
Qed.

End Reduce.

Lemma iterate_app {A} (l1 l2 : list (result A)) :
  iterate (l1 ++ l2) = (a ← iterate l1; b ← iterate l2; Ok (a ++ b)).
Proof.
  induction l1 as [|r l1 IH].
  - simpl. by destruct (iterate l2).
  - cbn [app iterate]. destruct r as [x|]; [|done]. rewrite !bind_Ok, IH.
    destruct (iterate l1) as [a|]; [|done]. rewrite !bind_Ok.
    destruct (iterate l2) as [b|]; [|done]. by rewrite !bind_Ok.
Qed.

Lemma decode_values_app d1 d2 :
  decode_values (d1 ++ d2)
  = (a ← decode_values d1; b ← decode_values d2; Ok (a ++ b)).
Proof. unfold decode_values. by rewrite fmap_app, iterate_app. Qed.

(** The values of a table, partition by partition. *)
Lemma decode_values_concat (ds : list db) vs :
  decode_values (concat ds) = Ok vs ->
  exists vss, Forall2 (fun d vs => decode_values d = Ok vs) ds vss /\ vs = concat vss.
Proof.
  revert vs. induction ds as [|d ds IH]; intros vs H.
  - injection H as <-. by exists [].
  - cbn [concat] in H. rewrite decode_values_app in H.
    apply bind_inv in H as (a & Ha & H). apply bind_inv in H as (b & Hb & H).
    injection H as <-. destruct (IH b Hb) as (vss & Hall & ->).
    exists (a :: vss). split; [by constructor|done].
Qed.

Lemma forallb_concat {A} (f : A -> bool) (ls : list (list A)) :
  forallb f (concat ls) = true -> Forall (fun l => forallb f l = true) ls.
Proof.
  induction ls as [|l ls IH]; intros H; [constructor|].
  cbn [concat] in H. rewrite forallb_app in H. apply andb_true_iff in H as [H1 H2].
  constructor; [done|by apply IH].
Qed.

Lemma run_value_tasks_spec {T R} (K : T -> world -> result R) tasks w (rs : list R) :
  Forall2 (fun t r => K t w = Ok r) tasks rs -> run_value_tasks K tasks w = Ok rs.
Proof.
  induction 1 as [|t r tasks rs Ht _ IH]; [done|].
  cbn [run_value_tasks]. by rewrite Ht, bind_Ok, IH, bind_Ok.
Qed.

Lemma fold_left_Permutation (op : pyobj -> pyobj -> pyobj) l l' a :
  (forall a b c, op (op a b) c = op a (op b c)) ->
  (forall a b, op a b = op b a) ->
  l ≡ₚ l' -> fold_left op l a = fold_left op l' a.
Proof.
  intros Hassoc Hcomm Hperm. revert a.
  induction Hperm as [|x l l' _ IH|x y l|l l' l'' _ IH1 _ IH2]; intros a.
  - done.
  - cbn [fold_left]. apply IH.
  - cbn [fold_left]. f_equal. rewrite !Hassoc. f_equal. apply Hcomm.
  - by rewrite IH1, IH2.
Qed.

Lemma reduce_values_Permutation (op : pyobj -> pyobj -> pyobj) vs vs' :
  (forall a b c, op (op a b) c = op a (op b c)) ->
  (forall a b, op a b = op b a) ->
  vs ≡ₚ vs' -> reduce_values op vs = reduce_values op vs'.
Proof.
  intros Hassoc Hcomm Hperm.
  induction Hperm as [|x l l' Hp IH|x y l|l l' l'' _ IH1 _ IH2].
  - done.
  - cbn [reduce_values]. by apply fold_left_Permutation.
  - cbn [reduce_values fold_left]. f_equal. apply Hcomm.
  - by rewrite IH1, IH2.
Qed.

Lemma decode_values_Permutation d d' vs :
  d ≡ₚ d' -> decode_values d = Ok vs ->
  exists vs', decode_values d' = Ok vs' /\ vs ≡ₚ vs'.
Proof.
  intros Hperm. revert vs.
  induction Hperm as [|x l l' _ IH|x y l|l l' l'' _ IH1 _ IH2]; intros vs H.
  - by exists vs.
  - unfold decode_values in H |- *. rewrite fmap_cons in H |- *. cbn [iterate] in H |- *.
    apply bind_inv in H as (v & Hv & H). apply bind_inv in H as (vs0 & Hvs0 & H).
    injection H as <-. destruct (IH vs0 Hvs0) as (vs1 & Hvs1 & Hp).
    unfold decode_values in Hvs1. rewrite Hv, bind_Ok, Hvs1, bind_Ok.
    eexists. split; [done|]. by constructor.
  - unfold decode_values in H |- *. rewrite !fmap_cons in H |- *. cbn [iterate] in H |- *.
    apply bind_inv in H as (v1 & Hv1 & H). apply bind_inv in H as (vs0 & H0 & H).
    apply bind_inv in H0 as (v2 & Hv2 & H0). apply bind_inv in H0 as (vs1 & Hvs1 & H0).
    injection H0 as <-. injection H as <-.
    rewrite Hv2, bind_Ok, Hv1, bind_Ok, Hvs1, !bind_Ok.
    eexists. split; [done|]. apply perm_swap.
  - destruct (IH1 vs H) as (vs1 & H1 & Hp1). destruct (IH2 vs1 H1) as (vs2 & H2 & Hp2).
    exists vs2. split; [done|]. by etrans.
Qed.

Lemma iterate_collect_values raw kvs :
  iterate (merge_yield true <$> raw) = Ok kvs -> decode_values raw = Ok kvs.*2.
Proof.
  revert kvs. induction raw as [|[kb vb] raw IH]; intros kvs H.
  - by injection H as <-.
  - rewrite fmap_cons in H. cbn [iterate] in H.
    apply bind_inv in H as ([k v] & Hkv & H). apply bind_inv in H as (kvs' & Hkvs' & H).
    injection H as <-. unfold merge_yield in Hkv. simpl in Hkv.
    apply bind_inv in Hkv as (k' & Hk & Hkv). apply bind_inv in Hkv as (v' & Hv & Hkv).
    injection Hkv as <- <-.
    unfold decode_values. rewrite fmap_cons. cbn [iterate]. simpl.
    rewrite Hv, bind_Ok. specialize (IH kvs' Hkvs'). unfold decode_values in IH.
    by rewrite IH, bind_Ok.
Qed.

(** X16: [reduce] with an associative function folds the values
    partition after partition.  For an associative operation that never
    returns [None] and a table whose values decode to objects other than
    [None], [reduce] returns the left fold of the operation over the
    values of partition 0 in key order, then those of partition 1, and
    so on ([None] for a table without entries).  If the operation is
    also commutative, this is the fold over the values in the order of
    [collect]. *)
Theorem reduce_folds eng T op vs w :
  (forall a b c, op (op a b) c = op a (op b c)) ->
  (forall a b, is_not_None (op a b) = true) ->
  table_values eng T w = Ok vs ->
  forallb is_not_None vs = true ->
  value_of (reduce eng T (fun a b => Ok (op a b)) w) = Ok (reduce_values op vs) /\
  ((forall a b, op a b = op b a) ->
   forall kvs, iterate (collect eng T true w) = Ok kvs ->
     value_of (reduce eng T (fun a b => Ok (op a b)) w) = Ok (reduce_values op kvs.*2)).
Proof.
  intros Hassoc Hnn Hvs Hall.
  assert (Hred : value_of (reduce eng T (fun a b => Ok (op a b)) w)
                 = Ok (reduce_values op vs)).
  { unfold table_values in Hvs.
    apply decode_values_concat in Hvs as (vss & Hvss & ->).
    pose proof (forallb_concat _ _ Hall) as Hall'.
    unfold reduce, _submit_to_pool_values, _serialize_and_hash_func.
    destruct (uuid1 w) as [fid wu] eqn:Hu.
    assert (Hwu : forall env, env_read env wu = env_read env w).
    { intros env. change wu with (fid, wu).2. rewrite <- Hu. apply env_read_uuid1. }
    rewrite (run_value_tasks_spec _ _ _ (reduce_values op <$> vss)).
    - rewrite bind_Ok, bind_Ok. cbv beta iota.
      pose proof (reduce_results_fold op Hassoc Hnn vss Hall') as Hfold.
      destruct (List.filter is_not_None (reduce_values op <$> vss)) as [|rtn rs'].
      + simpl. by injection Hfold as <-.
      + cbv zeta in Hfold. rewrite Hfold. done.
    - unfold collect_cursors in Hvss. apply Forall2_fmap_l in Hvss.
      apply Forall2_fmap. revert Hvss Hall'. clear -Hassoc Hnn Hwu.
      generalize (seqZ 0 (_partitions T)). intros ps Hvss. revert ps Hvss.
      induction vss as [|vs0 vss IH]; intros ps Hvss Hall'.
      + apply Forall2_nil_inv_r in Hvss as ->. constructor.
      + apply Forall2_cons_inv_r in Hvss as (p & ps' & Hp & Hvss & ->).
        apply Forall_cons in Hall' as [Hvs0 Hall']. constructor; [|by apply IH].
        unfold do_reduce. simpl. rewrite Hwu.
        by apply (do_reduce_partition op Hnn). }
  split; [done|]. intros Hcomm kvs Hkvs. rewrite Hred. f_equal.
  unfold collect, _merge in Hkvs. apply iterate_collect_values in Hkvs.
  destruct (decode_values_Permutation _ _ _ (merge_raw_Permutation (collect_cursors eng T w)) Hkvs)
    as (vs' & Hvs' & Hperm).
  unfold table_values in Hvs. rewrite Hvs in Hvs'. injection Hvs' as <-.
  symmetry. by apply reduce_values_Permutation.
Qed.

Lemma reduce_folds_witness :
  value_of (reduce eng0 T_a (fun a b => Ok (py_plus a b)) w_sample)
  = Ok (reduce_values py_plus [PyInt 1; PyInt 3; PyInt 2; PyInt 4]) /\
  ((forall a b, py_plus a b = py_plus b a) ->
   forall kvs, iterate (collect eng0 T_a true w_sample) = Ok kvs ->
     value_of (reduce eng0 T_a (fun a b => Ok (py_plus a b)) w_sample)
     = Ok (reduce_values py_plus kvs.*2)).
Proof.
  apply (reduce_folds eng0 T_a py_plus [PyInt 1; PyInt 3; PyInt 2; PyInt 4] w_sample).
  - intros a b c. unfold py_plus. simpl. f_equal. lia.
  - reflexivity.
  - vm_compute. reflexivity.
  - reflexivity.
Defined.

(** ** [mapPartitions] *)

Lemma do_map_partitions_view eng t w :
  do_map_partitions eng t w =
    (d ← kernel_run
           (V_unary eng (fun f src dst =>
              v ← f (_generator_from_cursor src);
              Ok (match last src with
                  | Some (k_bytes, _) => db_put k_bytes (Pickle.dumps v) dst
                  | None => dst
                  end))) t w;
     Ok (kv_rtn (V_unary eng (fun f src dst =>
              v ← f (_generator_from_cursor src);
              Ok (match last src with
                  | Some (k_bytes, _) => db_put k_bytes (Pickle.dumps v) dst
                  | None => dst
                  end))) t,
         commit_dst (kv_dst (V_unary eng (fun f src dst =>
              v ← f (_generator_from_cursor src);
              Ok (match last src with
                  | Some (k_bytes, _) => db_put k_bytes (Pickle.dumps v) dst
                  | None => dst
                  end))) t) d w)).
Proof.
  unfold do_map_partitions, kernel_run. simpl.
  destruct (__get_function (_UnaryProcess._info t) _) as [v|]; [|done].
  rewrite !bind_Ok. by destruct (last _) as [[k ?]|].
Qed.

Lemma last_sorted_routed T p d k v :
  routed_to T p d = true -> last d = Some (k, v) ->
  _hash_key_to_partition k (_partitions T) = Ok p.
Proof.
  intros Hr Hl. apply (routed_to_spec T p d k Hr).
  unfold db_keys. apply list_elem_of_fmap. exists (k, v). split; [done|].
  apply last_Some in Hl as [l' ->]. apply elem_of_app. right. apply elem_of_cons. by left.
Qed.

(** X17: [mapPartitions] leaves at most one entry per partition.  For a
    table with at least one partition, a result name that is not in use
    and a mapper that returns on the generator of every partition: the
    partition of the result with index [p] holds nothing if partition [p]
    of the source is empty, and otherwise the single entry whose key is
    the last (greatest) key of that partition and whose value is the
    encoding of what the mapper returned for it.  The result counts at
    most as many entries as there are partitions, and it is well formed
    if the source is. *)
Theorem mapPartitions_one_entry eng T f w :
  meta_table eng = META ->
  1 <= _partitions T ->
  fresh_result eng (_partitions T) w = true ->
  mapper_ok eng T f w = true ->
  exists out w',
    mapPartitions eng T f w = Ok (out, w') /\
    _partitions out = _partitions T /\
    (forall p, 0 <= p < _partitions T ->
       env_read (_get_env_for_partition eng out p) w'
       = map_partitions_db f (env_read (_get_env_for_partition eng T p) w)) /\
    count eng out w' <= _partitions T /\
    (wf_table eng T w = true -> wf_table eng out w' = true).
Proof.
  intros Hmeta HN Hfresh Hok.
  set (g := fun p => map_partitions_db f (env_read (_get_env_for_partition eng T p) w)).
  destruct (unary_operator eng T f (do_map_partitions eng) _ w g
              Hmeta (do_map_partitions_view eng) HN Hfresh) as (w' & Hrun & Hout & _).
  { intros p Hp. unfold mapper_ok in Hok. rewrite forallb_forall in Hok.
    assert (Hin : In p (seqZ 0 (_partitions T))) by (apply list_elem_of_In, elem_of_seqZ; lia).
    apply Hok in Hin. unfold g, map_partitions_db.
    destruct (f _) as [v|]; [|done]. rewrite bind_Ok.
    by destruct (last _) as [[k ?]|]. }
  eexists _, w'. split; [exact Hrun|]. split; [done|]. split; [done|]. split.
  - unfold count. rewrite count_fold, Z.add_0_l. simpl _partitions.
    assert (Hlen : forall ps : list Z, (forall p, p ∈ ps -> 0 <= p < _partitions T) ->
              Z.of_nat (length (concat ((fun p => env_read (_get_env_for_partition eng
                  (DTable StoreType.IN_MEMORY (job_id eng) (uuid1 w).1 (_partitions T)) p) w')
                  <$> ps))) <= Z.of_nat (length ps)).
    { induction ps as [|p ps IH]; intros Hps; [done|].
      rewrite fmap_cons. cbn [concat]. rewrite length_app.
      rewrite (Hout p) by (apply Hps; apply elem_of_cons; by left).
      assert (length (g p) <= 1)%nat.
      { unfold g, map_partitions_db. destruct (last _) as [[k ?]|]; [|simpl; lia].
        destruct (f _); simpl; lia. }
      assert (Z.of_nat (length (concat ((fun p => env_read (_get_env_for_partition eng
                  (DTable StoreType.IN_MEMORY (job_id eng) (uuid1 w).1 (_partitions T)) p) w')
                  <$> ps))) <= Z.of_nat (length ps)).
      { apply IH. intros q Hq. apply Hps. apply elem_of_cons. by right. }
      cbn [length]. lia. }
    etrans; [apply Hlen|].
    + intros p Hp. apply elem_of_seqZ in Hp. lia.
    + rewrite length_seqZ. lia.
  - intros Hwf. unfold wf_table. apply forallb_forall. intros p Hp. simpl _partitions in Hp.
    apply list_elem_of_In in Hp. pose proof Hp as Hp'. apply elem_of_seqZ in Hp'.
    rewrite (Hout p) by lia. destruct (wf_table_spec eng T w p Hwf Hp) as [_ Hr].
    unfold g, map_partitions_db.
    destruct (last _) as [[k v0]|] eqn:El; [|done]. destruct (f _) as [v|]; [|done].
    apply andb_true_iff. split; [done|]. unfold routed_to. apply forallb_forall.
    intros k' Hk'. apply list_elem_of_In in Hk'. unfold db_keys in Hk'.
    rewrite fmap_cons in Hk'. apply elem_of_cons in Hk' as [->|Hk'];
      [|by apply elem_of_nil in Hk'].
    cbn [_partitions fst]. rewrite (last_sorted_routed T p _ k v0 Hr El). by apply Z.eqb_eq.
Qed.

Lemma mapPartitions_one_entry_witness :
  exists out w',
    mapPartitions eng0 T_a py_len w_sample = Ok (out, w') /\
    _partitions out = _partitions T_a /\
    (forall p, 0 <= p < _partitions T_a ->
       env_read (_get_env_for_partition eng0 out p) w'
       = map_partitions_db py_len (env_read (_get_env_for_partition eng0 T_a p) w_sample)) /\
    count eng0 out w' <= _partitions T_a /\
    (wf_table eng0 T_a w_sample = true -> wf_table eng0 out w' = true).
Proof.
  apply (mapPartitions_one_entry eng0 T_a py_len w_sample);
    [reflexivity|simpl; lia|vm_compute; reflexivity..].
Defined.

(** ** [sample]: the draws and what they select *)

(** *** 32-bit words *)

Lemma word32_bound x : word32 x <-> 0 <= x < 2 ^ 32.
Proof.
  unfold word32. split.
  - intros [H0 Hl]. split; [done|]. destruct (Z.eq_dec x 0) as [->|Hne]; [done|].
    apply Z.log2_lt_pow2; lia.
  - intros [H0 Hl]. split; [done|]. destruct (Z.eq_dec x 0) as [->|Hne]; [done|].
    apply Z.log2_lt_pow2; lia.
Qed.

Lemma word32_0 : word32 0.
Proof. by apply word32_bound. Qed.

Lemma word32_lxor a b : word32 a -> word32 b -> word32 (Z.lxor a b).
Proof.
  intros [Ha La] [Hb Lb]. split; [by apply Z.lxor_nonneg|].
  pose proof (Z.log2_lxor a b Ha Hb). lia.
Qed.

Lemma word32_lor a b : word32 a -> word32 b -> word32 (Z.lor a b).
Proof.
  intros [Ha La] [Hb Lb]. split; [by apply Z.lor_nonneg|].
  rewrite Z.log2_lor by done. lia.
Qed.

Lemma word32_land_r a b : 0 <= a -> word32 b -> word32 (Z.land a b).
Proof.
  intros Ha [Hb Lb]. split; [apply Z.land_nonneg; by left|].
  pose proof (Z.log2_land a b Ha Hb). lia.
Qed.

Lemma word32_shiftr a n : 0 <= n -> word32 a -> word32 (Z.shiftr a n).
Proof.
  intros Hn [Ha La]. split; [by apply Z.shiftr_nonneg|].
  destruct (Z.eq_dec a 0) as [->|Hne]; [by rewrite Z.shiftr_0_l|].
  rewrite Z.log2_shiftr by lia. lia.
Qed.

Lemma word32_mask x : word32 (Z.land x MT19937.mask32).
Proof.
  apply word32_bound. change MT19937.mask32 with (Z.ones 32).
  rewrite Z.land_ones by lia. apply Z.mod_pos_bound. lia.
Qed.

Lemma word32_nth l i : Forall word32 l -> word32 (nth i l 0).
Proof.
  intros Hl. destruct (nth_in_or_default i l 0) as [Hin| ->]; [|apply word32_0].
  rewrite Forall_forall in Hl. by apply Hl, list_elem_of_In.
Qed.

Lemma seed_words_ok n pos seed : word32 seed -> Forall word32 (MT19937.seed_words n pos seed).
Proof.
  revert pos seed. induction n as [|n IH]; intros pos seed Hs; [constructor|].
  cbn [MT19937.seed_words]. constructor; [done|]. apply IH, word32_mask.
Qed.

Lemma init_genrand_ok s : state_ok (MT19937.init_genrand s).
Proof.
  unfold state_ok, MT19937.init_genrand. cbn [MT19937.key]. apply seed_words_ok, word32_mask.
Qed.

Lemma twist_ok n i mt : Forall word32 mt -> Forall word32 (MT19937.twist n i mt).
Proof.
  revert i mt. induction n as [|n IH]; intros i mt Hmt; [done|].
  cbn [MT19937.twist]. apply IH. apply Forall_insert; [done|].
  repeat apply word32_lxor.
  - by apply word32_nth.
  - apply word32_shiftr; [lia|]. apply word32_lor.
    + apply word32_land_r; [by apply (word32_nth mt i Hmt)|by apply word32_bound].
    + apply word32_land_r; [by apply (word32_nth mt _ Hmt)|by apply word32_bound].
  - destruct (Z.odd _); by apply word32_bound.
Qed.

Lemma temper_ok y : word32 y -> word32 (MT19937.temper y).
Proof.
  intros Hy. unfold MT19937.temper.
  assert (H1 : word32 (Z.lxor y (Z.shiftr y 11))).
  { apply word32_lxor; [done|]. by apply word32_shiftr. }
  set (y1 := Z.lxor y (Z.shiftr y 11)) in *.
  assert (H2 : word32 (Z.lxor y1 (Z.land (Z.shiftl y1 7) 0x9d2c5680))).
  { apply word32_lxor; [done|]. apply word32_land_r; [|by apply word32_bound].
    apply Z.shiftl_nonneg. by destruct H1. }
  set (y2 := Z.lxor y1 _) in *.
  assert (H3 : word32 (Z.lxor y2 (Z.land (Z.shiftl y2 15) 0xefc60000))).
  { apply word32_lxor; [done|]. apply word32_land_r; [|by apply word32_bound].
    apply Z.shiftl_nonneg. by destruct H2. }
  set (y3 := Z.lxor y2 _) in *.
  apply word32_lxor; [done|]. by apply word32_shiftr.
Qed.

Lemma genrand_ok s a s' :
  state_ok s -> MT19937.genrand s = (a, s') -> word32 a /\ state_ok s'.
Proof.
  unfold MT19937.genrand, state_ok. intros Hs.
  pose proof (twist_ok 624 0 _ Hs) as Ht.
  remember (MT19937.twist 624 0 (MT19937.key s)) as tw eqn:Htw. clear Htw.
  destruct (624 <=? MT19937.pos s)%nat; intros H;
    apply pair_equal_spec in H as [<- <-]; cbn [MT19937.key MT19937.pos].
  - split; [by apply temper_ok, word32_nth|done].
  - split; [by apply temper_ok, word32_nth|done].
Qed.

(** *** The float of a draw *)

Lemma normalize_unit m :
  0 <= m < 2 ^ 53 -> unit_float (binary_normalize 53 1024 m (-53) false).
Proof.
  intros Hm. destruct m as [|p|p]; [by left| |lia]. right.
  pose proof (Zdigits2_bounds (Z.pos p) ltac:(lia)) as Hd.
  set (d := Zdigits2 (Z.pos p)) in *.
  assert (Hd1 : 1 <= d <= 53).
  { split.
    - destruct (Z.le_gt_cases 1 d); [done|].
      assert (2 ^ d <= 2 ^ 0) by (apply Z.pow_le_mono_r; lia). simpl in *; lia.
    - destruct (Z.le_gt_cases d 53); [done|].
      assert (2 ^ 53 <= 2 ^ (d - 1)) by (apply Z.pow_le_mono_r; lia). lia. }
  unfold binary_normalize, binary_round, shl_align.
  rewrite fexp_eq. change (Z.pos (digits2_pos p)) with d.
  replace (Z.max (d + -53 - 53) (-1074) - -53) with (d - 53) by lia.
  destruct (d - 53) as [|q|q] eqn:E; try lia.
  - assert (d = 53) as Hd53 by lia.
    rewrite bra_exact by (fold d; lia). exists p, (-53). split; [done|lia].
  - replace (Z.max (d + -53 - 53) (-1074)) with (d - 106) by lia.
    assert (Hq : Z.pos q = 53 - d) by lia.
    assert (Hpow : 2 ^ 52 = 2 ^ (d - 1) * 2 ^ Z.pos q /\ 2 ^ 53 = 2 ^ d * 2 ^ Z.pos q).
    { rewrite <- !Z.pow_add_r by lia. split; f_equal; lia. }
    assert (Hpos : 0 < 2 ^ Z.pos q) by (apply Z.pow_pos_nonneg; lia).
    assert (Hmm : 2 ^ 52 <= Z.pos (Pos.iter xO p q) < 2 ^ 53).
    { rewrite pos_iter_xO. nia. }
    rewrite bra_exact.
    + exists (Pos.iter xO p q), (d - 106). split; [done|lia].
    + apply Zdigits2_unique; [lia|]. exact Hmm.
    + lia.
Qed.

Lemma rand_ok s u s' :
  state_ok s -> MT19937.rand s = (u, s') -> unit_float u /\ state_ok s'.
Proof.
  unfold MT19937.rand. intros Hs.
  destruct (MT19937.genrand s) as [a s1] eqn:Ha.
  destruct (MT19937.genrand s1) as [b s2] eqn:Hb.
  intros [= <- <-].
  destruct (genrand_ok _ _ _ Hs Ha) as [Hwa Hs1].
  destruct (genrand_ok _ _ _ Hs1 Hb) as [Hwb Hs2].
  split; [|done]. apply normalize_unit.
  apply word32_bound in Hwa, Hwb. rewrite !Z.shiftr_div_pow2 by lia.
  assert (0 <= a / 2 ^ 5 < 2 ^ 27).
  { split; [apply Z.div_pos; lia|apply Z.div_lt_upper_bound; lia]. }
  assert (0 <= b / 2 ^ 6 < 2 ^ 26).
  { split; [apply Z.div_pos; lia|apply Z.div_lt_upper_bound; lia]. }
  lia.
Qed.

Lemma unit_float_not_lt u fraction :
  unit_float u -> float_ltb (S754_zero false) fraction = false ->
  float_ltb u fraction = false.
Proof.
  unfold float_ltb, SFltb. intros [->|(m & e & -> & _)]; [done|].
  destruct fraction as [[]|[]| |[] mf ef]; simpl; done.
Qed.

Lemma unit_float_lt u fraction :
  unit_float u -> float_ge_one fraction = true -> float_ltb u fraction = true.
Proof.
  unfold float_ltb, SFltb, float_ge_one.
  intros Hu Hf. destruct fraction as [[]|[]| |[] mf ef]; try done.
  - by destruct Hu as [->|(m & e & -> & _)].
  - apply andb_true_iff in Hf as [_ Hef]. apply Z.leb_le in Hef.
    destruct Hu as [->|(m & e & -> & He)]; [done|]. simpl.
    assert ((e ?= ef) = Lt) as -> by (apply Z.compare_lt_iff; lia). done.
Qed.

(** *** The loop of [do_sample] *)

Lemma db_put_length_le k v d : (length (db_put k v d) <= S (length d))%nat.
Proof.
  induction d as [|[k0 v0] d IH]; [simpl; lia|]. cbn [db_put].
  destruct (bytes_compare k k0); cbn [length]; lia.
Qed.

Lemma sample_step_eq fraction dst rs k v :
  sample_step fraction (dst, rs) (k, v) =
    (if float_ltb (MT19937.rand rs).1 fraction then db_put k v dst else dst,
     (MT19937.rand rs).2).
Proof.
  unfold sample_step. destruct (MT19937.rand rs) as [u rs']. cbn [fst snd].
  by destruct (float_ltb u fraction).
Qed.

Lemma rand_ok' rs :
  state_ok rs -> unit_float (MT19937.rand rs).1 /\ state_ok (MT19937.rand rs).2.
Proof.
  intros Hrs. destruct (MT19937.rand rs) as [u rs'] eqn:Hr. by apply (rand_ok rs).
Qed.

(** The loop of [do_sample] over any generator: the lemmas below use the
    one-step equation of the loop body and the invariant of the draws
    alone. *)
Section SampleFold.
Context {S : Type} (fraction : spec_float).
Variable step : db * S -> bytes * bytes -> db * S.
Variable draw : S -> spec_float * S.
Variable inv : S -> Prop.
Hypothesis step_eq : forall dst rs k v,
  step (dst, rs) (k, v) =
    (if float_ltb (draw rs).1 fraction then db_put k v dst else dst, (draw rs).2).
Hypothesis draw_ok : forall rs, inv rs -> unit_float (draw rs).1 /\ inv (draw rs).2.

Lemma draw_fold_sub src dst rs :
  (db_sorted dst = true -> db_sorted (fold_left step src (dst, rs)).1 = true) /\
  (forall kb vb, db_get kb (fold_left step src (dst, rs)).1 = Some vb ->
     (kb, vb) ∈ src \/ db_get kb dst = Some vb) /\
  (forall k, k ∈ db_keys (fold_left step src (dst, rs)).1 ->
     k ∈ db_keys src \/ k ∈ db_keys dst) /\
  (length (fold_left step src (dst, rs)).1 <= length dst + length src)%nat.
Proof using step_eq.
  revert dst rs. induction src as [|[k v] src IH]; intros dst rs.
  - cbn [fold_left fst]. repeat split; auto. cbn [length]. lia.
  - cbn [fold_left]. rewrite step_eq.
    destruct (float_ltb (draw rs).1 fraction).
    + destruct (IH (db_put k v dst) (draw rs).2) as (Hs & Hget & Hkeys & Hlen).
      split; [|split; [|split]].
      * intros Hd. by apply Hs, db_put_sorted.
      * intros kb vb H. apply Hget in H as [H|H]; [left; apply elem_of_cons; by right|].
        destruct (bytes_eqb kb k) eqn:E.
        -- apply bytes_eqb_eq in E as ->. rewrite db_get_put_eq in H. injection H as <-.
           left. apply elem_of_cons. by left.
        -- rewrite db_get_put_ne in H; [by right|]. intros Heq.
           rewrite Heq, bytes_eqb_refl in E. done.
      * intros k' H. apply Hkeys in H as [H|H].
        -- left. unfold db_keys. rewrite fmap_cons. apply elem_of_cons. by right.
        -- apply db_put_keys in H as [->|H]; [|by right].
           left. unfold db_keys. rewrite fmap_cons. apply elem_of_cons. by left.
      * pose proof (db_put_length_le k v dst). cbn [length]. lia.
    + destruct (IH dst (draw rs).2) as (Hs & Hget & Hkeys & Hlen).
      split; [done|]. split; [|split].
      * intros kb vb H. apply Hget in H as [H|H]; [left; apply elem_of_cons; by right|by right].
      * intros k' H. apply Hkeys in H as [H|H]; [|by right].
        left. unfold db_keys. rewrite fmap_cons. apply elem_of_cons. by right.
      * cbn [length]. lia.
Qed.

Lemma draw_fold_none src dst rs :
  inv rs -> float_ltb (S754_zero false) fraction = false ->
  (fold_left step src (dst, rs)).1 = dst.
Proof using step_eq draw_ok.
  intros Hrs Hf. revert rs Hrs. induction src as [|[k v] src IH]; intros rs Hrs; [done|].
  cbn [fold_left]. rewrite step_eq.
  destruct (draw_ok rs Hrs) as [Hu Hrs'].
  rewrite (unit_float_not_lt _ fraction Hu Hf). by apply IH.
Qed.

Lemma draw_fold_all src dst rs kb :
  inv rs -> float_ge_one fraction = true -> NoDup (db_keys src) ->
  db_get kb (fold_left step src (dst, rs)).1
  = match db_get kb src with Some vb => Some vb | None => db_get kb dst end.
Proof using step_eq draw_ok.
  intros Hrs Hf. revert dst rs Hrs. induction src as [|[k v] src IH]; intros dst rs Hrs Hnd;
    [done|].
  unfold db_keys in Hnd. rewrite fmap_cons in Hnd. apply NoDup_cons in Hnd as [Hk Hnd].
  cbn [fold_left]. rewrite step_eq.
  destruct (draw_ok rs Hrs) as [Hu Hrs'].
  rewrite (unit_float_lt _ fraction Hu Hf), (IH _ _ Hrs' Hnd). cbn [db_get].
  destruct (bytes_eqb kb k) eqn:E.
  - apply bytes_eqb_eq in E as ->.
    assert (db_get k src = None) as -> by (apply db_get_None_keys; by rewrite <- list_elem_of_In).
    apply db_get_put_eq.
  - destruct (db_get kb src); [done|]. apply db_get_put_ne. intros Heq.
    rewrite Heq, bytes_eqb_refl in E. done.
Qed.
End SampleFold.

Lemma sample_fold_sub fraction src dst rs :
  (db_sorted dst = true ->
   db_sorted (fold_left (sample_step fraction) src (dst, rs)).1 = true) /\
  (forall kb vb, db_get kb (fold_left (sample_step fraction) src (dst, rs)).1 = Some vb ->
     (kb, vb) ∈ src \/ db_get kb dst = Some vb) /\
  (forall k, k ∈ db_keys (fold_left (sample_step fraction) src (dst, rs)).1 ->
     k ∈ db_keys src \/ k ∈ db_keys dst) /\
  (length (fold_left (sample_step fraction) src (dst, rs)).1 <= length dst + length src)%nat.
Proof.
  exact (draw_fold_sub fraction (sample_step fraction) MT19937.rand
           (sample_step_eq fraction) src dst rs).
Qed.

Lemma sample_fold_none fraction src dst rs :
  state_ok rs -> float_ltb (S754_zero false) fraction = false ->
  (fold_left (sample_step fraction) src (dst, rs)).1 = dst.
Proof.
  exact (draw_fold_none fraction (sample_step fraction) MT19937.rand state_ok
           (sample_step_eq fraction) rand_ok' src dst rs).
Qed.

Lemma sample_fold_all fraction src dst rs kb :
  state_ok rs -> float_ge_one fraction = true -> NoDup (db_keys src) ->
  db_get kb (fold_left (sample_step fraction) src (dst, rs)).1
  = match db_get kb src with Some vb => Some vb | None => db_get kb dst end.
Proof.
  exact (draw_fold_all fraction (sample_step fraction) MT19937.rand state_ok
           (sample_step_eq fraction) rand_ok' src dst rs kb).
Qed.

Lemma run_tasks_ext {T} (K K' : T -> world -> result (_Operand.t * world)) tasks w :
  (forall t w, t ∈ tasks -> K t w = K' t w) -> run_tasks K tasks w = run_tasks K' tasks w.
Proof.
  revert w. induction tasks as [|t tasks IH]; intros w H; [done|].
  cbn [run_tasks]. rewrite (H t w) by (apply elem_of_cons; by left).
  destruct (K' t w) as [[r w1]|]; [|done]. rewrite !bind_Ok. cbv beta iota.
  rewrite IH; [done|]. intros t' w' Ht'. apply H. apply elem_of_cons. by right.
Qed.

Lemma do_sample_body eng fraction s (t : _UnaryProcess.t (spec_float * option Z)) w :
  _function_bytes (_UnaryProcess._info t) = (fraction, Some s) ->
  do_sample eng t w =
    (d ← kernel_run (V_unary eng sample_body) t w;
     Ok (kv_rtn (V_unary eng sample_body) t,
         commit_dst (kv_dst (V_unary eng sample_body) t) d w)).
Proof.
  intros Hf. unfold do_sample, kernel_run, sample_body, RandomState, valid_seed.
  cbn [V_unary kv_body kv_rtn kv_dst kv_src1 kv_src2]. unfold __get_function.
  rewrite Hf. cbn [fst snd].
  destruct ((0 <=? s) && (s <? 2 ^ 32)); reflexivity.
Qed.

(** X18: [sample] with an integer seed selects entries of the source and
    changes none.  For a well-formed table with at least one partition,
    a result name that is not in use and a seed in [0, 2^32): the result
    has the source's partition count, every entry it holds is an entry of
    the source with the same bytes, it counts no more entries than the
    source and is well formed.  If the fraction is not above zero the
    result is empty, and if the fraction is at least one the result holds
    exactly what the source holds (a draw is a float in [0, 1)). *)
Theorem sample_selects eng T fraction s w :
  meta_table eng = META ->
  1 <= _partitions T ->
  wf_table eng T w = true ->
  fresh_result eng (_partitions T) w = true ->
  valid_seed s = true ->
  exists out w',
    sample eng T fraction (Some s) w = Ok (out, w') /\
    _partitions out = _partitions T /\
    (forall kb vb, table_lookup eng out kb w' = Some vb ->
       table_lookup eng T kb w = Some vb) /\
    count eng out w' <= count eng T w /\
    wf_table eng out w' = true /\
    (float_ltb (S754_zero false) fraction = false -> count eng out w' = 0) /\
    (float_ge_one fraction = true ->
       forall kb, table_lookup eng out kb w' = table_lookup eng T kb w).
Proof.
  intros Hmeta HN Hwf Hfresh Hseed.
  set (g := fun p => sample_db fraction (MT19937.init_genrand s)
                       (env_read (_get_env_for_partition eng T p) w) []).
  set (K' := fun (t : _UnaryProcess.t (spec_float * option Z)) w =>
               d ← kernel_run (V_unary eng sample_body) t w;
               Ok (kv_rtn (V_unary eng sample_body) t,
                   commit_dst (kv_dst (V_unary eng sample_body) t) d w)).
  destruct (unary_operator eng T (fraction, Some s) K' sample_body w g
              Hmeta ltac:(done) HN Hfresh) as (w' & Hrun & Hout & _).
  { intros p Hp. unfold sample_body. cbn [fst snd]. by rewrite Hseed. }
  assert (Hsample : sample eng T fraction (Some s) w
                    = Ok (DTable StoreType.IN_MEMORY (job_id eng) (uuid1 w).1 (_partitions T), w')).
  { rewrite <- Hrun. unfold sample, _submit_to_pool, _serialize_and_hash_func.
    destruct (uuid1 w) as [fid wu].
    rewrite (run_tasks_ext (do_sample eng) K'); [done|].
    intros t w0 Ht. apply list_elem_of_fmap in Ht as (p & -> & _).
    by apply (do_sample_body eng fraction s). }
  eexists _, w'. split; [exact Hsample|]. split; [done|].
  assert (Hsub : forall p, 0 <= p < _partitions T ->
            (db_sorted (g p) = true) /\
            (forall kb vb, db_get kb (g p) = Some vb ->
               (kb, vb) ∈ env_read (_get_env_for_partition eng T p) w) /\
            (forall k, k ∈ db_keys (g p) ->
               k ∈ db_keys (env_read (_get_env_for_partition eng T p) w)) /\
            (length (g p) <= length (env_read (_get_env_for_partition eng T p) w))%nat).
  { intros p Hp. unfold g, sample_db.
    destruct (sample_fold_sub fraction (env_read (_get_env_for_partition eng T p) w) []
                (MT19937.init_genrand s)) as (Hs & Hget & Hkeys & Hlen).
    split; [by apply Hs|]. split; [|split].
    - intros kb vb H. by destruct (Hget kb vb H).
    - intros k H. destruct (Hkeys k H) as [?|H']; [done|by apply elem_of_nil in H'].
    - cbn [length Nat.add] in Hlen. lia. }
  split; [|split; [|split; [|split]]].
  - intros kb vb H. unfold table_lookup in H |- *. simpl _partitions in H.
    destruct (_hash_key_to_partition kb (_partitions T)) as [p|] eqn:Hp; [|done].
    pose proof (hash_range _ _ _ Hp) as Hrange.
    assert (Hpin : p ∈ seqZ 0 (_partitions T)) by (apply elem_of_seqZ; lia).
    destruct (wf_table_spec eng T w p Hwf Hpin) as [Hs _].
    rewrite (Hout p Hrange) in H. destruct (Hsub p Hrange) as (_ & Hget & _).
    apply db_get_NoDup_In; [by apply db_sorted_NoDup|by apply Hget].
  - unfold count. rewrite !count_fold, !Z.add_0_l. simpl _partitions.
    apply inj_le.
    assert (Hle : forall ps : list Z, (forall p, p ∈ ps -> 0 <= p < _partitions T) ->
              (length (concat ((fun p => env_read (_get_env_for_partition eng
                  (DTable StoreType.IN_MEMORY (job_id eng) (uuid1 w).1 (_partitions T)) p) w')
                  <$> ps))
               <= length (concat ((fun p => env_read (_get_env_for_partition eng T p) w)
                                    <$> ps)))%nat).
    { induction ps as [|p ps IH]; intros Hps; [done|].
      rewrite !fmap_cons. cbn [concat]. rewrite !length_app.
      rewrite (Hout p) by (apply Hps; apply elem_of_cons; by left).
      destruct (Hsub p) as (_ & _ & _ & Hlen); [apply Hps; apply elem_of_cons; by left|].
      assert (length (concat ((fun p => env_read (_get_env_for_partition eng
                  (DTable StoreType.IN_MEMORY (job_id eng) (uuid1 w).1 (_partitions T)) p) w')
                  <$> ps))
               <= length (concat ((fun p => env_read (_get_env_for_partition eng T p) w)
                                    <$> ps)))%nat.
      { apply IH. intros q Hq. apply Hps. apply elem_of_cons. by right. }
      lia. }
    apply Hle. intros p Hp. apply elem_of_seqZ in Hp. lia.
  - unfold wf_table. apply forallb_forall. intros p Hp. simpl _partitions in Hp.
    apply list_elem_of_In in Hp. pose proof Hp as Hp'. apply elem_of_seqZ in Hp'.
    assert (Hrange : 0 <= p < _partitions T) by lia.
    destruct (wf_table_spec eng T w p Hwf Hp) as [_ Hr].
    rewrite (Hout p Hrange). destruct (Hsub p Hrange) as (Hs & _ & Hkeys & _).
    rewrite Hs. cbn [andb]. unfold routed_to. apply forallb_forall. intros k Hk.
    apply list_elem_of_In, Hkeys in Hk. cbn [_partitions].
    rewrite (routed_to_spec T p _ k Hr Hk). by apply Z.eqb_eq.
  - intros Hf. unfold count. rewrite count_fold, Z.add_0_l. simpl _partitions.
    change 0 with (Z.of_nat 0). f_equal.
    etransitivity;
      [apply (length_concat_ext (A := bytes * bytes) _ (fun _ => []))
      |apply length_concat_nil].
    { intros p Hp. apply elem_of_seqZ in Hp. rewrite (Hout p) by lia.
      unfold g, sample_db. by rewrite (sample_fold_none _ _ _ _ (init_genrand_ok s) Hf). }
  - intros Hf kb. unfold table_lookup. simpl _partitions.
    destruct (_hash_key_to_partition kb (_partitions T)) as [p|] eqn:Hp; [|done].
    pose proof (hash_range _ _ _ Hp) as Hrange.
    assert (Hpin : p ∈ seqZ 0 (_partitions T)) by (apply elem_of_seqZ; lia).
    destruct (wf_table_spec eng T w p Hwf Hpin) as [Hs _].
    rewrite (Hout p Hrange). unfold g, sample_db.
    rewrite (sample_fold_all _ _ _ _ kb (init_genrand_ok s) Hf (db_sorted_NoDup _ Hs)).
    by destruct (db_get kb _).
Qed.

Lemma sample_selects_witness :
  exists out w',
    sample eng0 T_a one_half (Some 42) w_sample = Ok (out, w') /\
    _partitions out = _partitions T_a /\
    (forall kb vb, table_lookup eng0 out kb w' = Some vb ->
       table_lookup eng0 T_a kb w_sample = Some vb) /\
    count eng0 out w' <= count eng0 T_a w_sample /\
    wf_table eng0 out w' = true /\
    (float_ltb (S754_zero false) one_half = false -> count eng0 out w' = 0) /\
    (float_ge_one one_half = true ->
       forall kb, table_lookup eng0 out kb w' = table_lookup eng0 T_a kb w_sample).
Proof.
  apply (sample_selects eng0 T_a one_half 42 w_sample);
    [reflexivity|simpl; lia|vm_compute; reflexivity..].
Defined.
